(** * Raster halftoning pipeline of the ePOS printer SDK

    Shallow embedding of [toMonoImage] and [toGrayImage] (utils.ts) and the
    properties of the natural-language specification that concern them.

    JavaScript numbers are IEEE-754 binary64 values: they are modelled by Rocq's
    primitive [float]s, whose operations are specified by [FloatAxioms].  Loop
    counters, byte accumulators and table entries hold small integers and are
    modelled in [Z], with the 32-bit conversions of the bitwise operators
    written out.  The three [Float32Array] row buffers live in a store indexed
    by references, so that aliasing between the slots of [errorBuffer] is
    visible.

    The second half of the definitions embeds the text helpers of utils.ts,
    the markup builder [EpsonPrint] (print.ts) and the client [EpsonPrinter]
    (printer.ts).  Strings are sequences of UTF-16 code units; the replies
    of the printer are given to [send], [getStatus] and [isReady] as
    arguments. *)

From Stdlib Require Import ZArith NArith List Lia Bool Floats.
From Stdlib Require Ascii String.
From stdpp Require Import base list.
Import String.StringSyntax.

Set Warnings "-inexact-float".
Open Scope Z_scope.
Bind Scope string_scope with String.string.

(** ** The JavaScript operations the converters rely on *)

Module JS.

(** Abrupt completion: the only exception the converters can raise is the
    [RangeError] of a typed-array constructor given an invalid length. *)
Inductive error := RangeError.

Inductive completion (A : Type) :=
| Normal (a : A)
| Throw (e : error).
Arguments Normal {A} a.
Arguments Throw {A} e.

Definition bind {A B} (c : completion A) (k : A -> completion B) : completion B :=
  match c with
  | Normal a => k a
  | Throw e => Throw e
  end.

(** [ToInt32] on an integer: wrap modulo 2^32 into [-2^31, 2^31). *)
Definition toInt32 (z : Z) : Z :=
  let m := z mod 2 ^ 32 in
  if m <? 2 ^ 31 then m else m - 2 ^ 32.

(** [ToUint8], the conversion of a store into a [Uint8Array]. *)
Definition toUint8 (z : Z) : Z := z mod 256.

(** An integer-valued number as a binary64 value (for an integer below 2^63
    in absolute value). *)
Definition num (z : Z) : float :=
  if z <? 0 then (- of_uint63 (Uint63.of_Z (- z)))%float
  else of_uint63 (Uint63.of_Z z).

(** Truncation of a finite number towards zero. *)
Definition trunc (x : float) : option Z :=
  match Prim2SF x with
  | S754_zero _ => Some 0
  | S754_finite s m e =>
      let a := if 0 <=? e then Z.pos m * 2 ^ e else Z.pos m / 2 ^ (- e) in
      Some (if s then - a else a)
  | S754_infinity _ | S754_nan => None
  end.

(** [x | 0]: NaN and the infinities give 0, any other number is truncated
    and wrapped. *)
Definition ToInt32 (x : float) : Z :=
  match trunc x with
  | Some z => toInt32 z
  | None => 0
  end.

(** [Math.fround]: the rounding of a store into a [Float32Array]. *)
Definition fround (x : float) : float :=
  match Prim2SF x with
  | S754_finite s m e => SF2Prim (binary_round 24 128 s m e)
  | _ => x
  end.

Definition is_integral (x : float) : bool :=
  match Prim2SF x with
  | S754_zero _ => true
  | S754_finite _ m e => (0 <=? e) || (Z.pos m mod 2 ^ (- e) =? 0)
  | _ => false
  end.

Definition is_odd_integral (x : float) : bool :=
  match Prim2SF x with
  | S754_finite _ m e =>
      if 0 <? e then false
      else (Z.pos m mod 2 ^ (- e) =? 0) && Z.odd (Z.pos m / 2 ^ (- e))
  | _ => false
  end.

(** [Math.pow] as ECMAScript's Number::exponentiate fixes it: every special
    case is specified exactly; only the last step, on a finite non-zero base
    and a finite non-zero exponent, is implementation-approximated and is
    left to the engine's [approx]. *)
Definition Math_pow (approx : float -> float -> float) (base exponent : float) : float :=
  if is_nan exponent then nan
  else if is_zero exponent then 1%float
  else if is_nan base then nan
  else if (base =? infinity)%float then
    if (0 <? exponent)%float then infinity else 0%float
  else if (base =? neg_infinity)%float then
    if (0 <? exponent)%float
    then (if is_odd_integral exponent then neg_infinity else infinity)
    else (if is_odd_integral exponent then neg_zero else 0%float)
  else if is_zero base then
    if get_sign base
    then (if (0 <? exponent)%float
          then (if is_odd_integral exponent then neg_zero else 0%float)
          else (if is_odd_integral exponent then neg_infinity else infinity))
    else (if (0 <? exponent)%float then 0%float else infinity)
  else if (exponent =? infinity)%float then
    if (1 <? abs base)%float then infinity
    else if (abs base =? 1)%float then nan else 0%float
  else if (exponent =? neg_infinity)%float then
    if (1 <? abs base)%float then 0%float
    else if (abs base =? 1)%float then nan else infinity
  else if (base <? 0)%float && negb (is_integral exponent) then nan
  else approx base exponent.

(** [new Uint8Array(len)]: a zero-filled array, or a [RangeError] when the
    length is negative.  (The engine's allocation limits are not modelled.) *)
Definition new_Uint8Array (len : Z) : completion (list Z) :=
  if len <? 0 then Throw RangeError
  else Normal (replicate (Z.to_nat len) 0).

(** [new Float32Array(len)]. *)
Definition new_Float32Array (len : Z) : completion (list float) :=
  if len <? 0 then Throw RangeError
  else Normal (replicate (Z.to_nat len) 0%float).

End JS.

#[global] Instance completion_bind : MBind JS.completion :=
  fun A B k c => JS.bind c k.

(** ** Limits of the engine

    The language leaves to the engine how long a typed array or a string may
    get, and an engine raises a [RangeError] where it cannot allocate.  These
    limits are not modelled: [JS.new_Uint8Array], [JS.new_Float32Array] and
    the operations on strings succeed at every length.  A property that
    asserts that a call returns, and whose input nothing else bounds, is
    therefore stated for dimensions of at most [max_dimension] (the buffers
    requested then stay below 2^28 bytes) and for strings of at most
    [max_string_length] code units, lengths within what the engines
    allocate. *)
Definition max_dimension : Z := 2 ^ 14.

Definition max_string_length : Z := 2 ^ 28 - 16.

(** ** Input *)

(** [ImageData]: the flat RGBA buffer and its dimensions.  The entries of
    [data] are the channel values; a read past the end yields [undefined],
    which every arithmetic operator turns into NaN. *)
Record ImageData := { data : list Z; width : Z; height : Z }.

Definition rd (d : list Z) (p : Z) : float :=
  match d !! Z.to_nat p with
  | Some z => JS.num z
  | None => nan
  end.

(** The luminance expression shared by both converters, reading the pixel
    that starts at index [p]: [d[p++]], [d[p++]], [d[p++]] and twice the
    alpha [d[p]]. *)
Definition lum (d : list Z) (p : Z) : float :=
  ((((rd d p * 0.29891 + rd d (p + 1) * 0.58661 + rd d (p + 2) * 0.11448)
     * rd d (p + 3)) / 255 + 255 - rd d (p + 3)) / 255)%float.

(** A constant two-dimensional table read at [m[r][c]]. *)
Definition tbl2 (m : list (list Z)) (r c : Z) : Z :=
  default 0 (m !! Z.to_nat r ≫= fun row => row !! Z.to_nat c).

(** ** The store of row error buffers *)

(** The [Float32Array]s allocated by one call, addressed by reference; the
    array [errorBuffer] holds three references into it. *)
Definition store := list (list float).

Definition buf_get (hp : store) (b : nat) (k : Z) : float :=
  match hp !! b ≫= fun l => l !! Z.to_nat k with
  | Some x => x
  | None => nan
  end.

(** [buf[k] += x]: the sum is computed in binary64 and rounded to binary32
    by the store. *)
Definition buf_add (hp : store) (b : nat) (k : Z) (x : float) : store :=
  alter (fun l => <[Z.to_nat k := JS.fround (buf_get hp b k + x)]> l) b hp.

(** [buf.fill(0)]. *)
Definition buf_fill0 (hp : store) (b : nat) : store :=
  alter (fun l => replicate (length l) 0%float) b hp.

(** A sequence of [+=] statements, executed from left to right. *)
Definition buf_adds (us : list (nat * Z * float)) (hp : store) : store :=
  foldl (fun hp u => buf_add hp u.1.1 u.1.2 u.2) hp us.

(** ** Monochrome halftoner *)

Definition bayer : list (list Z) :=
  [ [2; 130; 34; 162; 10; 138; 42; 170];
    [194; 66; 226; 98; 202; 74; 234; 106];
    [50; 178; 18; 146; 58; 186; 26; 154];
    [242; 114; 210; 82; 250; 122; 218; 90];
    [14; 142; 46; 174; 6; 134; 38; 166];
    [206; 78; 238; 110; 198; 70; 230; 102];
    [62; 190; 30; 158; 54; 182; 22; 150];
    [254; 126; 222; 94; 246; 118; 214; 86] ].

(** The error-diffusion statements of one pixel at column [i], for mode [s]
    and quantization error [err], in source order.  [cur], [nxt] and [nxt2]
    are the references read from [errorBuffer] at the start of the row. *)
Definition kernel (s : Z) (cur nxt nxt2 : nat) (i : Z) (err : float)
  : list (nat * Z * float) :=
  if s =? 1 then
    [ (cur, i + 3, (err * 7 / 16)%float); (nxt, i + 1, (err * 3 / 16)%float);
      (nxt, i + 2, (err * 5 / 16)%float); (nxt, i + 3, (err * 1 / 16)%float) ]
  else if s =? 2 then
    let dist := (err / 8)%float in
    [ (cur, i + 3, dist); (cur, i + 4, dist); (nxt, i + 1, dist);
      (nxt, i + 2, dist); (nxt, i + 3, dist); (nxt2, i + 2, dist) ]
  else if s =? 3 then
    let dist := (err / 42)%float in
    [ (cur, i + 3, (dist * 8)%float); (cur, i + 4, (dist * 4)%float);
      (nxt, i, (dist * 2)%float); (nxt, i + 1, (dist * 4)%float);
      (nxt, i + 2, (dist * 8)%float); (nxt, i + 3, (dist * 4)%float);
      (nxt, i + 4, (dist * 2)%float);
      (nxt2, i, (dist * 1)%float); (nxt2, i + 1, (dist * 2)%float);
      (nxt2, i + 2, (dist * 4)%float); (nxt2, i + 3, (dist * 2)%float);
      (nxt2, i + 4, (dist * 1)%float) ]
  else [].

(** The substitution applied to every flushed byte: [(n === 16) ? 32 : n]. *)
Definition emit_byte (n : Z) : Z := if n =? 16 then 32 else n.

(** The local variables of [toMonoImage] that survive a loop iteration. *)
Record mono_state := MonoState {
  st_n : Z;
  st_p : Z;
  st_q : Z;
  st_r : list Z;
  st_bufs : store
}.

Section Converters.

(** The engine's approximation of [Math.pow] on ordinary arguments. *)
Variable approx : float -> float -> float.

(** Gamma-corrected brightness of the pixel that starts at [p]. *)
Definition brightness (d : list Z) (p : Z) (g : float) : float :=
  (JS.Math_pow approx (lum d p) (1 / g) * 255)%float.

(** The value compared against the threshold: in the diffusion modes the
    brightness plus the error carried in the current row buffer. *)
Definition mono_value (d : list Z) (s : Z) (g : float) (cur : nat)
    (i p : Z) (hp : store) : float :=
  if s =? 0 then brightness d p g
  else (brightness d p g + buf_get hp cur (i + 2))%float.

Definition mono_threshold (s j i : Z) : Z :=
  if s =? 0 then tbl2 bayer (Z.land j 7) (Z.land i 7) else 128.

(** Decision and error propagation for the pixel at row [j], column [i]. *)
Definition mono_decide (d : list Z) (s : Z) (g : float) (cur nxt nxt2 : nat)
    (j i p : Z) (hp : store) : bool * store :=
  let v := mono_value d s g cur i p hp in
  let isDark := (v <? JS.num (mono_threshold s j i))%float in
  let hp :=
    if 0 <? s then
      let err := (v - (if isDark then 0 else 255))%float in
      buf_adds (kernel s cur nxt nxt2 i err) hp
    else hp in
  (isDark, hp).

(** Bit accumulation and flush for column [i] of a row of width [w]. *)
Definition mono_pack (w i : Z) (isDark : bool) (n q : Z) (r : list Z)
  : Z * Z * list Z :=
  let b := Z.land i 7 in
  let n := if isDark then Z.lor n (Z.shiftr 128 b) else n in
  if (b =? 7) || (i =? w - 1)
  then (0, q + 1, <[Z.to_nat q := JS.toUint8 (emit_byte n)]> r)
  else (n, q, r).

(** Body of the inner loop. *)
Definition mono_pixel (d : list Z) (w s : Z) (g : float) (cur nxt nxt2 : nat)
    (j : Z) (st : mono_state) (i : Z) : mono_state :=
  let '(isDark, hp) := mono_decide d s g cur nxt nxt2 j i (st_p st) (st_bufs st) in
  let '(n, q, r) := mono_pack w i isDark (st_n st) (st_q st) (st_r st) in
  MonoState n (st_p st + 4) q r hp.

(** [errorBuffer.shift(); errorBuffer.push(nxt2)]. *)
Definition rotate (errorBuffer : list nat) (nxt2 : nat) : list nat :=
  tail errorBuffer ++ [nxt2].

(** Body of the outer loop. *)
Definition mono_row (d : list Z) (w s : Z) (g : float)
    (ste : mono_state * list nat) (j : Z) : mono_state * list nat :=
  let '(st, errorBuffer) := ste in
  let cur := nth 0 errorBuffer 0%nat in
  let nxt := nth 1 errorBuffer 0%nat in
  let nxt2 := nth 2 errorBuffer 0%nat in
  let st := MonoState (st_n st) (st_p st) (st_q st) (st_r st)
              (buf_fill0 (st_bufs st) nxt2) in
  let st := foldl (mono_pixel d w s g cur nxt nxt2 j) st (seqZ 0 w) in
  (st, rotate errorBuffer nxt2).

Definition mono_size (w h : Z) : Z := Z.shiftr (JS.toInt32 (w + 7)) 3 * h.

Definition toMonoImage (imgdata : ImageData) (s : Z) (g : float)
  : JS.completion (list Z) :=
  let d := data imgdata in
  let w := width imgdata in
  let h := height imgdata in
  r ← JS.new_Uint8Array (mono_size w h);
  e0 ← JS.new_Float32Array (w + 4);
  e1 ← JS.new_Float32Array (w + 4);
  e2 ← JS.new_Float32Array (w + 4);
  let st := MonoState 0 0 0 r [e0; e1; e2] in
  JS.Normal (st_r (foldl (mono_row d w s g) (st, [0; 1; 2]%nat) (seqZ 0 h)).1).

(** ** Grayscale quantizer *)

Definition thermal : list Z :=
  [ 0; 7; 13; 19; 23; 27; 31; 35; 40; 44; 49; 52; 54; 55; 57; 59; 61; 62; 64; 66; 67; 69; 70; 70;
    71; 72; 73; 74; 75; 76; 77; 78; 79; 80; 81; 82; 83; 83; 84; 85; 86; 86; 87; 88; 88; 89; 90; 90;
    91; 91; 92; 93; 93; 94; 94; 95; 96; 96; 97; 98; 98; 99; 99; 100; 101; 101; 102; 102; 103; 103;
    104; 104; 105; 105; 106; 106; 107; 107; 108; 108; 109; 109; 110; 110; 111; 111; 112; 112; 112;
    113; 113; 114; 114; 115; 115; 116; 116; 117; 117; 118; 118; 119; 119; 120; 120; 120; 121; 121;
    122; 122; 123; 123; 123; 124; 124; 125; 125; 125; 126; 126; 127; 127; 127; 128; 128; 129; 129;
    130; 130; 130; 131; 131; 132; 132; 132; 133; 133; 134; 134; 135; 135; 135; 136; 136; 137; 137;
    137; 138; 138; 139; 139; 139; 140; 140; 141; 141; 141; 142; 142; 143; 143; 143; 144; 144; 145;
    145; 146; 146; 146; 147; 147; 148; 148; 148; 149; 149; 150; 150; 150; 151; 151; 152; 152; 152;
    153; 153; 154; 154; 155; 155; 155; 156; 156; 157; 157; 158; 158; 159; 159; 160; 160; 161; 161;
    161; 162; 162; 163; 163; 164; 164; 165; 165; 166; 166; 166; 167; 167; 168; 168; 169; 169; 170;
    170; 171; 171; 172; 173; 173; 174; 175; 175; 176; 177; 178; 178; 179; 180; 180; 181; 182; 182;
    183; 184; 184; 185; 186; 186; 187; 189; 191; 193; 195; 198; 200; 202; 255 ].

Definition m4 : list (list Z) :=
  [ [0; 9; 2; 11]; [13; 4; 15; 6]; [3; 12; 1; 10]; [16; 7; 14; 5] ].

(** [thermal[k]]: [None] stands for [undefined]. *)
Definition thermal_at (k : Z) : option Z :=
  if k <? 0 then None else thermal !! Z.to_nat k.

(** Index of the table lookup: [(Math.pow(lum, 1 / g) * 255) | 0]. *)
Definition thermal_index (d : list Z) (p : Z) (g : float) : Z :=
  JS.ToInt32 (brightness d p g).

(** The 4-bit level [v1] from the table value [v] and the dither-matrix
    entry [m].  On [undefined] the quotient is NaN, which [| 0] turns into 0,
    and the comparison with NaN is false. *)
Definition quantize (v : option Z) (m : Z) : Z :=
  match v with
  | Some v =>
      let v1 := JS.ToInt32 (JS.num v / 17) in
      if m <? Z.rem v 17 then v1 + 1 else v1
  | None => 0
  end.

Definition gray_level (d : list Z) (g : float) (j i p : Z) : Z :=
  quantize (thermal_at (thermal_index d p g)) (tbl2 m4 (Z.land j 3) (Z.land i 3)).

Record gray_state := GrayState {
  gs_n : Z;
  gs_p : Z;
  gs_q : Z;
  gs_r : list Z
}.

(** Nibble accumulation and flush for column [i]. *)
Definition gray_pack (w i v1 n q : Z) (r : list Z) : Z * Z * list Z :=
  let b := Z.land i 1 in
  let n := Z.lor n (Z.shiftl v1 (Z.shiftl (1 - b) 2)) in
  if (b =? 1) || (i =? w - 1)
  then (0, q + 1, <[Z.to_nat q := JS.toUint8 n]> r)
  else (n, q, r).

Definition gray_pixel (d : list Z) (w : Z) (g : float) (j : Z)
    (st : gray_state) (i : Z) : gray_state :=
  let v1 := gray_level d g j i (gs_p st) in
  let '(n, q, r) := gray_pack w i v1 (gs_n st) (gs_q st) (gs_r st) in
  GrayState n (gs_p st + 4) q r.

Definition gray_row (d : list Z) (w : Z) (g : float) (st : gray_state) (j : Z)
  : gray_state :=
  foldl (gray_pixel d w g j) st (seqZ 0 w).

Definition gray_size (w h : Z) : Z := Z.shiftr (JS.toInt32 (w + 1)) 1 * h.

Definition toGrayImage (imgdata : ImageData) (g : float) : JS.completion (list Z) :=
  let d := data imgdata in
  let w := width imgdata in
  let h := height imgdata in
  r ← JS.new_Uint8Array (gray_size w h);
  JS.Normal (gs_r (foldl (gray_row d w g) (GrayState 0 0 0 r) (seqZ 0 h))).

End Converters.

(** ** Reading the packed output

    Definitions used to state what the converters compute: the sequence of
    per-pixel decisions a run takes, and the bytes a row of decisions packs
    into. *)

Definition ceil_div (a b : Z) : Z := a / b + (if a mod b =? 0 then 0 else 1).

Section Packing.

Context {A : Type}.

(** [per] elements share a byte; [upd b x n] merges the element [x] at
    position [b] of the byte into the accumulator [n]; [emit] is applied to
    the accumulator when it is flushed. *)
Variable per : Z.
Variable upd : Z -> A -> Z -> Z.
Variable emit : Z -> Z.

(** One iteration of the accumulate-and-flush code shared by both loops. *)
Definition pack_step (w : Z) (acc : Z * Z * list Z) (ix : Z * A) : Z * Z * list Z :=
  let '(n, q, r) := acc in
  let b := ix.1 mod per in
  let n := upd b ix.2 n in
  if (b =? per - 1) || (ix.1 =? w - 1)
  then (0, q + 1, <[Z.to_nat q := JS.toUint8 (emit n)]> r)
  else (n, q, r).

(** The bytes flushed while the elements [xs] are consumed, starting at
    position [b] of a byte with accumulator [n]; the last element of the row
    always flushes. *)
Fixpoint pack_from (b n : Z) (xs : list A) : list Z :=
  match xs with
  | [] => []
  | x :: xs' =>
      let n' := upd b x n in
      match xs' with
      | [] => [emit n']
      | _ :: _ =>
          if b =? per - 1 then emit n' :: pack_from 0 0 xs'
          else pack_from (b + 1) n' xs'
      end
  end.

Definition pack_row (xs : list A) : list Z := pack_from 0 0 xs.

(** The accumulator after the elements [xs] were merged in, starting at
    position [b]. *)
Fixpoint acc_from (b n : Z) (xs : list A) : Z :=
  match xs with
  | [] => n
  | x :: xs' => acc_from (b + 1) (upd b x n) xs'
  end.

End Packing.

(** The accumulator updates of the two converters. *)
Definition mono_upd (b : Z) (isDark : bool) (n : Z) : Z :=
  if isDark then Z.lor n (Z.shiftr 128 b) else n.

Definition gray_upd (b : Z) (v1 : Z) (n : Z) : Z :=
  Z.lor n (Z.shiftl v1 (Z.shiftl (1 - b) 2)).

(** The value of up to eight decisions, the first in bit 7. *)
Fixpoint bits_from (b : Z) (bs : list bool) : Z :=
  match bs with
  | [] => 0
  | x :: bs' => (if x then 2 ^ (7 - b) else 0) + bits_from (b + 1) bs'
  end.

Definition byte_of_bits (bs : list bool) : Z := bits_from 0 bs.

(** The value of up to two levels, the first in the high nibble. *)
Definition byte_of_levels (vs : list Z) : Z :=
  match vs with
  | [] => 0
  | [hi] => 16 * hi
  | hi :: lo :: _ => 16 * hi + lo
  end.

(** The list cut into slices of [k] elements (the last one may be shorter). *)
Fixpoint chunks {A} (fuel k : nat) (l : list A) : list (list A) :=
  match fuel with
  | O => []
  | S fuel =>
      match l with
      | [] => []
      | _ :: _ => take k l :: chunks fuel k (drop k l)
      end
  end.

Section Decisions.

Variable approx : float -> float -> float.

(** The decisions of one row, with the read position and the store they
    leave behind. *)
Fixpoint row_decisions (d : list Z) (s : Z) (g : float) (cur nxt nxt2 : nat)
    (j : Z) (cols : list Z) (p : Z) (hp : store) : list bool * Z * store :=
  match cols with
  | [] => ([], p, hp)
  | i :: cols' =>
      let '(isDark, hp') := mono_decide approx d s g cur nxt nxt2 j i p hp in
      let '(bs, p', hp'') := row_decisions d s g cur nxt nxt2 j cols' (p + 4) hp' in
      (isDark :: bs, p', hp'')
  end.

Fixpoint rows_decisions (d : list Z) (w s : Z) (g : float) (rows : list Z)
    (p : Z) (hp : store) (errorBuffer : list nat) : list (list bool) :=
  match rows with
  | [] => []
  | j :: rows' =>
      let cur := nth 0 errorBuffer 0%nat in
      let nxt := nth 1 errorBuffer 0%nat in
      let nxt2 := nth 2 errorBuffer 0%nat in
      let '(bs, p', hp') :=
        row_decisions d s g cur nxt nxt2 j (seqZ 0 w) p (buf_fill0 hp nxt2) in
      bs :: rows_decisions d w s g rows' p' hp' (rotate errorBuffer nxt2)
  end.

(** The dark/light decision of every pixel, row by row. *)
Definition mono_decisions (imgdata : ImageData) (s : Z) (g : float)
  : list (list bool) :=
  let w := width imgdata in
  let zeros := replicate (Z.to_nat (w + 4)) 0%float in
  rows_decisions (data imgdata) w s g (seqZ 0 (height imgdata)) 0
    [zeros; zeros; zeros] [0; 1; 2]%nat.

(** The levels of the columns [cols] of row [j], read from position [p]. *)
Fixpoint row_levels (d : list Z) (g : float) (j : Z) (cols : list Z) (p : Z)
  : list Z :=
  match cols with
  | [] => []
  | i :: cols' => gray_level approx d g j i p :: row_levels d g j cols' (p + 4)
  end.

(** The 4-bit level of every pixel, row by row. *)
Definition gray_levels (imgdata : ImageData) (g : float) : list (list Z) :=
  let w := width imgdata in
  (fun j => (fun i => gray_level approx (data imgdata) g j i (4 * (j * w + i)))
              <$> seqZ 0 w) <$> seqZ 0 (height imgdata).

End Decisions.

(** The bytes accumulated at the flush points, before the substitution. *)
Definition mono_raw_bytes (decisions : list (list bool)) : list Z :=
  concat ((fun bs => byte_of_bits <$> chunks (length bs) 8 bs) <$> decisions).

(** ** Concrete inputs *)

(** A stand-in for the engine's approximation of [Math.pow], used to run the
    converters on concrete inputs: exact when the exponent is 1 (gamma 1),
    NaN elsewhere. *)
Definition approx_unit (b e : float) : float :=
  if (e =? 1)%float then b else nan.

(** An image whose pixels all equal [px]. *)
Definition uniform (px : list Z) (w h : Z) : ImageData :=
  Build_ImageData (concat (replicate (Z.to_nat (w * h)) px)) w h.

Definition white : list Z := [255; 255; 255; 255].
Definition black : list Z := [0; 0; 0; 255].

(** A valid one-row image too wide for the 32-bit shift of the size
    computation. *)
Definition wide_image : ImageData :=
  Build_ImageData (replicate (Z.to_nat ((2 ^ 31 - 7) * 1 * 4)) 255) (2 ^ 31 - 7) 1.

(** An 8-pixel row whose fourth pixel is black and whose other pixels are
    white: its unmodified packing is the byte 16. *)
Definition row16 : ImageData :=
  Build_ImageData
    (concat [white; white; white; black; white; white; white; white]) 8 1.

(** ** Uniform inputs *)

(** A store whose buffers hold only zeros. *)
Definition zero_store (hp : store) : Prop :=
  Forall (Forall (fun x => x = 0%float)) hp.

Section Flat.

Variable approx : float -> float -> float.

(** A pixel value is flat for a mode when, with no error pending, every
    position takes the same decision [dark] and leaves no quantization
    error. *)
Definition flat_pixel (px : list Z) (s : Z) (g : float) (dark : bool) : Prop :=
  let b := brightness approx px 0 g in
  let v := if s =? 0 then b else (b + 0)%float in
  (forall j i, (v <? JS.num (mono_threshold s j i))%float = dark)
  /\ (0 < s -> (v - (if dark then 0 else 255))%float = 0%float).

Definition fresh_store (w : Z) : store :=
  replicate 3 (replicate (Z.to_nat (w + 4)) 0%float).

End Flat.

(** ** Binary64 values and their bounds *)

(** The converters compute in binary64.  The range of the brightness is
    obtained by following the rounding of [SpecFloat] through each operation:
    values are compared as integers, in units of a power of two small enough
    for every number involved. *)

(** What a shift record knows about the integer [N] it was shifted out of:
    its mantissa is the quotient of [N] by [D] (the weight of its last bit),
    and it is exact only when nothing was dropped. *)
Definition shr_inv (N D : Z) (mrs : shr_record) : Prop :=
  0 <= shr_m mrs
  /\ shr_m mrs * D <= N < (shr_m mrs + 1) * D
  /\ (shr_r mrs = false -> shr_s mrs = false -> N = shr_m mrs * D).

(** The flags of a shift record are clear only when the quotient is
    exact. *)
Definition shr_tight (N D : Z) (mrs : shr_record) : Prop :=
  shr_inv N D mrs
  /\ (N = shr_m mrs * D -> shr_r mrs = false /\ shr_s mrs = false).

(** A mantissa and an exponent in canonical position: a full mantissa, or
    the least exponent. *)
Definition shaped (m e : Z) : Prop :=
  -1074 <= e /\ 0 <= m < 2 ^ 53 /\ (2 ^ 52 <= m \/ e = -1074).

(** The result of a rounding from its canonical mantissa and exponent. *)
Definition SF_of (m e : Z) : spec_float :=
  match m with
  | 0 => S754_zero false
  | Z.pos p => if e <=? 971 then S754_finite false p e else S754_infinity false
  | Z.neg _ => S754_nan
  end.

(** The value of a non-negative number, in units of [2 ^ -1074]. *)
Definition FV (x : spec_float) : Z :=
  match x with
  | S754_finite false m e => Z.pos m * 2 ^ (e + 1074)
  | _ => 0
  end.

(** Zero or a positive finite number in canonical form. *)
Definition fin (x : spec_float) : Prop :=
  match x with
  | S754_zero _ => True
  | S754_finite false m e => shaped (Z.pos m) e /\ e <= 971
  | _ => False
  end.

(** [R] is a rounding of the quotient [X / D], [X] counted in units of
    [2 ^ - K]. *)
Definition rounds (K X D : Z) (R : spec_float) : Prop :=
  exists m e, shaped m e /\ R = SF_of m e
    /\ (forall mY eY, shaped mY eY ->
          X <= D * (mY * 2 ^ (eY + K)) -> m * 2 ^ (e + K) <= mY * 2 ^ (eY + K))
    /\ (forall mY eY, shaped mY eY ->
          D * (mY * 2 ^ (eY + K)) <= X -> mY * 2 ^ (eY + K) <= m * 2 ^ (e + K)).

(** The value of a JavaScript number, in the same units. *)
Definition fv (x : float) : Z := FV (Prim2SF x).

(** Zero or positive and finite, as a test. *)
Definition nonnegb (x : float) : bool :=
  match Prim2SF x with
  | S754_zero _ | S754_finite false _ _ => true
  | _ => false
  end.

(** [x] is zero or positive and finite, with its value between [lo] and
    [hi] (in units of [2 ^ -1074]). *)
Definition between (lo hi : Z) (x : float) : Prop :=
  fin (Prim2SF x) /\ lo <= fv x <= hi.

(** [between], as a test against two numbers. *)
Definition within (lo hi x : float) : bool :=
  nonnegb x && (fv lo <=? fv x) && (fv x <=? fv hi).

(** A channel value as the data model has it: a byte. *)
Definition channel (d : list Z) (k : Z) : bool :=
  match d !! Z.to_nat k with
  | Some z => (0 <=? z) && (z <=? 255)
  | None => false
  end.

(** The pixel starting at index [p] has its four channels in [0, 255]. *)
Definition valid_pixel (d : list Z) (p : Z) : bool :=
  channel d p && channel d (p + 1) && channel d (p + 2) && channel d (p + 3).

(** The weighted channel [z * c] is at most [hi], and at most [hi'] unless
    [z] is 255. *)
Definition weighted_ok (c hi hi' : float) (z : Z) : bool :=
  within 0 hi (JS.num z * c) && ((254 <? z) || within 0 hi' (JS.num z * c)).

(** The closed inequalities that bound the compositing over white for the
    alpha value [a]. *)
Definition alpha_ok (a : Z) : bool :=
  let A := JS.num a in
  nonnegb A && nonnegb (JS.num (255 * a)) && nonnegb (JS.num (a + 255))
  && (fv 255 * fv A <=? fv (JS.num (255 * a)) * 2 ^ 1074)
  && (fv (JS.num (255 * a)) * 2 ^ 1074 <=? fv A * fv 255)
  && (fv A + fv 255 <=? fv (JS.num (a + 255)))
  && (fv A <=? fv 255)
  && (fv (JS.num (a + 255)) - fv A <=? fv 255).

(** What the halftoning needs of the engine's approximation of a power: a
    base in (0, 1] raised to a finite positive exponent gives a number in
    [0, 1] (or no number at all). *)
Definition approx_in_unit (approx : float -> float -> float) : Prop :=
  forall b e : float,
    (0 <? b)%float = true -> (b <=? 1)%float = true ->
    (0 <? e)%float = true -> (e <? infinity)%float = true ->
    is_nan (approx b e) = true
    \/ ((0 <=? approx b e)%float = true /\ (approx b e <=? 1)%float = true).

(** Zero, positive and finite, or positive infinity. *)
Definition nonneg_or_inf (x : float) : Prop :=
  fin (Prim2SF x) \/ Prim2SF x = S754_infinity false.

(** NaN, or a number between zero and [hi]. *)
Definition nan_or_between (hi : float) (x : float) : Prop :=
  Prim2SF x = S754_nan \/ between (fv 0) (fv hi) x.

(** A 1 x 5 image with a dark gray pixel in the first row and a light gray
    pixel in the fifth. *)
Definition gradient : ImageData :=
  Build_ImageData
    [40; 40; 40; 255;  0; 0; 0; 255;  0; 0; 0; 255;  0; 0; 0; 255;
     200; 200; 200; 255] 1 5.

(** * Markup, text helpers and the printer client *)

(** ** Strings *)

(** A JavaScript string is a sequence of UTF-16 code units. *)
Definition jsstring := list N.

(** A string literal of the source (ASCII only). *)
Definition lit (s : String.string) : jsstring :=
  Ascii.N_of_ascii <$> String.list_ascii_of_string s.

(** [s.replace(re, fn)] for a global regular expression [re] that is a single
    character class: every code unit of the class is replaced by what [fn]
    returns for it.  [re.test(s)] is [existsb cls s]. *)
Definition replace_class (cls : N -> bool) (fn : N -> jsstring) (s : jsstring)
  : jsstring :=
  s ≫= fun c => if cls c then fn c else [c].

(** The character class of [escapeMarkup]: less-than, greater-than,
    ampersand, apostrophe, double quote, tab, line feed, carriage return. *)
Definition markup (c : N) : bool :=
  ((c =? 60) || (c =? 62) || (c =? 38) || (c =? 39) || (c =? 34)
   || (c =? 9) || (c =? 10) || (c =? 13))%N.

(** The [switch] of [escapeMarkup]'s replacement function. *)
Definition markup_entity (c : N) : jsstring :=
  if (c =? 60)%N then lit "&lt;"
  else if (c =? 62)%N then lit "&gt;"
  else if (c =? 38)%N then lit "&amp;"
  else if (c =? 39)%N then lit "&apos;"
  else if (c =? 34)%N then lit "&quot;"
  else if (c =? 9)%N then lit "&#9;"
  else if (c =? 10)%N then lit "&#10;"
  else if (c =? 13)%N then lit "&#13;"
  else [c].

Definition escapeMarkup (s : jsstring) : jsstring :=
  if existsb markup s then replace_class markup markup_entity s else s.

(** [n.toString(16)] for a non-negative integer [n]: its hexadecimal digits,
    lower case, without leading zeros. *)
Definition hex_digit (d : N) : N := (if d <? 10 then 48 + d else 87 + d)%N.

Fixpoint hex_digits (fuel : nat) (n : N) (acc : jsstring) : jsstring :=
  match fuel with
  | O => acc
  | S fuel' =>
      let acc' := hex_digit (n mod 16) :: acc in
      if (n / 16 =? 0)%N then acc' else hex_digits fuel' (n / 16)%N acc'
  end.

Definition toString16 (n : N) : jsstring :=
  hex_digits (S (N.to_nat (N.log2 n))) n [].

(** [s.slice(-k)]: the last [k] code units, or all of [s] when it is
    shorter. *)
Definition slice_last (k : nat) (s : jsstring) : jsstring :=
  drop (length s - k) s.

(** [('0' + c.toString(16)).slice(-2)] *)
Definition hex_pair (c : N) : jsstring :=
  slice_last 2 (lit "0" ++ toString16 c).

(** The character class of [escapeControl]: the backslash, the code units
    0x00 to 0x1f and the code units 0x7f to 0xff. *)
Definition control (c : N) : bool :=
  ((c =? 92) || (c <=? 31) || ((127 <=? c) && (c <=? 255)))%N.

Definition control_escape (c : N) : jsstring :=
  if (c =? 92)%N then [92%N; 92%N] else [92%N; 120%N] ++ hex_pair c.

Definition escapeControl (s : jsstring) : jsstring :=
  if existsb control s then replace_class control control_escape s else s.

(** [r[i]] is the pair of character [i]; the pairs are joined. *)
Definition toHexBinary (s : jsstring) : jsstring :=
  concat (hex_pair <$> s).

(** [s.length] as a number. *)
Definition str_length (s : jsstring) : float := JS.num (Z.of_nat (length s)).

(** [s.repeat(count)]: the count is truncated (NaN counts as 0); a negative
    or infinite count raises a [RangeError].  (The engine's limit on the
    length of a string is not modelled.) *)
Definition String_repeat (s : jsstring) (count : float) : JS.completion jsstring :=
  match Prim2SF count with
  | S754_nan => JS.Normal []
  | S754_infinity _ => JS.Throw JS.RangeError
  | _ =>
      match JS.trunc count with
      | Some n =>
          if n <? 0 then JS.Throw JS.RangeError
          else JS.Normal (concat (replicate (Z.to_nat n) s))
      | None => JS.Normal []
      end
  end.

(** [formatColumnText(left, right, width, char)] *)
Definition formatColumnText (left right : jsstring) (width : float)
    (char : jsstring) : JS.completion jsstring :=
  let space := (width - str_length left - str_length right)%float in
  if (0 <? space)%float then
    pad ← String_repeat char space;
    JS.Normal (left ++ pad ++ right)
  else JS.Normal (left ++ lit " " ++ right).

(** Neither positive nor a number above zero: NaN, a zero, or negative. *)
Definition not_positive (x : spec_float) : Prop :=
  match x with
  | S754_nan | S754_zero _ | S754_finite true _ _ | S754_infinity true => True
  | _ => False
  end.

(** ** Values and exceptions of the markup builder *)

(** The values that reach the builder: the primitive values of
    JavaScript. *)
Inductive jsvalue :=
| VUndefined
| VNull
| VBool (b : bool)
| VNum (x : float)
| VStr (s : jsstring).

Inductive exception :=
| ExnRangeError
| ExnInvalidCharacter
| ExnError (message : jsstring).

Inductive result (A : Type) :=
| Return (a : A)
| Raise (e : exception).
Arguments Return {A} a.
Arguments Raise {A} e.

(** [s === t] on strings. *)
Fixpoint streq (s t : jsstring) : bool :=
  match s, t with
  | [], [] => true
  | a :: s', b :: t' => (a =? b)%N && streq s' t'
  | _, _ => false
  end.

(** [!!v] *)
Definition ToBoolean (v : jsvalue) : bool :=
  match v with
  | VUndefined | VNull => false
  | VBool b => b
  | VNum x => negb (is_zero x || is_nan x)
  | VStr s => negb (streq s [])
  end.

(** The double quote. *)
Definition dquote : jsstring := [34%N].

(** The text [ name="v"] of an attribute. *)
Definition attr (name v : jsstring) : jsstring :=
  lit " " ++ name ++ lit "=" ++ dquote ++ v ++ dquote.

Definition getBoolAttr (name : jsstring) (v : jsvalue) : jsstring :=
  attr name (if ToBoolean v then lit "true" else lit "false").





Section Markup.

(** [Number::toString] and [StringToNumber] of the language are not
    modelled: the builder is embedded for any two such functions. *)
Variable Number_toString : float -> jsstring.
Variable StringToNumber : jsstring -> float.

(** [Number(v)] *)
Definition ToNumber (v : jsvalue) : float :=
  match v with
  | VUndefined => nan
  | VNull => 0%float
  | VBool b => if b then 1%float else 0%float
  | VNum x => x
  | VStr s => StringToNumber s
  end.

(** The conversion of a template literal. *)
Definition ToString (v : jsvalue) : jsstring :=
  match v with
  | VUndefined => lit "undefined"
  | VNull => lit "null"
  | VBool b => if b then lit "true" else lit "false"
  | VNum x => Number_toString x
  | VStr s => s
  end.

Definition invalid_parameter (name : jsstring) : exception :=
  ExnError (lit "Parameter " ++ dquote ++ name ++ dquote ++ lit " ist invalid").

Definition getIntAttr (name : jsstring) (v min max : float) : result jsstring :=
  if is_nan v || (v <? min)%float || (max <? v)%float
  then Raise (invalid_parameter name)
  else Return (attr name (Number_toString v)).

Definition getUByteAttr (name : jsstring) (v : float) : result jsstring :=
  getIntAttr name v 0 255.

Definition getUShortAttr (name : jsstring) (v : float) : result jsstring :=
  getIntAttr name v 0 65535.

Definition getShortAttr (name : jsstring) (v : float) : result jsstring :=
  getIntAttr name v (-32768) 32767.

End Markup.

(** ** The markup builder (class [EpsonPrint]) *)

Module EpsonPrint.

(** The object: [charsPerLine] is [undefined] ([None]) until
    [setCharsPerLine] is called. *)
Record t := Build {
  message : jsstring;
  halftone : float;
  brightness : float;
  force : bool;
  charsPerLine : option float
}.

(** [new EpsonPrint()] *)
Definition new : t := Build [] 0 1 false None.

Definition with_message (p : t) (m : jsstring) : t :=
  Build m (halftone p) (brightness p) (force p) (charsPerLine p).

Definition key_in (key : jsstring) (names : list jsstring) : bool :=
  existsb (streq key) names.

Section Methods.

Variable Number_toString : float -> jsstring.
Variable StringToNumber : jsstring -> float.

(** The [switch] of [addRow]: the text of one attribute, or the exception
    of its validation. *)
Definition attribute (field key : jsstring) (val : jsvalue) : result jsstring :=
  if key_in key [lit "rotate"; lit "smooth"; lit "dw"; lit "dh";
                 lit "reverse"; lit "ul"; lit "em"] then
    Return (getBoolAttr key val)
  else if key_in key [lit "width"; lit "height"] then
    if streq field (lit "text")
    then getIntAttr Number_toString key (ToNumber StringToNumber val) 1 8
    else getUByteAttr Number_toString key (ToNumber StringToNumber val)
  else if key_in key [lit "x"; lit "y"] then
    getUShortAttr Number_toString key (ToNumber StringToNumber val)
  else if key_in key [lit "line"; lit "unit"] then
    getUByteAttr Number_toString key (ToNumber StringToNumber val)
  else Return (attr key (ToString Number_toString val)).

(** The loop of [addRow] over the entries of [fields], in their order: the
    attribute string, and the keys reported on the console with the
    exception caught. *)
Fixpoint attributes (field : jsstring) (fields : list (jsstring * jsvalue))
    (attrString : jsstring) (console : list (jsstring * exception))
  : jsstring * list (jsstring * exception) :=
  match fields with
  | [] => (attrString, console)
  | (key, val) :: rest =>
      match val with
      | VUndefined | VNull => attributes field rest attrString console
      | _ =>
          match attribute field key val with
          | Return a => attributes field rest (attrString ++ a) console
          | Raise e => attributes field rest attrString (console ++ [(key, e)])
          end
      end
  end.

(** [addRow(field, value, fields)]: the object after the call and what was
    written to the console. *)
Definition addRow (p : t) (field : jsstring) (value : option jsstring)
    (fields : option (list (jsstring * jsvalue)))
  : t * list (jsstring * exception) :=
  let '(attrString, console) :=
    match fields with
    | Some fs => attributes field fs [] []
    | None => ([], [])
    end in
  let m := message p ++ lit "<" ++ field ++ attrString in
  let m' :=
    match value with
    | None => m ++ lit "/>"
    | Some v => m ++ lit ">" ++ v ++ lit "</" ++ field ++ lit ">"
    end in
  (with_message p m', console).

Definition setCharsPerLine (p : t) (count : float) : t :=
  Build (message p) (halftone p) (brightness p) (force p) (Some count).

Definition addText (p : t) (data : jsstring) : t * list (jsstring * exception) :=
  addRow p (lit "text") (Some (escapeMarkup data)) None.

(** [addColumnText(left, right, char)]; [char] is [None] for a missing
    argument. *)
Definition addColumnText (p : t) (left right : jsstring) (char : option jsstring)
  : result (t * list (jsstring * exception)) :=
  let width := match charsPerLine p with Some x => x | None => nan end in
  match formatColumnText left right width (default (lit " ") char) with
  | JS.Normal text => Return (addText p (text ++ [10%N]))
  | JS.Throw _ => Raise ExnRangeError
  end.

Definition addTextSize (p : t) (width height : jsvalue)
  : t * list (jsstring * exception) :=
  addRow p (lit "text") None
    (Some [(lit "width", width); (lit "height", height)]).

Definition addBarcode (p : t) (data : jsstring) (type hri font width height : jsvalue)
  : t * list (jsstring * exception) :=
  addRow p (lit "barcode") (Some (escapeControl (escapeMarkup data)))
    (Some [(lit "type", type); (lit "hri", hri); (lit "font", font);
           (lit "width", width); (lit "height", height)]).


Definition addCommand (p : t) (data : jsstring) : t :=
  with_message p
    (message p ++ lit "<command>" ++ toHexBinary data ++ lit "</command>").

Definition toString (p : t) : jsstring :=
  let s := if force p then lit " force=" ++ dquote ++ lit "true" ++ dquote else [] in
  lit "<epos-print xmlns=" ++ dquote
  ++ lit "http://www.epson-pos.com/schemas/2011/03/epos-print" ++ dquote
  ++ s ++ lit ">" ++ message p ++ lit "</epos-print>".

End Methods.

End EpsonPrint.

(** ** The printer client (class [EpsonPrinter]) *)

Module EpsonPrinter.

(** The attributes of a [response] element that the client reads. *)
Record element := Element {
  success : option jsstring;
  code : option jsstring;
  status : option jsstring
}.

(** What one call of [request] gives: an exception (of [fetch], of the HTTP
    status check or of the parser), or the elements that
    [getElementsByTagName('response')] finds in the parsed reply. *)
Definition reply := result (list element).

(** [a || b] on an attribute value: an absent or empty string is falsy. *)
Definition or_else (a : option jsstring) (b : jsstring) : jsstring :=
  match a with
  | Some s => if streq s [] then b else s
  | None => b
  end.

(** The body of the [try] block of [send]. *)
Definition attempt (r : reply) : result element :=
  match r with
  | Raise e => Raise e
  | Return [] => Raise (ExnError (lit "INVALID_RESPONSE"))
  | Return (response :: _) =>
      let ok :=
        match success response with
        | Some s => streq s (lit "true")
        | None => false
        end in
      let c := or_else (code response) (lit "UNKNOWN_ERROR") in
      if ok then Return response else Raise (ExnError c)
  end.

Section Send.

Variable approx : float -> float -> float.
Variable maxRetries : float.

(** [send(print, retryCount)], given the replies of the successive
    requests: the result, and the delays waited.  [None] when the list of
    replies is exhausted before the call ends. *)
Fixpoint send (replies : list reply) (retryCount : Z)
  : option (result element * list float) :=
  match replies with
  | [] => None
  | r :: rest =>
      match attempt r with
      | Return response => Some (Return response, [])
      | Raise error =>
          if (JS.num retryCount <? maxRetries)%float then
            let delay := (JS.Math_pow approx 2 (JS.num retryCount) * 1000)%float in
            match send rest (retryCount + 1) with
            | Some (res, delays) => Some (res, delay :: delays)
            | None => None
            end
          else Some (Raise error, [])
      end
  end.

End Send.

Record statuses := Statuses {
  isResponsive : bool;
  drawerIsOpen : bool;
  coverIsOpen : bool;
  isOffline : bool;
  paperNearEmpty : bool;
  paperEmpty : bool;
  rawStatus : option jsstring
}.

(** The truth value of [status & mask]. *)
Definition masked (status : float) (mask : Z) : bool :=
  negb (Z.land (JS.ToInt32 status) (JS.toInt32 mask) =? 0).

Section Status.

(** [parseInt(s, 10)] of the language is not modelled. *)
Variable parseInt10 : jsstring -> float.

(** [getStatus()], given the reply of its request. *)
Definition getStatus (r : reply) : statuses :=
  match r with
  | Raise _ => Statuses false false false true false false None
  | Return xml =>
      let statusValue :=
        match xml with
        | response :: _ => status response
        | [] => None
        end in
      let st := parseInt10 (or_else statusValue (lit "0")) in
      Statuses
        (if masked st 1 then false else true)
        (if masked st 4 then false else true)
        (if masked st 32 then true else false)
        (if masked st 8 then true else false)
        (if masked st 131072 then true else false)
        (if masked st 524288 then true else false)
        statusValue
  end.

(** [isReady()]: the flag and the reason. *)
Definition isReady (r : reply) : bool * option jsstring :=
  let st := getStatus r in
  if negb (isResponsive st) then (false, Some (lit "CONNECTION_FAILED"))
  else if paperEmpty st then (false, Some (lit "PAPER_EMPTY"))
  else if coverIsOpen st then (false, Some (lit "COVER_OPEN"))
  else if isOffline st then (false, Some (lit "OFFLINE"))
  else (true, None).

End Status.

End EpsonPrinter.

(** The delays before the retries numbered [k], [k + 1], ...:
    [Math.pow(2, retryCount) * 1000]. *)
Definition retry_delays (approx : float -> float -> float) (k : Z) (m : nat)
  : list float :=
  (fun i => (JS.Math_pow approx 2 (JS.num i) * 1000)%float) <$> seqZ k (Z.of_nat m).

(** A reply that makes the attempt fail. *)
Definition failing (r : EpsonPrinter.reply) : Prop :=
  exists e, EpsonPrinter.attempt r = Raise e.

(** * Properties *)


(** Decision procedures by enumeration. *)
Lemma forallb_seqZ (P : Z -> bool) (lo len : Z) :
  forallb P (seqZ lo len) = true -> forall x, lo <= x < lo + len -> P x = true.
Proof.
  intros H x Hx. rewrite forallb_forall in H. apply H.
  apply list_elem_of_In, elem_of_seqZ. done.
Qed.

Ltac cases8 b :=
  let H := fresh in
  assert (H : b = 0 \/ b = 1 \/ b = 2 \/ b = 3 \/ b = 4 \/ b = 5 \/ b = 6 \/ b = 7) by lia;
  destruct H as [->|[->|[->|[->|[->|[->|[->| ->]]]]]]].

Ltac pow2_norm :=
  repeat match goal with
  | |- context [2 ^ ?e] =>
      let v := eval vm_compute in (2 ^ e) in change (2 ^ e) with v
  | H : context [2 ^ ?e] |- _ =>
      let v := eval vm_compute in (2 ^ e) in change (2 ^ e) with v in H
  end.



(** ** The accumulate-and-flush loop *)

Section PackingFacts.

Context {A : Type}.
Variable per : Z.
Variable upd : Z -> A -> Z -> Z.
Variable emit : Z -> Z.
Hypothesis per_pos : 0 < per.

Lemma pack_from_cons (b n : Z) (x y : A) (xs : list A) :
  pack_from per upd emit b n (x :: y :: xs)
  = if b =? per - 1
    then emit (upd b x n) :: pack_from per upd emit 0 0 (y :: xs)
    else pack_from per upd emit (b + 1) (upd b x n) (y :: xs).
Proof. reflexivity. Qed.

Lemma pack_from_length (xs : list A) : forall b n,
  0 <= b < per -> xs <> [] ->
  Z.of_nat (length (pack_from per upd emit b n xs)) = (b + Z.of_nat (length xs) + per - 1) / per.
Proof.
  induction xs as [|x xs IH]; intros b n Hb Hne; [done|].
  destruct xs as [|y xs].
  - simpl. apply Z.div_unique with (r := b); lia.
  - rewrite pack_from_cons. destruct (Z.eqb_spec b (per - 1)) as [->|Hb'].
    + cbn [length]. rewrite Nat2Z.inj_succ, IH by (done || lia).
      cbn [length].
      replace (per - 1 + Z.of_nat (S (S (length xs))) + per - 1)
        with ((0 + Z.of_nat (S (length xs)) + per - 1) + 1 * per) by lia.
      rewrite Z.div_add by lia. lia.
    + rewrite IH by (done || lia). f_equal. cbn [length]. lia.
Qed.

(** Running the loop over the remaining columns [i, w) of a row writes
    exactly the bytes of [pack_from] at the write position, and leaves the
    accumulator empty. *)
Lemma pack_fold (w : Z) (xs : list A) : forall i n q pre post,
  0 <= i -> i + Z.of_nat (length xs) = w -> q = Z.of_nat (length pre) ->
  (length (pack_from per upd emit (i mod per) n xs) <= length post)%nat ->
  foldl (pack_step per upd emit w) (n, q, pre ++ post)
        (zip (seqZ i (Z.of_nat (length xs))) xs)
  = (match xs with [] => n | _ :: _ => 0 end,
     q + Z.of_nat (length (pack_from per upd emit (i mod per) n xs)),
     pre ++ (JS.toUint8 <$> pack_from per upd emit (i mod per) n xs)
         ++ drop (length (pack_from per upd emit (i mod per) n xs)) post).
Proof.
  induction xs as [|x xs IH]; intros i n q pre post Hi Hw Hq Hlen.
  - simpl. rewrite drop_0. f_equal. f_equal; lia.
  - rewrite seqZ_cons by (cbn [length]; lia).
    replace (Z.pred (Z.of_nat (length (x :: xs)))) with (Z.of_nat (length xs))
      by (cbn [length]; lia).
    cbn [zip zip_with foldl pack_step fst snd].
    assert (Hb : 0 <= i mod per < per) by (apply Z.mod_pos_bound; lia).
    destruct xs as [|y xs].
    + replace (i =? w - 1) with true
        by (symmetry; apply Z.eqb_eq; cbn [length] in Hw; lia).
      rewrite orb_true_r. cbn [pack_from length] in *.
      destruct post as [|z post]; [simpl in Hlen; lia|].
      rewrite seqZ_nil by lia. cbn [zip zip_with foldl fmap list_fmap drop app].
      subst q. rewrite Nat2Z.id.
      rewrite insert_app_r_alt by lia. rewrite Nat.sub_diag. done.
    + replace (i =? w - 1) with false
        by (symmetry; apply Z.eqb_neq; cbn [length] in Hw; lia).
      rewrite orb_false_r.
      rewrite pack_from_cons in *.
      destruct (Z.eqb_spec (i mod per) (per - 1)) as [Hlast|Hnot].
      * assert (Hnext : Z.succ i mod per = 0).
        { unfold Z.succ. rewrite <- Zplus_mod_idemp_l, Hlast.
          replace (per - 1 + 1) with per by lia. apply Z_mod_same_full. }
        destruct post as [|z post]; [cbn [length] in Hlen; lia|].
        subst q. rewrite Nat2Z.id.
        rewrite insert_app_r_alt by lia. rewrite Nat.sub_diag. cbn [insert list_insert].
        set (byte := JS.toUint8 (emit (upd (i mod per) x n))).
        replace (pre ++ byte :: post) with ((pre ++ [byte]) ++ post)
          by (rewrite <- app_assoc; done).
        rewrite (IH (Z.succ i) 0 _ (pre ++ [byte]) post);
          rewrite ?Hnext; cbn [length] in *; try lia.
        -- rewrite <- app_assoc. cbn [fmap list_fmap app drop length].
           repeat (f_equal; try lia).
        -- rewrite length_app. cbn [length]. lia.
      * assert (Hnext : Z.succ i mod per = i mod per + 1).
        { unfold Z.succ. rewrite <- Zplus_mod_idemp_l.
          apply Z.mod_small. lia. }
        rewrite (IH (Z.succ i) _ q pre post); rewrite ?Hnext; cbn [length] in *; try lia.
        done.
Qed.

Lemma pack_from_short (xs : list A) : forall b n,
  0 <= b -> xs <> [] -> b + Z.of_nat (length xs) <= per ->
  pack_from per upd emit b n xs = [emit (acc_from upd b n xs)].
Proof.
  induction xs as [|x xs IH]; intros b n Hb Hne Hlen; [done|].
  destruct xs as [|y xs]; [done|].
  rewrite pack_from_cons.
  destruct (Z.eqb_spec b (per - 1)); [cbn [length] in Hlen; lia|].
  rewrite IH; [done|lia|done|cbn [length] in *; lia].
Qed.

Lemma pack_from_long (xs : list A) : forall b n,
  0 <= b < per -> per < b + Z.of_nat (length xs) ->
  pack_from per upd emit b n xs
  = emit (acc_from upd b n (take (Z.to_nat (per - b)) xs))
      :: pack_from per upd emit 0 0 (drop (Z.to_nat (per - b)) xs).
Proof.
  induction xs as [|x xs IH]; intros b n Hb Hlen; [cbn [length] in Hlen; lia|].
  destruct xs as [|y xs]; [cbn [length] in Hlen; lia|].
  rewrite pack_from_cons.
  destruct (Z.eqb_spec b (per - 1)) as [->|Hne].
  - replace (Z.to_nat (per - (per - 1))) with 1%nat by lia. done.
  - rewrite IH by (cbn [length] in *; lia).
    replace (Z.to_nat (per - b)) with (S (Z.to_nat (per - (b + 1)))) by lia.
    done.
Qed.

Lemma pack_row_chunks (fuel : nat) : forall xs : list A,
  (length xs <= fuel)%nat ->
  pack_row per upd emit xs
  = (fun c => emit (acc_from upd 0 0 c)) <$> chunks fuel (Z.to_nat per) xs.
Proof.
  unfold pack_row.
  induction fuel as [|fuel IH]; intros xs Hlen.
  - destruct xs; [done|cbn [length] in Hlen; lia].
  - destruct xs as [|x xs]; [done|].
    cbn [chunks fmap list_fmap].
    destruct (Z_le_gt_dec (Z.of_nat (length (x :: xs))) per) as [Hs|Hl].
    + rewrite pack_from_short by (done || lia).
      rewrite take_ge, drop_ge by lia.
      destruct fuel; done.
    + rewrite pack_from_long by lia.
      replace (per - 0) with per by lia. fold (@fmap list _ _ _ (fun c => emit (acc_from upd 0 0 c))).
      f_equal. apply IH. rewrite length_drop. cbn [length] in *. lia.
Qed.
End PackingFacts.


(** ** Bytes of the monochrome packing *)
Lemma mono_upd_add (b : Z) (x : bool) (n : Z) :
  0 <= b <= 7 -> 0 <= n < 256 -> n mod 2 ^ (8 - b) = 0 ->
  mono_upd b x n = n + (if x then 2 ^ (7 - b) else 0).
Proof.
  intros Hb Hn Hmod. unfold mono_upd. destruct x; [|lia].
  assert (Hall : forallb (fun b => forallb (fun n =>
            implb (n mod 2 ^ (8 - b) =? 0) (Z.lor n (Z.shiftr 128 b) =? n + 2 ^ (7 - b)))
            (seqZ 0 256)) (seqZ 0 8) = true) by (vm_compute; reflexivity).
  pose proof (forallb_seqZ _ _ _ (forallb_seqZ _ _ _ Hall b ltac:(lia)) n ltac:(lia)) as H.
  cbv beta in H. apply Z.eqb_eq in Hmod. rewrite Hmod in H. apply Z.eqb_eq in H. done.
Qed.

Lemma acc_from_bits (bs : list bool) : forall b n,
  0 <= b -> b + Z.of_nat (length bs) <= 8 -> 0 <= n < 256 -> n mod 2 ^ (8 - b) = 0 ->
  acc_from mono_upd b n bs = n + bits_from b bs /\ 0 <= n + bits_from b bs < 256.
Proof.
  induction bs as [|x bs IH]; intros b n Hb Hlen Hn Hmod.
  - cbn. lia.
  - cbn [acc_from bits_from]. cbn [length] in Hlen.
    rewrite mono_upd_add by (done || lia).
    destruct (IH (b + 1) (n + (if x then 2 ^ (7 - b) else 0))) as [-> Hr]; try lia.
    + cases8 b; try lia; destruct x; pow2_norm; Z.div_mod_to_equations; lia.
    + replace (8 - (b + 1)) with (7 - b) by lia.
      cases8 b; try lia; destruct x; pow2_norm; Z.div_mod_to_equations; lia.
Qed.

Lemma byte_of_bits_acc (bs : list bool) :
  (length bs <= 8)%nat -> acc_from mono_upd 0 0 bs = byte_of_bits bs.
Proof.
  intros H. destruct (acc_from_bits bs 0 0) as [-> _]; try lia; done.
Qed.

Lemma byte_of_bits_range (bs : list bool) :
  (length bs <= 8)%nat -> 0 <= byte_of_bits bs < 256.
Proof.
  intros H. destruct (acc_from_bits bs 0 0) as [_ ?]; try lia; done.
Qed.

(** ** The loops as decisions followed by packing *)


Lemma land_7 (i : Z) : Z.land i 7 = i mod 8.
Proof. change 7 with (Z.ones 3). rewrite Z.land_ones by lia. done. Qed.

Lemma land_3 (i : Z) : Z.land i 3 = i mod 4.
Proof. change 3 with (Z.ones 2). rewrite Z.land_ones by lia. done. Qed.

Lemma land_1 (i : Z) : Z.land i 1 = i mod 2.
Proof. change 1 with (Z.ones 1). rewrite Z.land_ones by lia. done. Qed.

Lemma mono_pack_step (w i : Z) (x : bool) (n q : Z) (r : list Z) :
  mono_pack w i x n q r = pack_step 8 mono_upd emit_byte w (n, q, r) (i, x).
Proof. unfold mono_pack, pack_step, mono_upd. cbn. rewrite land_7. done. Qed.

Lemma gray_pack_step (w i v1 n q : Z) (r : list Z) :
  gray_pack w i v1 n q r = pack_step 2 gray_upd id w (n, q, r) (i, v1).
Proof. unfold gray_pack, pack_step, gray_upd. cbn. rewrite land_1. done. Qed.

Section MonoFacts.

Variable approx : float -> float -> float.

Lemma row_decisions_length d s g cur nxt nxt2 j cols : forall p hp,
  length (row_decisions approx d s g cur nxt nxt2 j cols p hp).1.1 = length cols.
Proof.
  induction cols as [|i cols IH]; intros p hp; [done|].
  cbn [row_decisions].
  destruct (mono_decide approx d s g cur nxt nxt2 j i p hp) as [x hp'].
  specialize (IH (p + 4) hp').
  destruct (row_decisions approx d s g cur nxt nxt2 j cols (p + 4) hp') as [[bs p'] hp''].
  cbn in *. lia.
Qed.

(** The inner loop factors into the decisions it takes and the packing of
    these decisions. *)
Lemma mono_pixel_fold d w s g cur nxt nxt2 j cols : forall st,
  foldl (mono_pixel approx d w s g cur nxt nxt2 j) st cols
  = let '(bs, p', hp') :=
      row_decisions approx d s g cur nxt nxt2 j cols (st_p st) (st_bufs st) in
    let '(n, q, r) :=
      foldl (pack_step 8 mono_upd emit_byte w) (st_n st, st_q st, st_r st) (zip cols bs) in
    MonoState n p' q r hp'.
Proof.
  induction cols as [|i cols IH]; intros st.
  - destruct st; done.
  - cbn [foldl row_decisions]. rewrite IH.
    destruct (mono_decide approx d s g cur nxt nxt2 j i (st_p st) (st_bufs st))
      as [x hp'] eqn:Hdec.
    destruct (pack_step 8 mono_upd emit_byte w (st_n st, st_q st, st_r st) (i, x))
      as [[n q] r] eqn:Hstep.
    assert (Hpix : mono_pixel approx d w s g cur nxt nxt2 j st i
                   = MonoState n (st_p st + 4) q r hp').
    { unfold mono_pixel. rewrite Hdec, mono_pack_step, Hstep. done. }
    rewrite Hpix. cbn [st_p st_bufs st_n st_q st_r].
    destruct (row_decisions approx d s g cur nxt nxt2 j cols (st_p st + 4) hp')
      as [[bs p'] hp''].
    cbn [zip zip_with foldl]. rewrite Hstep. done.
Qed.

End MonoFacts.


Lemma chunks_Forall {A} (fuel k : nat) : forall l : list A,
  (0 < k)%nat -> Forall (fun c => c <> [] /\ (length c <= k)%nat) (chunks fuel k l).
Proof.
  induction fuel as [|fuel IH]; intros l Hk; [constructor|].
  destruct l as [|x l]; [constructor|].
  cbn [chunks]. constructor; [|by apply IH].
  split.
  - destruct k; [lia|done].
  - rewrite length_take. lia.
Qed.

Lemma chunks_length {A} (fuel k : nat) : forall l : list A,
  (0 < k)%nat -> (length l <= fuel)%nat ->
  Z.of_nat (length (chunks fuel k l)) = (Z.of_nat (length l) + Z.of_nat k - 1) / Z.of_nat k.
Proof.
  induction fuel as [|fuel IH]; intros l Hk Hlen.
  - destruct l; [|cbn [length] in Hlen; lia]. cbn.
    symmetry. apply Z.div_small. lia.
  - destruct l as [|x l].
    + cbn. symmetry. apply Z.div_small. lia.
    + cbn [chunks]. change (length (take k (x :: l) :: chunks fuel k (drop k (x :: l))))
        with (S (length (chunks fuel k (drop k (x :: l))))).
      assert (Hl : (0 < length (x :: l) <= S fuel)%nat) by (cbn [length] in *; lia).
      revert Hl. generalize (x :: l). intros l' Hl.
      rewrite Nat2Z.inj_succ, IH by (rewrite ?length_drop; lia).
      rewrite length_drop.
      destruct (Nat.le_gt_cases k (length l')) as [Hge|Hlt].
      * replace (Z.of_nat (length l') + Z.of_nat k - 1)
          with ((Z.of_nat (length l' - k) + Z.of_nat k - 1) + 1 * Z.of_nat k) by lia.
        rewrite Z.div_add by lia. lia.
      * replace (length l' - k)%nat with 0%nat by lia.
        rewrite (Z.div_small (Z.of_nat 0 + _ - 1)) by lia.
        apply Z.div_unique with (r := Z.of_nat (length l') - 1); lia.
Qed.

Lemma chunks_lookup {A} (fuel k : nat) : forall (l : list A) (i : nat),
  (0 < k)%nat -> (length l <= fuel)%nat -> (i * k < length l)%nat ->
  chunks fuel k l !! i = Some (take k (drop (i * k) l)).
Proof.
  induction fuel as [|fuel IH]; intros l i Hk Hlen Hi; [lia|].
  destruct l as [|x l]; [cbn [length] in Hi; lia|].
  cbn [chunks]. destruct i as [|i]; [done|].
  cbn [lookup list_lookup]. change (chunks fuel k (drop k (x :: l)) !! i = Some (take k (drop (S i * k) (x :: l)))).
  rewrite IH; rewrite ?length_drop; cbn [length] in *; try lia.
  rewrite drop_drop. do 2 f_equal; lia.
Qed.

(** The bytes of a row of decisions: every slice of eight decisions gives
    one byte, the first decision in bit 7, and the substitution is applied to
    the byte. *)
Lemma mono_pack_row (bs : list bool) :
  pack_row 8 mono_upd emit_byte bs
  = (fun c => emit_byte (byte_of_bits c)) <$> chunks (length bs) 8 bs.
Proof.
  rewrite (pack_row_chunks 8 mono_upd emit_byte ltac:(lia) (length bs)) by lia.
  change (Z.to_nat 8) with 8%nat.
  apply Forall_fmap_ext_1. eapply Forall_impl; [apply chunks_Forall; lia|].
  intros c [_ Hc]. cbv beta. rewrite byte_of_bits_acc by done. done.
Qed.

Lemma emit_byte_range (n : Z) : 0 <= n < 256 -> 0 <= emit_byte n < 256.
Proof. unfold emit_byte. destruct (n =? 16); lia. Qed.

Lemma mono_pack_row_range (bs : list bool) :
  Forall (fun x => 0 <= x < 256) (pack_row 8 mono_upd emit_byte bs).
Proof.
  rewrite mono_pack_row. apply Forall_fmap.
  eapply Forall_impl; [apply (chunks_Forall (length bs) 8); lia|].
  intros c [_ Hc]. apply emit_byte_range, byte_of_bits_range. done.
Qed.

Lemma toUint8_small (l : list Z) :
  Forall (fun x => 0 <= x < 256) l -> JS.toUint8 <$> l = l.
Proof.
  induction 1 as [|x l Hx _ IH]; [done|].
  cbn [fmap list_fmap]. fold (@fmap list _ _ _ JS.toUint8 l). rewrite IH.
  unfold JS.toUint8. rewrite Z.mod_small by done. done.
Qed.

Lemma mono_pack_row_length (bs : list bool) :
  Z.of_nat (length (pack_row 8 mono_upd emit_byte bs)) = (Z.of_nat (length bs) + 7) / 8.
Proof.
  rewrite mono_pack_row, length_fmap, chunks_length by lia.
  f_equal; lia.
Qed.

Section MonoImage.

Variable approx : float -> float -> float.

(** One pass of the outer loop: the row's decisions are packed at the write
    position, the accumulator is empty again, and [errorBuffer] is rotated. *)
Lemma mono_row_spec d w s g j st eb pre post :
  1 <= w -> st_n st = 0 -> st_q st = Z.of_nat (length pre) ->
  st_r st = pre ++ post -> (w + 7) / 8 <= Z.of_nat (length post) ->
  mono_row approx d w s g (st, eb) j
  = let nxt2 := nth 2 eb 0%nat in
    let '(bs, p', hp') :=
      row_decisions approx d s g (nth 0 eb 0%nat) (nth 1 eb 0%nat) nxt2 j
        (seqZ 0 w) (st_p st) (buf_fill0 (st_bufs st) nxt2) in
    (MonoState 0 p' (st_q st + (w + 7) / 8)
       (pre ++ pack_row 8 mono_upd emit_byte bs ++ drop (Z.to_nat ((w + 7) / 8)) post) hp',
     rotate eb nxt2).
Proof.
  intros Hw Hn Hq Hr Hpost. unfold mono_row. cbv zeta.
  rewrite mono_pixel_fold. cbn [st_p st_bufs st_n st_q st_r].
  pose proof (row_decisions_length approx d s g (nth 0 eb 0%nat) (nth 1 eb 0%nat)
                (nth 2 eb 0%nat) j (seqZ 0 w) (st_p st)
                (buf_fill0 (st_bufs st) (nth 2 eb 0%nat))) as Hlen.
  destruct (row_decisions approx d s g (nth 0 eb 0%nat) (nth 1 eb 0%nat)
              (nth 2 eb 0%nat) j (seqZ 0 w) (st_p st)
              (buf_fill0 (st_bufs st) (nth 2 eb 0%nat))) as [[bs p'] hp'].
  cbn [fst] in Hlen. rewrite length_seqZ in Hlen.
  assert (Hw' : w = Z.of_nat (length bs)) by (rewrite Hlen, Z2Nat.id; lia).
  pose proof (mono_pack_row_length bs) as Hout. rewrite <- Hw' in Hout.
  rewrite Hn, Hr. rewrite Hw' at 2.
  rewrite (pack_fold 8 mono_upd emit_byte ltac:(lia) w bs 0 0 (st_q st) pre post);
    try lia; change (0 mod 8) with 0;
    fold (pack_row 8 mono_upd emit_byte bs); [|lia].
  rewrite toUint8_small by apply mono_pack_row_range.
  destruct bs as [|b bs]; [cbn [length] in Hw'; lia|].
  replace (length (pack_row 8 mono_upd emit_byte (b :: bs)))
    with (Z.to_nat ((w + 7) / 8)) by lia.
  rewrite Z2Nat.id by (apply Z.div_pos; lia). done.
Qed.

Lemma mono_rows_spec d w s g (rows : list Z) : forall st eb pre post,
  1 <= w -> st_n st = 0 -> st_q st = Z.of_nat (length pre) ->
  st_r st = pre ++ post ->
  Z.of_nat (length rows) * ((w + 7) / 8) <= Z.of_nat (length post) ->
  st_r (foldl (mono_row approx d w s g) (st, eb) rows).1
  = pre ++ concat (pack_row 8 mono_upd emit_byte
                     <$> rows_decisions approx d w s g rows (st_p st) (st_bufs st) eb)
        ++ drop (Z.to_nat (Z.of_nat (length rows) * ((w + 7) / 8))) post.
Proof.
  assert (Hdiv : 1 <= w -> 0 <= (w + 7) / 8) by (intros; apply Z.div_pos; lia).
  induction rows as [|j rows IH]; intros st eb pre post Hw Hn Hq Hr Hpost.
  - cbn. rewrite drop_0. done.
  - specialize (Hdiv Hw). cbn [foldl rows_decisions]. cbn [length] in Hpost.
    rewrite (mono_row_spec d w s g j st eb pre post) by (done || nia).
    cbv zeta.
    pose proof (row_decisions_length approx d s g (nth 0 eb 0%nat) (nth 1 eb 0%nat)
                  (nth 2 eb 0%nat) j (seqZ 0 w) (st_p st)
                  (buf_fill0 (st_bufs st) (nth 2 eb 0%nat))) as Hlen.
    destruct (row_decisions approx d s g (nth 0 eb 0%nat) (nth 1 eb 0%nat)
                (nth 2 eb 0%nat) j (seqZ 0 w) (st_p st)
                (buf_fill0 (st_bufs st) (nth 2 eb 0%nat))) as [[bs p'] hp'].
    cbn [fst] in Hlen. rewrite length_seqZ in Hlen.
    pose proof (mono_pack_row_length bs) as Hout.
    replace (Z.of_nat (length bs)) with w in Hout by (clear - Hlen Hw; lia).
    set (row := pack_row 8 mono_upd emit_byte bs) in *.
    rewrite (IH _ _ (pre ++ row) (drop (Z.to_nat ((w + 7) / 8)) post));
      cbn [st_n st_p st_q st_r st_bufs]; try done.
    + cbn [fmap list_fmap concat]. rewrite <- !app_assoc. do 2 f_equal.
      rewrite drop_drop. f_equal. cbn [length].
      rewrite <- Z2Nat.inj_add by nia. f_equal. nia.
    + rewrite length_app. lia.
    + rewrite <- app_assoc. done.
    + rewrite length_drop. nia.
Qed.

Lemma toInt32_small (z : Z) : 0 <= z < 2 ^ 31 -> JS.toInt32 z = z.
Proof.
  intros H. unfold JS.toInt32. rewrite Z.mod_small by lia.
  destruct (Z.ltb_spec z (2 ^ 31)); lia.
Qed.

Lemma mono_size_ok (w h : Z) :
  0 <= w + 7 < 2 ^ 31 -> mono_size w h = (w + 7) / 8 * h.
Proof.
  intros H. unfold mono_size. rewrite toInt32_small by done.
  rewrite Z.shiftr_div_pow2 by lia. done.
Qed.

Lemma rows_decisions_length d w s g (rows : list Z) : forall p hp eb,
  length (rows_decisions approx d w s g rows p hp eb) = length rows.
Proof.
  induction rows as [|j rows IH]; intros p hp eb; [done|].
  cbn [rows_decisions].
  destruct (row_decisions approx d s g (nth 0 eb 0%nat) (nth 1 eb 0%nat)
              (nth 2 eb 0%nat) j (seqZ 0 w) p (buf_fill0 hp (nth 2 eb 0%nat)))
    as [[bs p'] hp'].
  cbn [length]. rewrite IH. done.
Qed.

(** [toMonoImage] returns the packed decisions of the run, row after row. *)
Lemma toMonoImage_packs (imgdata : ImageData) (s : Z) (g : float) :
  1 <= width imgdata -> width imgdata + 7 < 2 ^ 31 -> 0 <= height imgdata ->
  toMonoImage approx imgdata s g
  = JS.Normal (concat (pack_row 8 mono_upd emit_byte <$> mono_decisions approx imgdata s g)).
Proof.
  intros Hw Hw' Hh. unfold toMonoImage, mono_decisions.
  set (w := width imgdata) in *. set (h := height imgdata) in *.
  assert (Hdiv : 0 <= (w + 7) / 8) by (apply Z.div_pos; lia).
  rewrite mono_size_ok by lia.
  unfold JS.new_Uint8Array, JS.new_Float32Array.
  destruct (Z.ltb_spec ((w + 7) / 8 * h) 0); [nia|].
  destruct (Z.ltb_spec (w + 4) 0); [lia|].
  cbn [mbind completion_bind JS.bind]. f_equal.
  rewrite (mono_rows_spec _ _ _ _ _ _ _ [] (replicate (Z.to_nat ((w + 7) / 8 * h)) 0));
    cbn [st_n st_p st_q st_r st_bufs]; try done.
  - cbn [app]. rewrite length_seqZ.
    rewrite drop_ge by (rewrite length_replicate; nia).
    rewrite app_nil_r. done.
  - rewrite length_seqZ, length_replicate. nia.
Qed.

End MonoImage.


(** ** Levels and bytes of the grayscale packing *)

Lemma thermal_length : length thermal = 256%nat.
Proof. reflexivity. Qed.

Lemma thermal_at_elem (k v : Z) : thermal_at k = Some v -> v ∈ thermal.
Proof.
  unfold thermal_at. destruct (k <? 0); [done|].
  apply list_elem_of_lookup_2.
Qed.

Lemma forallb_elem {A} (P : A -> bool) (l : list A) (x : A) :
  forallb P l = true -> x ∈ l -> P x = true.
Proof.
  intros H Hx. rewrite forallb_forall in H. apply H, list_elem_of_In, Hx.
Qed.

Lemma tbl2_m4_range (r c : Z) : 0 <= tbl2 m4 r c <= 16.
Proof.
  unfold tbl2.
  destruct (m4 !! Z.to_nat r) as [row|] eqn:Hr; cbn; [|lia].
  destruct (row !! Z.to_nat c) as [x|] eqn:Hc; cbn; [|lia].
  apply list_elem_of_lookup_2 in Hr, Hc.
  assert (Hall : forallb (forallb (fun x => (0 <=? x) && (x <=? 16))) m4 = true)
    by (vm_compute; reflexivity).
  pose proof (forallb_elem _ _ _ (forallb_elem _ _ _ Hall Hr) Hc) as H.
  cbv beta in H. lia.
Qed.

(** The level is a nibble whatever the table index is: the only table value
    with quotient 15 is 255, whose remainder is 0, so it is never rounded
    up. *)
Lemma quantize_range (k m : Z) : 0 <= m -> 0 <= quantize (thermal_at k) m <= 15.
Proof.
  intros Hm. unfold quantize.
  destruct (thermal_at k) as [v|] eqn:Hv; [|lia].
  apply thermal_at_elem in Hv.
  assert (Hall : forallb (fun v =>
      let v1 := JS.ToInt32 (JS.num v / 17) in
      (0 <=? v1) && (if 0 <? Z.rem v 17 then v1 + 1 <=? 15 else v1 <=? 15)) thermal = true)
    by (vm_compute; reflexivity).
  pose proof (forallb_elem _ _ _ Hall Hv) as H. cbv beta zeta in H.
  destruct (Z.ltb_spec m (Z.rem v 17)), (Z.ltb_spec 0 (Z.rem v 17)); lia.
Qed.

Lemma gray_upd_add (hi lo : Z) :
  0 <= hi <= 15 -> 0 <= lo <= 15 ->
  gray_upd 0 hi 0 = 16 * hi /\ gray_upd 1 lo (16 * hi) = 16 * hi + lo.
Proof.
  intros Hhi Hlo.
  assert (Hall : forallb (fun hi => forallb (fun lo =>
            (gray_upd 0 hi 0 =? 16 * hi) && (gray_upd 1 lo (16 * hi) =? 16 * hi + lo))
            (seqZ 0 16)) (seqZ 0 16) = true) by (vm_compute; reflexivity).
  pose proof (forallb_seqZ _ _ _ (forallb_seqZ _ _ _ Hall hi ltac:(lia)) lo ltac:(lia)) as H.
  cbv beta in H. lia.
Qed.

Lemma byte_of_levels_acc (vs : list Z) :
  (length vs <= 2)%nat -> Forall (fun v => 0 <= v <= 15) vs ->
  acc_from gray_upd 0 0 vs = byte_of_levels vs /\ 0 <= byte_of_levels vs < 256.
Proof.
  intros Hlen Hvs.
  destruct vs as [|hi [|lo [|? ?]]]; [cbn; lia| | |cbn [length] in Hlen; lia].
  - apply Forall_cons in Hvs as [Hhi _].
    cbn [acc_from byte_of_levels]. destruct (gray_upd_add hi 0) as [-> _]; lia.
  - apply Forall_cons in Hvs as [Hhi Hvs]. apply Forall_cons in Hvs as [Hlo _].
    cbn [acc_from byte_of_levels]. change (0 + 1) with 1.
    destruct (gray_upd_add hi lo) as [-> ->]; lia.
Qed.

Section GrayImage.

Variable approx : float -> float -> float.

Lemma gray_level_range d g j i p : 0 <= gray_level approx d g j i p <= 15.
Proof. apply quantize_range, tbl2_m4_range. Qed.

Lemma row_levels_length d g j cols : forall p,
  length (row_levels approx d g j cols p) = length cols.
Proof. induction cols as [|i cols IH]; intros p; cbn; [done|by rewrite IH]. Qed.

Lemma row_levels_range d g j cols : forall p,
  Forall (fun v => 0 <= v <= 15) (row_levels approx d g j cols p).
Proof.
  induction cols as [|i cols IH]; intros p; cbn [row_levels]; constructor;
    [apply gray_level_range|apply IH].
Qed.

Lemma row_levels_seqZ d g j (len : nat) : forall i p,
  row_levels approx d g j (seqZ i (Z.of_nat len)) p
  = (fun i' => gray_level approx d g j i' (p + 4 * (i' - i))) <$> seqZ i (Z.of_nat len).
Proof.
  induction len as [|len IH]; intros i p; [done|].
  rewrite seqZ_cons by lia.
  replace (Z.pred (Z.of_nat (S len))) with (Z.of_nat len) by lia.
  cbn [row_levels fmap list_fmap].
  replace (p + 4 * (i - i)) with p by lia.
  rewrite IH.
  rewrite (list_fmap_ext
             (fun i' => gray_level approx d g j i' (p + 4 + 4 * (i' - Z.succ i)))
             (fun i' => gray_level approx d g j i' (p + 4 * (i' - i)))
             (seqZ (Z.succ i) (Z.of_nat len))); [reflexivity|].
  intros k i' _. cbv beta.
  replace (p + 4 + 4 * (i' - Z.succ i)) with (p + 4 * (i' - i)) by lia.
  reflexivity.
Qed.

Lemma gray_pixel_fold d w g j cols : forall st,
  foldl (gray_pixel approx d w g j) st cols
  = let '(n, q, r) :=
      foldl (pack_step 2 gray_upd id w) (gs_n st, gs_q st, gs_r st)
            (zip cols (row_levels approx d g j cols (gs_p st))) in
    GrayState n (gs_p st + 4 * Z.of_nat (length cols)) q r.
Proof.
  induction cols as [|i cols IH]; intros st.
  - destruct st. cbn. f_equal. lia.
  - cbn [foldl row_levels zip zip_with]. rewrite IH.
    unfold gray_pixel. rewrite gray_pack_step.
    destruct (pack_step 2 gray_upd id w (gs_n st, gs_q st, gs_r st)
                (i, gray_level approx d g j i (gs_p st))) as [[n q] r].
    cbn [gs_n gs_p gs_q gs_r].
    destruct (foldl (pack_step 2 gray_upd id w) (n, q, r)
                (zip cols (row_levels approx d g j cols (gs_p st + 4)))) as [[n' q'] r'].
    f_equal. cbn [length]. lia.
Qed.

(** The bytes of a row of levels: every pair of levels gives one byte, the
    first level in the high nibble. *)
Lemma gray_pack_row (vs : list Z) :
  Forall (fun v => 0 <= v <= 15) vs ->
  pack_row 2 gray_upd id vs = byte_of_levels <$> chunks (length vs) 2 vs.
Proof.
  intros Hvs.
  rewrite (pack_row_chunks 2 gray_upd id ltac:(lia) (length vs)) by lia.
  change (Z.to_nat 2) with 2%nat.
  apply Forall_fmap_ext_1.
  assert (Hch : forall fuel (l : list Z), Forall (fun v => 0 <= v <= 15) l ->
            Forall (Forall (fun v => 0 <= v <= 15)) (chunks fuel 2 l)).
  { induction fuel as [|fuel IH]; intros l Hl; [constructor|].
    destruct l as [|x l]; [constructor|]. cbn [chunks]. constructor.
    - by apply Forall_take.
    - apply IH. by apply Forall_drop. }
  pose proof (chunks_Forall (length vs) 2 vs ltac:(lia)) as Hc.
  specialize (Hch (length vs) vs Hvs).
  induction Hc as [|c cs [_ Hc] _ IH]; [constructor|].
  apply Forall_cons in Hch as [Hc1 Hch]. constructor; [|by apply IH].
  unfold id. by destruct (byte_of_levels_acc c Hc Hc1) as [-> _].
Qed.

Lemma gray_pack_row_range (vs : list Z) :
  Forall (fun v => 0 <= v <= 15) vs ->
  Forall (fun x => 0 <= x < 256) (pack_row 2 gray_upd id vs).
Proof.
  intros Hvs. rewrite gray_pack_row by done. apply Forall_fmap.
  assert (Hch : forall fuel (l : list Z), Forall (fun v => 0 <= v <= 15) l ->
            Forall (fun c => (length c <= 2)%nat /\ Forall (fun v => 0 <= v <= 15) c)
                   (chunks fuel 2 l)).
  { induction fuel as [|fuel IH]; intros l Hl; [constructor|].
    destruct l as [|x l]; [constructor|]. cbn [chunks]. constructor.
    - split; [rewrite length_take; lia|by apply Forall_take].
    - apply IH. by apply Forall_drop. }
  eapply Forall_impl; [apply Hch, Hvs|].
  intros c [Hc1 Hc2]. by destruct (byte_of_levels_acc c Hc1 Hc2) as [_ ?].
Qed.

Lemma gray_pack_row_length (vs : list Z) :
  Forall (fun v => 0 <= v <= 15) vs ->
  Z.of_nat (length (pack_row 2 gray_upd id vs)) = (Z.of_nat (length vs) + 1) / 2.
Proof.
  intros Hvs. rewrite gray_pack_row, length_fmap, chunks_length by (done || lia).
  f_equal; lia.
Qed.

End GrayImage.

Section GrayRows.

Variable approx : float -> float -> float.

Lemma gray_row_spec d w g j st pre post :
  1 <= w -> gs_n st = 0 -> gs_q st = Z.of_nat (length pre) ->
  gs_r st = pre ++ post -> (w + 1) / 2 <= Z.of_nat (length post) ->
  gray_row approx d w g st j
  = GrayState 0 (gs_p st + 4 * w) (gs_q st + (w + 1) / 2)
      (pre ++ pack_row 2 gray_upd id (row_levels approx d g j (seqZ 0 w) (gs_p st))
           ++ drop (Z.to_nat ((w + 1) / 2)) post).
Proof.
  intros Hw Hn Hq Hr Hpost. unfold gray_row. rewrite gray_pixel_fold.
  pose proof (row_levels_length approx d g j (seqZ 0 w) (gs_p st)) as Hlen.
  pose proof (row_levels_range approx d g j (seqZ 0 w) (gs_p st)) as Hrange.
  set (vs := row_levels approx d g j (seqZ 0 w) (gs_p st)) in *.
  rewrite length_seqZ in *.
  assert (Hw' : w = Z.of_nat (length vs)) by lia.
  pose proof (gray_pack_row_length vs Hrange) as Hout. rewrite <- Hw' in Hout.
  rewrite Hn, Hr. rewrite Hw' at 2.
  rewrite (pack_fold 2 gray_upd id ltac:(lia) w vs 0 0 (gs_q st) pre post);
    try lia; change (0 mod 2) with 0;
    fold (pack_row 2 gray_upd id vs); [|lia].
  rewrite toUint8_small by (by apply gray_pack_row_range).
  destruct vs as [|v vs']; [cbn [length] in Hw'; lia|].
  f_equal; [lia|lia|].
  do 3 f_equal. lia.
Qed.

Lemma gray_rows_spec d w g (k : nat) : forall j st pre post,
  1 <= w -> gs_n st = 0 -> gs_q st = Z.of_nat (length pre) ->
  gs_r st = pre ++ post -> gs_p st = 4 * (j * w) ->
  Z.of_nat k * ((w + 1) / 2) <= Z.of_nat (length post) ->
  gs_r (foldl (gray_row approx d w g) st (seqZ j (Z.of_nat k)))
  = pre ++ concat ((fun j' => pack_row 2 gray_upd id
                       ((fun i => gray_level approx d g j' i (4 * (j' * w + i))) <$> seqZ 0 w))
                     <$> seqZ j (Z.of_nat k))
        ++ drop (Z.to_nat (Z.of_nat k * ((w + 1) / 2))) post.
Proof.
  assert (Hdiv : 1 <= w -> 0 <= (w + 1) / 2) by (intros; apply Z.div_pos; lia).
  induction k as [|k IH]; intros j st pre post Hw Hn Hq Hr Hp Hpost.
  - cbn. rewrite drop_0. done.
  - specialize (Hdiv Hw). rewrite seqZ_cons by lia.
    replace (Z.pred (Z.of_nat (S k))) with (Z.of_nat k) by lia.
    cbn [foldl fmap list_fmap concat].
    rewrite (gray_row_spec d w g j st pre post) by (done || nia).
    replace w with (Z.of_nat (Z.to_nat w)) at 4 by lia.
    rewrite row_levels_seqZ. rewrite Z2Nat.id by lia.
    rewrite (list_fmap_ext
               (fun i' => gray_level approx d g j i' (gs_p st + 4 * (i' - 0)))
               (fun i => gray_level approx d g j i (4 * (j * w + i)))
               (seqZ 0 w)).
    2:{ intros k' i _. cbv beta.
        replace (gs_p st + 4 * (i - 0)) with (4 * (j * w + i)) by lia.
        reflexivity. }
    assert (Hrange : Forall (fun v => 0 <= v <= 15)
              ((fun i => gray_level approx d g j i (4 * (j * w + i))) <$> seqZ 0 w)).
    { apply Forall_fmap, Forall_forall. intros i _. apply gray_level_range. }
    pose proof (gray_pack_row_length _ Hrange) as Hrow.
    rewrite length_fmap, length_seqZ, Z2Nat.id in Hrow by lia.
    clear Hrange.
    remember (pack_row 2 gray_upd id
                ((fun i => gray_level approx d g j i (4 * (j * w + i))) <$> seqZ 0 w))
      as row eqn:Erow.
    clear Erow.
    rewrite (IH _ _ (pre ++ row) (drop (Z.to_nat ((w + 1) / 2)) post));
      cbn [gs_n gs_p gs_q gs_r]; try done.
    + rewrite <- !app_assoc. rewrite drop_drop.
      replace (Z.to_nat ((w + 1) / 2) + Z.to_nat (Z.of_nat k * ((w + 1) / 2)))%nat
        with (Z.to_nat (Z.of_nat (S k) * ((w + 1) / 2)))
        by (rewrite <- Z2Nat.inj_add by nia; f_equal; nia).
      reflexivity.
    + rewrite length_app. lia.
    + rewrite <- app_assoc. done.
    + unfold Z.succ. lia.
    + rewrite length_drop. nia.
Qed.

Lemma gray_size_ok (w h : Z) :
  0 <= w + 1 < 2 ^ 31 -> gray_size w h = (w + 1) / 2 * h.
Proof.
  intros H. unfold gray_size. rewrite toInt32_small by done.
  rewrite Z.shiftr_div_pow2 by lia. done.
Qed.

(** [toGrayImage] returns the packed levels of the pixels, row after row. *)
Lemma toGrayImage_packs (imgdata : ImageData) (g : float) :
  1 <= width imgdata -> width imgdata + 1 < 2 ^ 31 -> 0 <= height imgdata ->
  toGrayImage approx imgdata g
  = JS.Normal (concat (pack_row 2 gray_upd id <$> gray_levels approx imgdata g)).
Proof.
  intros Hw Hw' Hh. unfold toGrayImage, gray_levels.
  set (w := width imgdata) in *. set (h := height imgdata) in *.
  assert (Hdiv : 0 <= (w + 1) / 2) by (apply Z.div_pos; lia).
  rewrite gray_size_ok by lia.
  unfold JS.new_Uint8Array.
  destruct (Z.ltb_spec ((w + 1) / 2 * h) 0); [nia|].
  cbn [mbind completion_bind JS.bind]. f_equal.
  replace h with (Z.of_nat (Z.to_nat h)) at 2 3 by lia.
  rewrite (gray_rows_spec _ _ _ _ _ _ [] (replicate (Z.to_nat ((w + 1) / 2 * h)) 0));
    cbn [gs_n gs_p gs_q gs_r]; try done; try lia.
  - cbn [app]. rewrite drop_ge by (rewrite length_replicate; nia).
    rewrite app_nil_r, <- list_fmap_compose. done.
  - rewrite length_replicate. nia.
Qed.

End GrayRows.


(** ** Reading a byte of the output *)

Lemma concat_lookup_uniform {A} (n : nat) (ls : list (list A)) : forall j k,
  Forall (fun l => length l = n) ls -> (k < n)%nat ->
  concat ls !! (j * n + k)%nat = ls !! j ≫= fun l => l !! k.
Proof.
  induction ls as [|l ls IH]; intros j k Hls Hk.
  - cbn. by rewrite lookup_nil.
  - apply Forall_cons in Hls as [Hl Hls]. cbn [concat].
    destruct j as [|j].
    + cbn. rewrite lookup_app_l by lia. done.
    + rewrite lookup_app_r by lia.
      replace (S j * n + k - length l)%nat with (j * n + k)%nat by lia.
      rewrite IH by done. done.
Qed.

Section ByteAt.

Variable approx : float -> float -> float.

Lemma rows_decisions_widths d w s g (rows : list Z) : forall p hp eb,
  Forall (fun bs => length bs = Z.to_nat w) (rows_decisions approx d w s g rows p hp eb).
Proof.
  induction rows as [|j rows IH]; intros p hp eb; [constructor|].
  cbn [rows_decisions].
  pose proof (row_decisions_length approx d s g (nth 0 eb 0%nat) (nth 1 eb 0%nat)
                (nth 2 eb 0%nat) j (seqZ 0 w) p (buf_fill0 hp (nth 2 eb 0%nat))) as Hlen.
  destruct (row_decisions approx d s g (nth 0 eb 0%nat) (nth 1 eb 0%nat)
              (nth 2 eb 0%nat) j (seqZ 0 w) p (buf_fill0 hp (nth 2 eb 0%nat)))
    as [[bs p'] hp'].
  constructor; [|apply IH]. cbn [fst] in Hlen. by rewrite length_seqZ in Hlen.
Qed.

Lemma mono_decisions_shape (imgdata : ImageData) (s : Z) (g : float) :
  length (mono_decisions approx imgdata s g) = Z.to_nat (height imgdata)
  /\ Forall (fun bs => length bs = Z.to_nat (width imgdata))
            (mono_decisions approx imgdata s g).
Proof.
  unfold mono_decisions. split.
  - by rewrite rows_decisions_length, length_seqZ.
  - apply rows_decisions_widths.
Qed.

(** Byte [k] of row [j] of the monochrome output packs the decisions of the
    columns [8k .. 8k+7] of that row. *)
Lemma toMonoImage_byte (imgdata : ImageData) (s : Z) (g : float) (j k : Z) :
  1 <= width imgdata -> width imgdata + 7 < 2 ^ 31 ->
  0 <= j < height imgdata -> 0 <= k < (width imgdata + 7) / 8 ->
  exists out bs,
    toMonoImage approx imgdata s g = JS.Normal out
    /\ mono_decisions approx imgdata s g !! Z.to_nat j = Some bs
    /\ length bs = Z.to_nat (width imgdata)
    /\ out !! Z.to_nat (j * ((width imgdata + 7) / 8) + k)
       = Some (emit_byte (byte_of_bits (take 8 (drop (Z.to_nat (8 * k)) bs)))).
Proof.
  intros Hw Hw' Hj Hk.
  destruct (mono_decisions_shape imgdata s g) as [Hlen Hwd].
  destruct (lookup_lt_is_Some_2 (mono_decisions approx imgdata s g) (Z.to_nat j))
    as [bs Hbs]; [lia|].
  pose proof (proj1 (Forall_lookup _ _) Hwd _ _ Hbs) as Hbsl. cbv beta in Hbsl.
  eexists _, bs. split; [apply toMonoImage_packs; lia|].
  split; [done|]. split; [done|].
  set (n := Z.to_nat ((width imgdata + 7) / 8)).
  assert (Hu : Forall (fun l => length l = n)
            (pack_row 8 mono_upd emit_byte <$> mono_decisions approx imgdata s g)).
  { apply Forall_fmap. eapply Forall_impl; [apply Hwd|].
    intros bs' Hbs'. cbv beta. unfold n.
    pose proof (mono_pack_row_length bs') as H. rewrite Hbs' in H.
    assert (0 <= width imgdata) by lia.
    rewrite Z2Nat.id in H by done. cbv beta. unfold compose. lia. }
  replace (Z.to_nat (j * ((width imgdata + 7) / 8) + k))
    with (Z.to_nat j * n + Z.to_nat k)%nat
    by (unfold n; rewrite Z2Nat.inj_add, Z2Nat.inj_mul by nia; done).
  rewrite (concat_lookup_uniform n) by (done || (unfold n; lia)).
  rewrite list_lookup_fmap, Hbs. cbn [fmap option_fmap option_map mbind option_bind].
  rewrite mono_pack_row, list_lookup_fmap.
  rewrite chunks_lookup by (clear Hu; subst n; Z.div_mod_to_equations; lia).
  cbn [fmap option_fmap option_map].
  do 5 f_equal. lia.
Qed.

(** Byte [k] of row [j] of the grayscale output packs the levels of the
    columns [2k] and [2k+1] of that row. *)
Lemma toGrayImage_byte (imgdata : ImageData) (g : float) (j k : Z) :
  1 <= width imgdata -> width imgdata + 1 < 2 ^ 31 ->
  0 <= j < height imgdata -> 0 <= k < (width imgdata + 1) / 2 ->
  exists out vs,
    toGrayImage approx imgdata g = JS.Normal out
    /\ gray_levels approx imgdata g !! Z.to_nat j = Some vs
    /\ length vs = Z.to_nat (width imgdata)
    /\ Forall (fun v => 0 <= v <= 15) vs
    /\ out !! Z.to_nat (j * ((width imgdata + 1) / 2) + k)
       = Some (byte_of_levels (take 2 (drop (Z.to_nat (2 * k)) vs))).
Proof.
  intros Hw Hw' Hj Hk.
  assert (Hwd : Forall (fun vs => length vs = Z.to_nat (width imgdata)
                                  /\ Forall (fun v => 0 <= v <= 15) vs)
            (gray_levels approx imgdata g)).
  { unfold gray_levels. apply Forall_fmap, Forall_forall. intros j' _. cbv beta. split.
    - by rewrite length_fmap, length_seqZ.
    - apply Forall_fmap, Forall_forall. intros i _. apply gray_level_range. }
  assert (Hlen : length (gray_levels approx imgdata g) = Z.to_nat (height imgdata)).
  { unfold gray_levels. by rewrite length_fmap, length_seqZ. }
  destruct (lookup_lt_is_Some_2 (gray_levels approx imgdata g) (Z.to_nat j))
    as [vs Hvs]; [lia|].
  destruct (proj1 (Forall_lookup _ _) Hwd _ _ Hvs) as [Hvsl Hvsr].
  eexists _, vs. split; [apply toGrayImage_packs; lia|].
  do 3 (split; [done|]).
  set (n := Z.to_nat ((width imgdata + 1) / 2)).
  assert (Hu : Forall (fun l => length l = n)
            (pack_row 2 gray_upd id <$> gray_levels approx imgdata g)).
  { apply Forall_fmap. eapply Forall_impl; [apply Hwd|].
    intros vs' [Hvs' Hr']. cbv beta. unfold n.
    pose proof (gray_pack_row_length vs' Hr') as H. rewrite Hvs' in H.
    rewrite Z2Nat.id in H by lia. cbv beta. unfold compose. lia. }
  replace (Z.to_nat (j * ((width imgdata + 1) / 2) + k))
    with (Z.to_nat j * n + Z.to_nat k)%nat
    by (unfold n; rewrite Z2Nat.inj_add, Z2Nat.inj_mul by nia; done).
  rewrite (concat_lookup_uniform n) by (done || (unfold n; lia)).
  rewrite list_lookup_fmap, Hvs. cbn [fmap option_fmap option_map mbind option_bind].
  rewrite gray_pack_row, list_lookup_fmap by done.
  rewrite chunks_lookup by (clear Hu; subst n; Z.div_mod_to_equations; lia).
  cbn [fmap option_fmap option_map].
  do 4 f_equal. lia.
Qed.

End ByteAt.


(** ** Bits of a packed byte *)

Lemma mono_upd_testbit (b : Z) (x : bool) (n m : Z) :
  0 <= b -> 0 <= m ->
  Z.testbit (mono_upd b x n) m = Z.testbit n m || (x && (m + b =? 7)).
Proof.
  intros Hb Hm. unfold mono_upd. destruct x; [|by rewrite orb_false_r].
  rewrite Z.lor_spec, Z.shiftr_spec by done.
  change 128 with (2 ^ 7). rewrite Z.pow2_bits_eqb by lia.
  rewrite (Z.eqb_sym 7). done.
Qed.

Lemma acc_from_testbit (bs : list bool) : forall b n m,
  0 <= b -> 0 <= m ->
  Z.testbit (acc_from mono_upd b n bs) m
  = Z.testbit n m
    || ((b <=? 7 - m) && default false (bs !! Z.to_nat (7 - m - b))).
Proof.
  induction bs as [|x bs IH]; intros b n m Hb Hm.
  - cbn. by rewrite andb_false_r, orb_false_r.
  - cbn [acc_from]. rewrite IH, mono_upd_testbit by lia.
    rewrite <- orb_assoc. f_equal.
    destruct (Z.leb_spec b (7 - m)) as [Hle|Hgt].
    + destruct (Z.eqb_spec (m + b) 7) as [Heq|Hne].
      * replace (Z.to_nat (7 - m - b)) with 0%nat by lia.
        destruct (Z.leb_spec (b + 1) (7 - m)); [lia|].
        cbn. by rewrite andb_true_r, orb_false_r.
      * destruct (Z.leb_spec (b + 1) (7 - m)); [|lia].
        replace (Z.to_nat (7 - m - b)) with (S (Z.to_nat (7 - m - (b + 1)))) by lia.
        cbn. by rewrite andb_false_r.
    + destruct (Z.eqb_spec (m + b) 7); [lia|].
      destruct (Z.leb_spec (b + 1) (7 - m)); [lia|].
      cbn. by rewrite andb_false_r.
Qed.

(** Bit [7 - c] of a packed byte is the decision of the [c]-th column of
    its slice; the bits of missing columns are 0. *)
Lemma byte_of_bits_testbit (bs : list bool) (c : Z) :
  (length bs <= 8)%nat -> 0 <= c <= 7 ->
  Z.testbit (byte_of_bits bs) (7 - c) = default false (bs !! Z.to_nat c).
Proof.
  intros Hlen Hc. rewrite <- byte_of_bits_acc by done.
  rewrite acc_from_testbit by lia. rewrite Z.bits_0.
  destruct (Z.leb_spec 0 (7 - (7 - c))); [|lia].
  cbn. do 3 f_equal. lia.
Qed.

Lemma byte_of_bits_padding (bs : list bool) (m : Z) :
  (length bs <= 8)%nat -> 0 <= m < 8 - Z.of_nat (length bs) ->
  Z.testbit (byte_of_bits bs) m = false.
Proof.
  intros Hlen Hm. replace m with (7 - (7 - m)) by lia.
  rewrite byte_of_bits_testbit by lia.
  rewrite lookup_ge_None_2 by lia. done.
Qed.

(** The substituted byte has no padding bit either: a byte equal to 16 has
    its fourth column set, so the slice holds the third column as well, which
    is where 32 puts its only bit. *)
Lemma emit_byte_padding (bs : list bool) (m : Z) :
  (length bs <= 8)%nat -> 0 <= m < 8 - Z.of_nat (length bs) ->
  Z.testbit (emit_byte (byte_of_bits bs)) m = false.
Proof.
  intros Hlen Hm. unfold emit_byte.
  destruct (Z.eqb_spec (byte_of_bits bs) 16) as [Heq|_];
    [|by apply byte_of_bits_padding].
  pose proof (byte_of_bits_testbit bs 3 Hlen ltac:(lia)) as H3.
  rewrite Heq in H3. change (Z.testbit 16 (7 - 3)) with true in H3.
  destruct (bs !! Z.to_nat 3) eqn:Hl; [|cbn in H3; done].
  apply lookup_lt_Some in Hl.
  change 32 with (2 ^ 5). rewrite Z.pow2_bits_eqb by lia.
  apply Z.eqb_neq. lia.
Qed.

Lemma byte_of_bits_replicate_false (n : nat) : byte_of_bits (replicate n false) = 0.
Proof.
  assert (H : forall b, bits_from b (replicate n false) = 0).
  { induction n as [|n IH]; intros b; cbn [replicate bits_from]; [done|].
    by rewrite IH. }
  apply H.
Qed.


(** ** Size of the output *)

Lemma ceil_div_8 (a : Z) : ceil_div a 8 = (a + 7) / 8.
Proof.
  unfold ceil_div. destruct (Z.eqb_spec (a mod 8) 0); Z.div_mod_to_equations; lia.
Qed.

Lemma ceil_div_2 (a : Z) : ceil_div a 2 = (a + 1) / 2.
Proof.
  unfold ceil_div. destruct (Z.eqb_spec (a mod 2) 0); Z.div_mod_to_equations; lia.
Qed.

Lemma length_concat_uniform {A} (n : nat) (ls : list (list A)) :
  Forall (fun l => length l = n) ls -> length (concat ls) = (length ls * n)%nat.
Proof.
  induction 1 as [|l ls Hl _ IH]; [done|].
  cbn [concat length]. rewrite length_app, IH, Hl. lia.
Qed.

Lemma pack_step_length {A} per (upd : Z -> A -> Z -> Z) emit w acc ix :
  length (pack_step per upd emit w acc ix).2 = length acc.2.
Proof.
  destruct acc as [[n q] r]. unfold pack_step.
  destruct (_ || _); cbn [snd]; [by rewrite length_insert|done].
Qed.

Section Sizes.

Variable approx : float -> float -> float.

Lemma mono_pixel_length d w s g cur nxt nxt2 j st i :
  length (st_r (mono_pixel approx d w s g cur nxt nxt2 j st i)) = length (st_r st).
Proof.
  unfold mono_pixel.
  destruct (mono_decide approx d s g cur nxt nxt2 j i (st_p st) (st_bufs st)) as [x hp].
  rewrite mono_pack_step.
  pose proof (pack_step_length 8 mono_upd emit_byte w (st_n st, st_q st, st_r st) (i, x)) as H.
  destruct (pack_step 8 mono_upd emit_byte w (st_n st, st_q st, st_r st) (i, x)) as [[n q] r].
  done.
Qed.

Lemma mono_row_length d w s g ste j :
  length (st_r (mono_row approx d w s g ste j).1) = length (st_r ste.1).
Proof.
  destruct ste as [st eb]. unfold mono_row. cbn [fst].
  set (st0 := MonoState _ _ _ _ _).
  change (st_r st) with (st_r st0). generalize st0. clear st0.
  induction (seqZ 0 w) as [|i cols IH]; intros st0; [done|].
  cbn [foldl]. rewrite IH. apply mono_pixel_length.
Qed.

Lemma mono_rows_length d w s g rows : forall ste,
  length (st_r (foldl (mono_row approx d w s g) ste rows).1) = length (st_r ste.1).
Proof.
  induction rows as [|j rows IH]; intros ste; [done|].
  cbn [foldl]. rewrite IH. apply mono_row_length.
Qed.

Lemma mono_rows_narrow d w s g rows : forall ste,
  w <= 0 -> st_r (foldl (mono_row approx d w s g) ste rows).1 = st_r ste.1.
Proof.
  induction rows as [|j rows IH]; intros [st eb] Hw; [done|].
  cbn [foldl]. rewrite IH by done. unfold mono_row.
  rewrite seqZ_nil by done. done.
Qed.

Lemma gray_pixel_length d w g j st i :
  length (gs_r (gray_pixel approx d w g j st i)) = length (gs_r st).
Proof.
  unfold gray_pixel. rewrite gray_pack_step.
  pose proof (pack_step_length 2 gray_upd id w (gs_n st, gs_q st, gs_r st)
                (i, gray_level approx d g j i (gs_p st))) as H.
  destruct (pack_step 2 gray_upd id w _ _) as [[n q] r]. done.
Qed.

Lemma gray_rows_length d w g rows : forall st,
  length (gs_r (foldl (gray_row approx d w g) st rows)) = length (gs_r st).
Proof.
  induction rows as [|j rows IH]; intros st; [done|].
  cbn [foldl]. rewrite IH. unfold gray_row.
  generalize st. induction (seqZ 0 w) as [|i cols IHc]; intros st0; [done|].
  cbn [foldl]. rewrite IHc. apply gray_pixel_length.
Qed.

Lemma gray_rows_narrow d w g rows : forall st,
  w <= 0 -> gs_r (foldl (gray_row approx d w g) st rows) = gs_r st.
Proof.
  induction rows as [|j rows IH]; intros st Hw; [done|].
  cbn [foldl]. rewrite IH by done. unfold gray_row.
  rewrite seqZ_nil by done. done.
Qed.

(** The converters fail only when an allocation does; otherwise they return
    the output array, whose length is the computed target size. *)
Lemma toMonoImage_total (imgdata : ImageData) (s : Z) (g : float) :
  let w := width imgdata in
  let h := height imgdata in
  (mono_size w h < 0 \/ w + 4 < 0 -> toMonoImage approx imgdata s g = JS.Throw JS.RangeError)
  /\ (0 <= mono_size w h -> 0 <= w + 4 ->
      exists out, toMonoImage approx imgdata s g = JS.Normal out
                  /\ Z.of_nat (length out) = mono_size w h
                  /\ (w <= 0 \/ h <= 0 -> out = replicate (Z.to_nat (mono_size w h)) 0)).
Proof.
  intros w h. unfold toMonoImage. fold w h.
  unfold JS.new_Uint8Array, JS.new_Float32Array. split.
  - intros [H|H].
    + destruct (Z.ltb_spec (mono_size w h) 0); [done|lia].
    + destruct (Z.ltb_spec (mono_size w h) 0); [done|].
      destruct (Z.ltb_spec (w + 4) 0); [done|lia].
  - intros H1 H2.
    destruct (Z.ltb_spec (mono_size w h) 0); [lia|].
    destruct (Z.ltb_spec (w + 4) 0); [lia|].
    cbn [mbind completion_bind JS.bind]. eexists. split; [done|]. split.
    + rewrite mono_rows_length. cbn [fst st_r]. rewrite length_replicate. lia.
    + intros [Hw|Hh].
      * by rewrite mono_rows_narrow.
      * by rewrite seqZ_nil.
Qed.

Lemma toGrayImage_total (imgdata : ImageData) (g : float) :
  let w := width imgdata in
  let h := height imgdata in
  (gray_size w h < 0 -> toGrayImage approx imgdata g = JS.Throw JS.RangeError)
  /\ (0 <= gray_size w h ->
      exists out, toGrayImage approx imgdata g = JS.Normal out
                  /\ Z.of_nat (length out) = gray_size w h
                  /\ (w <= 0 \/ h <= 0 -> out = replicate (Z.to_nat (gray_size w h)) 0)).
Proof.
  intros w h. unfold toGrayImage. fold w h.
  unfold JS.new_Uint8Array. split.
  - intros H. destruct (Z.ltb_spec (gray_size w h) 0); [done|lia].
  - intros H1.
    destruct (Z.ltb_spec (gray_size w h) 0); [lia|].
    cbn [mbind completion_bind JS.bind]. eexists. split; [done|]. split.
    + rewrite gray_rows_length. cbn [gs_r]. rewrite length_replicate. lia.
    + intros [Hw|Hh].
      * by rewrite gray_rows_narrow.
      * by rewrite seqZ_nil.
Qed.

End Sizes.


(** ** Packing *)

Lemma mono_raw_bytes_emit (decisions : list (list bool)) :
  concat (pack_row 8 mono_upd emit_byte <$> decisions)
  = emit_byte <$> mono_raw_bytes decisions.
Proof.
  unfold mono_raw_bytes.
  induction decisions as [|bs decisions IH]; [done|].
  cbn [fmap list_fmap concat]. rewrite fmap_app. f_equal; [|apply IH].
  rewrite mono_pack_row, <- list_fmap_compose. done.
Qed.

Lemma byte_of_levels_single (v : Z) : Z.land (byte_of_levels [v]) 15 = 0.
Proof.
  cbn [byte_of_levels]. change 15 with (Z.ones 4).
  rewrite Z.land_ones by lia. change (2 ^ 4) with 16.
  rewrite Z.mul_comm. apply Z.mod_mul. lia.
Qed.

Lemma slice_length {A} (l : list A) (per k : Z) :
  0 < per -> 0 <= k -> per * k < Z.of_nat (length l) ->
  Z.of_nat (length (take (Z.to_nat per) (drop (Z.to_nat (per * k)) l)))
  = Z.min per (Z.of_nat (length l) - per * k).
Proof. intros. rewrite length_take, length_drop. lia. Qed.



(** ** Uniform images *)

Lemma rd_uniform (px : list Z) (n : nat) (m c : Z) :
  length px = 4%nat -> 0 <= m < Z.of_nat n -> 0 <= c < 4 ->
  rd (concat (replicate n px)) (4 * m + c) = rd px c.
Proof.
  intros Hpx Hm Hc. unfold rd.
  replace (Z.to_nat (4 * m + c)) with (Z.to_nat m * 4 + Z.to_nat c)%nat by lia.
  rewrite (concat_lookup_uniform 4) by (by apply Forall_replicate || lia).
  rewrite lookup_replicate_2 by lia. done.
Qed.

Lemma lum_uniform (px : list Z) (n : nat) (m : Z) :
  length px = 4%nat -> 0 <= m < Z.of_nat n ->
  lum (concat (replicate n px)) (4 * m) = lum px 0.
Proof.
  intros Hpx Hm. unfold lum.
  replace (4 * m) with (4 * m + 0) by lia.
  replace (4 * m + 0 + 1) with (4 * m + 1) by lia.
  replace (4 * m + 0 + 2) with (4 * m + 2) by lia.
  replace (4 * m + 0 + 3) with (4 * m + 3) by lia.
  rewrite !rd_uniform by (done || lia). done.
Qed.

(** ** A store of zeros *)

Lemma alter_id_lookup {A} (f : A -> A) (l : list A) : forall i,
  (forall x, l !! i = Some x -> f x = x) -> alter f i l = l.
Proof.
  induction l as [|y l IH]; intros i H; [done|].
  destruct i as [|i]; cbn.
  - f_equal. by apply H.
  - f_equal. by apply IH.
Qed.


Lemma buf_get_zero (hp : store) (b : nat) (k : Z) (l : list float) :
  zero_store hp -> hp !! b = Some l -> (Z.to_nat k < length l)%nat ->
  buf_get hp b k = 0%float.
Proof.
  intros Hz Hb Hk. unfold buf_get. rewrite Hb. cbn.
  destruct (lookup_lt_is_Some_2 l (Z.to_nat k) Hk) as [x Hx]. rewrite Hx.
  eapply Forall_lookup_1 in Hz; [|exact Hb].
  eapply Forall_lookup_1 in Hz; [|exact Hx]. done.
Qed.

Lemma buf_add_zero (hp : store) (b : nat) (k : Z) :
  zero_store hp -> buf_add hp b k 0 = hp.
Proof.
  intros Hz. unfold buf_add. apply alter_id_lookup. intros l Hl.
  destruct (l !! Z.to_nat k) as [x|] eqn:Hx.
  - rewrite (buf_get_zero hp b k l Hz Hl) by (by eapply lookup_lt_Some).
    apply list_insert_id. rewrite Hx. f_equal.
    eapply Forall_lookup_1 in Hz; [|exact Hl].
    eapply Forall_lookup_1 in Hz; [|exact Hx]. done.
  - apply list_insert_ge. by apply lookup_ge_None.
Qed.

Lemma buf_adds_zero (us : list (nat * Z * float)) (hp : store) :
  zero_store hp -> Forall (fun u => u.2 = 0%float) us -> buf_adds us hp = hp.
Proof.
  intros Hz Hus. unfold buf_adds.
  induction Hus as [|[[b k] x] us Hx _ IH]; [done|].
  cbn in Hx. subst x. cbn [foldl fst snd]. rewrite buf_add_zero by done. exact IH.
Qed.

Lemma buf_fill0_zero (hp : store) (b : nat) : zero_store hp -> buf_fill0 hp b = hp.
Proof.
  intros Hz. unfold buf_fill0. apply alter_id_lookup. intros l Hl.
  eapply Forall_lookup_1 in Hz; [|exact Hl]. clear Hl.
  induction l as [|x l IH]; [reflexivity|].
  apply Forall_cons in Hz as [-> Hz]. cbn [length replicate]. by rewrite IH.
Qed.

Lemma kernel_zero (s : Z) (cur nxt nxt2 : nat) (i : Z) :
  Forall (fun u => u.2 = 0%float) (kernel s cur nxt nxt2 i 0).
Proof.
  unfold kernel.
  destruct (s =? 1); [repeat constructor|].
  destruct (s =? 2); [repeat constructor|].
  destruct (s =? 3); [repeat constructor|].
  constructor.
Qed.

Lemma rotate_refs (eb : list nat) (r : nat) :
  length eb = 3%nat -> Forall (fun b => (b < 3)%nat) eb -> (r < 3)%nat ->
  length (rotate eb r) = 3%nat /\ Forall (fun b => (b < 3)%nat) (rotate eb r).
Proof.
  intros Hlen Heb Hr. unfold rotate.
  destruct eb as [|a eb]; [done|]. cbn [tail].
  apply Forall_cons in Heb as [_ Heb]. split.
  - rewrite length_app. cbn [length] in *. lia.
  - apply Forall_app. split; [done|]. by constructor.
Qed.

Lemma nth_refs (eb : list nat) (k : nat) :
  Forall (fun b => (b < 3)%nat) eb -> (nth k eb 0 < 3)%nat.
Proof.
  intros Heb. revert k. induction Heb as [|a eb Ha _ IH]; intros [|k]; cbn; auto; lia.
Qed.

Section Uniform.

Variable approx : float -> float -> float.

Lemma fresh_store_zero (w : Z) : zero_store (fresh_store w).
Proof. apply Forall_replicate, Forall_replicate. done. Qed.

Lemma mono_decide_flat px n s g dark w cur nxt nxt2 j i m :
  length px = 4%nat -> flat_pixel approx px s g dark ->
  0 <= m < Z.of_nat n -> (cur < 3)%nat -> 0 <= i < w ->
  mono_decide approx (concat (replicate n px)) s g cur nxt nxt2 j i (4 * m) (fresh_store w)
  = (dark, fresh_store w).
Proof.
  intros Hpx [Hdark Herr] Hm Hcur Hi. unfold mono_decide, mono_value, brightness in *.
  rewrite lum_uniform by done.
  assert (Hget : buf_get (fresh_store w) cur (i + 2) = 0%float).
  { assert (Hl : fresh_store w !! cur = Some (replicate (Z.to_nat (w + 4)) 0%float))
      by (apply lookup_replicate_2; lia).
    apply (buf_get_zero _ _ _ _ (fresh_store_zero w) Hl).
    rewrite length_replicate. lia. }
  rewrite Hget. cbv zeta in Hdark, Herr. rewrite Hdark.
  destruct (Z.ltb_spec 0 s) as [Hs|Hs]; [|done].
  rewrite Herr by done.
  rewrite buf_adds_zero; [done|apply fresh_store_zero|apply kernel_zero].
Qed.

Lemma row_decisions_flat px n s g dark w cur nxt nxt2 j (cols : list Z) : forall m,
  length px = 4%nat -> flat_pixel approx px s g dark ->
  0 <= m -> m + Z.of_nat (length cols) <= Z.of_nat n -> (cur < 3)%nat ->
  Forall (fun i => 0 <= i < w) cols ->
  row_decisions approx (concat (replicate n px)) s g cur nxt nxt2 j cols (4 * m) (fresh_store w)
  = (replicate (length cols) dark, 4 * (m + Z.of_nat (length cols)), fresh_store w).
Proof.
  induction cols as [|i cols IH]; intros m Hpx Hflat Hm Hmn Hcur Hcols.
  - cbn. do 2 f_equal. lia.
  - apply Forall_cons in Hcols as [Hi Hcols]. cbn [row_decisions length] in *.
    rewrite (mono_decide_flat px n s g dark w) by (done || lia).
    replace (4 * m + 4) with (4 * (m + 1)) by lia.
    rewrite IH by (done || lia). cbn [replicate]. do 2 f_equal. lia.
Qed.

Lemma rows_decisions_flat px n s g dark w (k : nat) : forall j m eb,
  length px = 4%nat -> flat_pixel approx px s g dark -> 0 <= w ->
  0 <= m -> m + Z.of_nat k * w <= Z.of_nat n ->
  length eb = 3%nat -> Forall (fun b => (b < 3)%nat) eb ->
  rows_decisions approx (concat (replicate n px)) w s g (seqZ j (Z.of_nat k)) (4 * m)
    (fresh_store w) eb
  = replicate k (replicate (Z.to_nat w) dark).
Proof.
  induction k as [|k IH]; intros j m eb Hpx Hflat Hw Hm Hmn Hlen Heb; [done|].
  rewrite seqZ_cons by lia.
  replace (Z.pred (Z.of_nat (S k))) with (Z.of_nat k) by lia.
  cbn [rows_decisions].
  rewrite buf_fill0_zero by apply fresh_store_zero.
  rewrite (row_decisions_flat px n s g dark w); try done.
  - rewrite length_seqZ. cbn [replicate]. f_equal.
    rewrite Z2Nat.id by lia.
    destruct (rotate_refs eb (nth 2 eb 0%nat)) as [Hlen' Heb']; try done.
    { by apply nth_refs. }
    apply IH; try done; nia.
  - rewrite length_seqZ. nia.
  - by apply nth_refs.
  - apply Forall_seqZ. lia.
Qed.

Lemma mono_decisions_flat px w h s g dark :
  length px = 4%nat -> flat_pixel approx px s g dark -> 0 <= w -> 0 <= h ->
  mono_decisions approx (uniform px w h) s g
  = replicate (Z.to_nat h) (replicate (Z.to_nat w) dark).
Proof.
  intros Hpx Hflat Hw Hh. unfold mono_decisions, uniform. cbn [data width height].
  replace h with (Z.of_nat (Z.to_nat h)) at 2 by lia.
  change 0 with (4 * 0) at 2.
  apply (rows_decisions_flat px (Z.to_nat (w * h)) s g dark w); try done; try lia.
  repeat constructor.
Qed.

End Uniform.

(** ** White and black *)

Lemma tbl2_elem (m : list (list Z)) (r c : Z) :
  tbl2 m r c = 0 \/ tbl2 m r c ∈ concat m.
Proof.
  unfold tbl2.
  destruct (m !! Z.to_nat r) as [row|] eqn:Hr; cbn; [|by left].
  destruct (row !! Z.to_nat c) as [x|] eqn:Hc; cbn; [|by left].
  right. apply list_elem_of_In, in_concat. exists row.
  split; apply list_elem_of_In; eapply list_elem_of_lookup_2; eauto.
Qed.

Lemma bayer_below_white (r c : Z) : (255 <? JS.num (tbl2 bayer r c))%float = false.
Proof.
  assert (Hall : forallb (fun t => negb (255 <? JS.num t)%float) (0 :: concat bayer) = true)
    by (vm_compute; reflexivity).
  assert (Hin : tbl2 bayer r c ∈ 0 :: concat bayer).
  { destruct (tbl2_elem bayer r c) as [->|H]; [left|by right]. }
  pose proof (forallb_elem _ _ _ Hall Hin) as H. cbv beta in H.
  by destruct (255 <? JS.num (tbl2 bayer r c))%float.
Qed.

Lemma bayer_above_black (j i : Z) :
  (0 <? JS.num (tbl2 bayer (Z.land j 7) (Z.land i 7)))%float = true.
Proof.
  rewrite !land_7.
  assert (Hall : forallb (fun r => forallb (fun c =>
            (0 <? JS.num (tbl2 bayer r c))%float) (seqZ 0 8)) (seqZ 0 8) = true)
    by (vm_compute; reflexivity).
  apply (forallb_seqZ _ _ _ (forallb_seqZ _ _ _ Hall (j mod 8)
           ltac:(pose proof (Z.mod_pos_bound j 8); lia)) (i mod 8)).
  pose proof (Z.mod_pos_bound i 8). lia.
Qed.

Section WhiteBlack.

Variable approx : float -> float -> float.

Lemma brightness_white : approx 1 1 = 1%float -> brightness approx white 0 1 = 255%float.
Proof.
  intros H. unfold brightness.
  change (lum white 0) with 1%float. change (1 / 1)%float with 1%float.
  change (JS.Math_pow approx 1 1) with (approx 1 1). by rewrite H.
Qed.

Lemma brightness_black : brightness approx black 0 1 = 0%float.
Proof. reflexivity. Qed.

Lemma white_flat (s : Z) : approx 1 1 = 1%float -> flat_pixel approx white s 1 false.
Proof.
  intros H. unfold flat_pixel. rewrite brightness_white by done.
  change (255 + 0)%float with 255%float.
  replace (if s =? 0 then 255%float else 255%float) with 255%float by (by destruct (s =? 0)).
  split; [|done].
  intros j i. unfold mono_threshold. destruct (s =? 0); [apply bayer_below_white|done].
Qed.

Lemma black_flat (s : Z) : flat_pixel approx black s 1 true.
Proof.
  unfold flat_pixel. rewrite brightness_black.
  change (0 + 0)%float with 0%float.
  replace (if s =? 0 then 0%float else 0%float) with 0%float by (by destruct (s =? 0)).
  split; [|done].
  intros j i. unfold mono_threshold. destruct (s =? 0); [apply bayer_above_black|done].
Qed.

Lemma gray_levels_flat (px : list Z) (w h : Z) (g : float) (v : Z) :
  length px = 4%nat -> 0 <= w -> 0 <= h ->
  (forall m, 0 <= m <= 16 ->
     quantize (thermal_at (JS.ToInt32 (brightness approx px 0 g))) m = v) ->
  gray_levels approx (uniform px w h) g
  = replicate (Z.to_nat h) (replicate (Z.to_nat w) v).
Proof.
  intros Hpx Hw Hh Hq. unfold gray_levels, uniform. cbn [data width height].
  assert (Hconst : forall (A : Type) (c : A) a n, (fun _ => c) <$> seqZ a n = replicate (Z.to_nat n) c).
  { intros A c a n. apply list_eq. intros k.
    rewrite list_lookup_fmap.
    destruct (decide (Z.of_nat k < n)) as [Hk|Hk].
    - rewrite lookup_seqZ_lt, lookup_replicate_2 by lia. done.
    - rewrite lookup_seqZ_ge by lia. symmetry. apply lookup_replicate_None. lia. }
  rewrite <- (Hconst _ (replicate (Z.to_nat w) v) 0 h).
  apply list_fmap_ext. intros k' j Hj. apply lookup_seqZ in Hj as [Hj' Hj].
  rewrite <- (Hconst _ v 0 w).
  apply list_fmap_ext. intros k i Hi. apply lookup_seqZ in Hi as [-> Hi].
  unfold gray_level, thermal_index, brightness.
  rewrite lum_uniform by (done || nia).
  apply Hq, tbl2_m4_range.
Qed.

End WhiteBlack.

Lemma bits_from_all_false (bs : list bool) : forall b,
  Forall (fun x => x = false) bs -> bits_from b bs = 0.
Proof.
  induction bs as [|x bs IH]; intros b Hbs; [done|].
  apply Forall_cons in Hbs as [-> Hbs]. cbn [bits_from]. by rewrite IH.
Qed.

Lemma chunks_elems {A} (P : A -> Prop) (fuel k : nat) : forall l : list A,
  Forall P l -> Forall (Forall P) (chunks fuel k l).
Proof.
  induction fuel as [|fuel IH]; intros l Hl; [constructor|].
  destruct l as [|x l]; [constructor|]. cbn [chunks]. constructor.
  - by apply Forall_take.
  - apply IH. by apply Forall_drop.
Qed.

Lemma mono_pack_row_light (n : nat) :
  Forall (fun x => x = 0) (pack_row 8 mono_upd emit_byte (replicate n false)).
Proof.
  rewrite mono_pack_row. apply Forall_fmap.
  eapply Forall_impl.
  - apply (chunks_elems (fun x => x = false)). by apply Forall_replicate.
  - intros c Hc. cbv beta. unfold compose, byte_of_bits.
    by rewrite bits_from_all_false.
Qed.

Lemma gray_pack_row_black (n : nat) :
  Forall (fun x => x = 0) (pack_row 2 gray_upd id (replicate n 0)).
Proof.
  rewrite gray_pack_row by (apply Forall_replicate; lia).
  apply Forall_fmap. eapply Forall_impl.
  - apply (chunks_elems (fun x => x = 0)). by apply Forall_replicate.
  - intros c Hc. cbv beta. unfold compose.
    destruct Hc as [|? ? -> Hc]; [done|]. destruct Hc as [|? ? -> _]; done.
Qed.

Lemma Forall_concat_replicate {A} (P : A -> Prop) (n : nat) (l : list A) :
  Forall P l -> Forall P (concat (replicate n l)).
Proof.
  intros Hl. induction n as [|n IH]; cbn [replicate concat]; [constructor|].
  by apply Forall_app.
Qed.

Lemma byte_of_bits_dark (bs : list bool) (c : Z) :
  (length bs <= 8)%nat -> Forall (fun x => x = true) bs ->
  0 <= c < Z.of_nat (length bs) ->
  Z.testbit (emit_byte (byte_of_bits bs)) (7 - c) = true.
Proof.
  intros Hlen Hbs Hc.
  assert (Hbit : forall c', 0 <= c' < Z.of_nat (length bs) ->
            Z.testbit (byte_of_bits bs) (7 - c') = true).
  { intros c' Hc'. rewrite byte_of_bits_testbit by lia.
    destruct (lookup_lt_is_Some_2 bs (Z.to_nat c')) as [x Hx]; [lia|].
    rewrite Hx. cbn. eapply Forall_lookup_1 in Hbs; [|exact Hx]. done. }
  unfold emit_byte. destruct (Z.eqb_spec (byte_of_bits bs) 16) as [Heq|_]; [|by apply Hbit].
  specialize (Hbit 0 ltac:(lia)). rewrite Heq in Hbit. done.
Qed.

Lemma byte_of_levels_nibble (vs : list Z) (v : Z) (c : Z) :
  0 <= v <= 15 -> Forall (fun x => x = v) vs -> (length vs <= 2)%nat ->
  0 <= c < Z.of_nat (length vs) ->
  (if c =? 0 then byte_of_levels vs / 16 else byte_of_levels vs mod 16) = v.
Proof.
  intros Hv Hvs Hlen Hc.
  destruct vs as [|hi [|lo [|? ?]]]; cbn [length] in *; try lia.
  - apply Forall_cons in Hvs as [-> _]. cbn [byte_of_levels].
    replace c with 0 by lia. cbn. Z.div_mod_to_equations. lia.
  - apply Forall_cons in Hvs as [-> Hvs]. apply Forall_cons in Hvs as [-> _].
    cbn [byte_of_levels].
    destruct (Z.eqb_spec c 0); Z.div_mod_to_equations; lia.
Qed.


Lemma replicate_row {A} (h w : nat) (x : A) (j : nat) (bs : list A) :
  replicate h (replicate w x) !! j = Some bs -> bs = replicate w x.
Proof. intros H. apply lookup_replicate in H as [-> _]. done. Qed.

Lemma slice_uniform {A} (P : A -> Prop) (l : list A) (per k : nat) :
  Forall P l -> Forall P (take per (drop k l)).
Proof. intros. by apply Forall_take, Forall_drop. Qed.



(** ** The rotation of the row buffers *)

(** [shift] followed by [push(nxt2)] re-inserts the reference that is
    already in the last slot: after one rotation the last two slots alias,
    after two rotations all three do, and the first buffer is lost. *)
Lemma rotate_aliases (a b c : nat) :
  rotate [a; b; c] c = [b; c; c] /\ rotate [b; c; c] c = [c; c; c].
Proof. done. Qed.

Lemma rotate_not_distinct (a b c : nat) : ~ NoDup (rotate [a; b; c] c).
Proof.
  cbn. intros H. apply NoDup_cons in H as [_ H]. apply NoDup_cons in H as [H _].
  apply H. left.
Qed.

Section Rotation.

Variable approx : float -> float -> float.

(** The references held by [errorBuffer] after the rows [rows] were
    processed, whatever the image. *)
Lemma errorBuffer_after_rows d w s g (rows : list Z) (st : mono_state) (a b c : nat) :
  (foldl (mono_row approx d w s g) (st, [a; b; c]) rows).2
  = match rows with
    | [] => [a; b; c]
    | [_] => [b; c; c]
    | _ :: _ :: _ => [c; c; c]
    end.
Proof.
  assert (Hstep : forall st eb j, (mono_row approx d w s g (st, eb) j).2
                                  = rotate eb (nth 2 eb 0%nat)) by done.
  assert (Hfix : forall rows st, (foldl (mono_row approx d w s g) (st, [c; c; c]) rows).2
                                 = [c; c; c]).
  { induction rows0 as [|j rows0 IH]; intros st0; [done|].
    cbn [foldl]. destruct (mono_row approx d w s g (st0, [c; c; c]) j) as [st1 eb1] eqn:E.
    pose proof (Hstep st0 [c; c; c] j) as H. rewrite E in H. cbn in H. subst eb1.
    apply IH. }
  destruct rows as [|j1 [|j2 rows]]; [done| |].
  - cbn [foldl]. apply Hstep.
  - cbn [foldl].
    destruct (mono_row approx d w s g (st, [a; b; c]) j1) as [st1 eb1] eqn:E1.
    pose proof (Hstep st [a; b; c] j1) as H1. rewrite E1 in H1. cbn in H1. subst eb1.
    destruct (mono_row approx d w s g (st1, [b; c; c]) j2) as [st2 eb2] eqn:E2.
    pose proof (Hstep st1 [b; c; c] j2) as H2. rewrite E2 in H2. cbn in H2. subst eb2.
    apply Hfix.
Qed.

End Rotation.

(** * Binary64 arithmetic: bounds through rounding *)

(** ** Digits *)

Lemma digits2_pos_bounds (p : positive) :
  2 ^ (Z.pos (digits2_pos p) - 1) <= Z.pos p < 2 ^ Z.pos (digits2_pos p).
Proof.
  induction p as [p IH|p IH|]; cbn [digits2_pos]; [| |cbn; lia].
  - rewrite Pos2Z.inj_succ.
    replace (Z.succ (Z.pos (digits2_pos p)) - 1) with (Z.succ (Z.pos (digits2_pos p) - 1)) by lia.
    rewrite !Z.pow_succ_r by lia. lia.
  - rewrite Pos2Z.inj_succ.
    replace (Z.succ (Z.pos (digits2_pos p)) - 1) with (Z.succ (Z.pos (digits2_pos p) - 1)) by lia.
    rewrite !Z.pow_succ_r by lia. lia.
Qed.

Lemma Zdigits2_bounds (m : Z) :
  0 < m -> 2 ^ (Zdigits2 m - 1) <= m < 2 ^ Zdigits2 m.
Proof. destruct m as [|p|p]; [lia| |lia]. intros _. apply digits2_pos_bounds. Qed.

Lemma Zdigits2_nonneg (m : Z) : 0 <= Zdigits2 m.
Proof. destruct m; cbn; lia. Qed.

Lemma Zdigits2_pos (m : Z) : 0 < m -> 0 < Zdigits2 m.
Proof. destruct m; cbn; lia. Qed.

(** Two powers of two compare like their exponents. *)
Lemma pow2_le (a b : Z) : 0 <= a <= b -> 2 ^ a <= 2 ^ b.
Proof. intros. apply Z.pow_le_mono_r; lia. Qed.

Lemma pow2_lt (a b : Z) : 0 <= a < b -> 2 ^ a < 2 ^ b.
Proof. intros. apply Z.pow_lt_mono_r; lia. Qed.

Lemma pow2_pos (a : Z) : 0 <= a -> 0 < 2 ^ a.
Proof. intros. apply Z.pow_pos_nonneg; lia. Qed.

(** The number of digits is determined by the binade. *)
Lemma Zdigits2_unique (m d : Z) :
  0 < d -> 2 ^ (d - 1) <= m < 2 ^ d -> Zdigits2 m = d.
Proof.
  intros Hd Hm. assert (0 < m) by (pose proof (pow2_pos (d - 1)); lia).
  pose proof (Zdigits2_bounds m H) as Hb. pose proof (Zdigits2_pos m H) as Hp.
  destruct (Z.lt_trichotomy (Zdigits2 m) d) as [Hlt|[Heq|Hgt]]; [|done|].
  - pose proof (pow2_le (Zdigits2 m) (d - 1)). lia.
  - pose proof (pow2_le d (Zdigits2 m - 1)). lia.
Qed.

(** ** Right shifts *)

Lemma shr_1_inv (N D : Z) (mrs : shr_record) :
  0 < D -> shr_inv N D mrs -> shr_inv N (2 * D) (shr_1 mrs).
Proof.
  intros HD (Hm & Hb & Hex). destruct mrs as [m r s]. cbn [shr_m shr_r shr_s] in *.
  unfold shr_1, shr_inv.
  destruct m as [|[p|p|]|p]; cbn [shr_m shr_r shr_s]; try lia;
    (split; [lia|]); (split; [lia|]); intros Hr Hs; try discriminate;
    apply orb_false_iff in Hs as [-> ->]; rewrite Hex by done; lia.
Qed.

Lemma pow2_xI (p : positive) : 2 ^ Z.pos p~1 = 2 ^ Z.pos p * (2 ^ Z.pos p * 2).
Proof.
  replace (Z.pos p~1) with (Z.pos p + (Z.pos p + 1)) by lia.
  rewrite !Z.pow_add_r by lia. done.
Qed.

Lemma pow2_xO (p : positive) : 2 ^ Z.pos p~0 = 2 ^ Z.pos p * 2 ^ Z.pos p.
Proof.
  replace (Z.pos p~0) with (Z.pos p + Z.pos p) by lia.
  rewrite !Z.pow_add_r by lia. done.
Qed.

Lemma iter_shr_1_inv (p : positive) : forall N D mrs,
  0 < D -> shr_inv N D mrs -> shr_inv N (2 ^ Z.pos p * D) (SpecFloat.iter_pos shr_1 p mrs).
Proof.
  induction p as [p IH|p IH|]; intros N D mrs HD H; cbn [SpecFloat.iter_pos].
  - replace (2 ^ Z.pos p~1 * D) with (2 ^ Z.pos p * (2 ^ Z.pos p * (2 * D)))
      by (rewrite pow2_xI; ring).
    apply IH; [pose proof (pow2_pos (Z.pos p)); nia|].
    apply IH; [lia|]. by apply shr_1_inv.
  - replace (2 ^ Z.pos p~0 * D) with (2 ^ Z.pos p * (2 ^ Z.pos p * D))
      by (rewrite pow2_xO; ring).
    apply IH; [pose proof (pow2_pos (Z.pos p)); nia|]. by apply IH.
  - change (2 ^ 1) with 2. by apply shr_1_inv.
Qed.

Lemma shr_inv_spec (N D : Z) (mrs : shr_record) (e n : Z) :
  0 < D -> shr_inv N D mrs ->
  let n' := Z.max n 0 in
  shr_inv N (2 ^ n' * D) (shr mrs e n).1 /\ (shr mrs e n).2 = e + n'.
Proof.
  intros HD H. unfold shr. destruct n as [|p|p]; cbn [fst snd].
  - change (Z.max 0 0) with 0. rewrite Z.pow_0_r, Z.mul_1_l, Z.add_0_r. done.
  - replace (Z.max (Z.pos p) 0) with (Z.pos p) by lia. split; [|done].
    by apply iter_shr_1_inv.
  - replace (Z.max (Z.neg p) 0) with 0 by lia.
    rewrite Z.pow_0_r, Z.mul_1_l, Z.add_0_r. done.
Qed.

Lemma shr_record_of_loc_inv (N D m : Z) (l : location) :
  0 <= m -> m * D <= N < (m + 1) * D -> (l = loc_Exact -> N = m * D) ->
  shr_inv N D (shr_record_of_loc m l).
Proof.
  intros Hm Hb Hex. unfold shr_inv.
  destruct l as [|[]]; cbn [shr_record_of_loc shr_m shr_r shr_s];
    (split; [done|]); (split; [done|]); intros; try discriminate.
  by apply Hex.
Qed.

Lemma shr_1_tight (N D : Z) (mrs : shr_record) :
  0 < D -> shr_tight N D mrs -> shr_tight N (2 * D) (shr_1 mrs).
Proof.
  intros HD [Hi Ht]. split; [by apply shr_1_inv|].
  destruct Hi as (Hm & Hb & _). destruct mrs as [m r s].
  cbn [shr_m shr_r shr_s] in *. unfold shr_1.
  destruct m as [|[p|p|]|p]; cbn [shr_m shr_r shr_s]; try lia;
    intros HN; try (exfalso; lia);
    (destruct Ht as [-> ->]; [lia|done]).
Qed.

Lemma iter_shr_1_tight (p : positive) : forall N D mrs,
  0 < D -> shr_tight N D mrs ->
  shr_tight N (2 ^ Z.pos p * D) (SpecFloat.iter_pos shr_1 p mrs).
Proof.
  induction p as [p IH|p IH|]; intros N D mrs HD H; cbn [SpecFloat.iter_pos].
  - replace (2 ^ Z.pos p~1 * D) with (2 ^ Z.pos p * (2 ^ Z.pos p * (2 * D)))
      by (rewrite pow2_xI; ring).
    apply IH; [pose proof (pow2_pos (Z.pos p)); nia|].
    apply IH; [lia|]. by apply shr_1_tight.
  - replace (2 ^ Z.pos p~0 * D) with (2 ^ Z.pos p * (2 ^ Z.pos p * D))
      by (rewrite pow2_xO; ring).
    apply IH; [pose proof (pow2_pos (Z.pos p)); nia|]. by apply IH.
  - change (2 ^ 1) with 2. by apply shr_1_tight.
Qed.

Lemma shr_tight_spec (N D : Z) (mrs : shr_record) (e n : Z) :
  0 < D -> shr_tight N D mrs ->
  shr_tight N (2 ^ Z.max n 0 * D) (shr mrs e n).1.
Proof.
  intros HD H. unfold shr. destruct n as [|p|p]; cbn [fst snd].
  - change (Z.max 0 0) with 0. by rewrite Z.pow_0_r, Z.mul_1_l.
  - replace (Z.max (Z.pos p) 0) with (Z.pos p) by lia.
    by apply iter_shr_1_tight.
  - replace (Z.max (Z.neg p) 0) with 0 by lia.
    by rewrite Z.pow_0_r, Z.mul_1_l.
Qed.

Lemma shr_record_of_loc_tight (N D m : Z) (l : location) :
  0 <= m -> m * D <= N < (m + 1) * D -> (l = loc_Exact <-> N = m * D) ->
  shr_tight N D (shr_record_of_loc m l).
Proof.
  intros Hm Hb Hex. split; [apply shr_record_of_loc_inv; tauto|].
  intros HN. assert (l = loc_Exact) as ->; [|done].
  apply Hex. by destruct l as [|[]].
Qed.

(** ** Rounding to binary64 *)

Lemma fexp_b64_eq (e : Z) : fexp 53 1024 e = Z.max (e - 53) (-1074).
Proof. reflexivity. Qed.

Lemma pow2_split (a b : Z) : 0 <= a -> 0 <= b -> 2 ^ (a + b) = 2 ^ a * 2 ^ b.
Proof. intros. by rewrite Z.pow_add_r. Qed.

(** The first shift of the rounding brings an aligned mantissa in canonical
    position and keeps the quotient invariant. *)
Lemma shr_fexp_first (N D mx ex : Z) (lx : location) :
  0 < D -> 0 <= mx -> mx * D <= N < (mx + 1) * D ->
  (lx = loc_Exact <-> N = mx * D) ->
  ex <= fexp 53 1024 (Zdigits2 mx + ex) ->
  let n := fexp 53 1024 (Zdigits2 mx + ex) - ex in
  let '(mrs, e1) := shr_fexp 53 1024 mx ex lx in
  e1 = ex + n /\ 0 <= n
  /\ shr_tight N (2 ^ n * D) mrs
  /\ shaped (shr_m mrs) e1.
Proof.
  intros HD Hmx Hb Hex Hal n. unfold shr_fexp. fold n.
  assert (Hn : 0 <= n) by (unfold n; lia).
  assert (Hne : n = Z.max (Zdigits2 mx + ex - 53) (-1074) - ex) by reflexivity.
  clearbody n.
  pose proof (shr_tight_spec N D (shr_record_of_loc mx lx) ex n HD
                (shr_record_of_loc_tight N D mx lx Hmx Hb Hex)) as H1.
  pose proof (shr_inv_spec N D (shr_record_of_loc mx lx) ex n HD
                (shr_record_of_loc_inv N D mx lx Hmx Hb ltac:(tauto))) as [_ H2].
  pose proof (shr_inv_spec mx 1 (shr_record_of_loc mx lx) ex n ltac:(lia)
                (shr_record_of_loc_inv mx 1 mx lx Hmx ltac:(lia) ltac:(lia))) as [H3 _].
  cbv zeta in *. replace (Z.max n 0) with n in * by lia.
  destruct (shr (shr_record_of_loc mx lx) ex n) as [mrs e1]. cbn [fst snd] in *.
  split; [done|]. split; [done|]. split; [done|].
  destruct H3 as (Hm1 & Hb1 & _). rewrite Z.mul_1_r in Hb1.
  set (m1 := shr_m mrs) in *. subst e1.
  pose proof (pow2_pos n Hn) as Hpn.
  unfold shaped. clear Hal.
  destruct (Z.eq_dec mx 0) as [->|Hmx0].
  - assert (m1 = 0) by nia. cbn [Zdigits2] in *. lia.
  - pose proof (Zdigits2_bounds mx ltac:(lia)) as Hd.
    pose proof (Zdigits2_pos mx ltac:(lia)) as Hdp.
    set (d := Zdigits2 mx) in *.
    split; [lia|].
    destruct (Z.le_gt_cases (-1074) (d + ex - 53)) as [Hnorm|Hsub].
    + assert (Hnd : n = d - 53) by lia.
      assert (E1 : 2 ^ d = 2 ^ 53 * 2 ^ n).
      { rewrite <- pow2_split by lia. f_equal. lia. }
      assert (E2 : 2 ^ (d - 1) = 2 ^ 52 * 2 ^ n).
      { rewrite <- pow2_split by lia. f_equal. lia. }
      split; [nia|]. left. nia.
    + assert (Hnd : d - 52 <= n) by lia.
      assert (E1 : 2 ^ d <= 2 ^ 52 * 2 ^ n).
      { rewrite <- pow2_split by lia. apply pow2_le. lia. }
      assert (Hlt : m1 < 2 ^ 52) by nia.
      split; [lia|]. right. lia.
Qed.

Lemma round_nearest_even_spec (mrs : shr_record) :
  let m2 := round_nearest_even (shr_m mrs) (loc_of_shr_record mrs) in
  (m2 = shr_m mrs \/ m2 = shr_m mrs + 1)
  /\ (m2 = shr_m mrs + 1 -> ~ (shr_r mrs = false /\ shr_s mrs = false)).
Proof.
  destruct mrs as [m [] []]; cbn [loc_of_shr_record round_nearest_even shr_m shr_r shr_s].
  - split; [by right|]. intros _ [? _]. discriminate.
  - destruct (Z.even m); (split; [auto|]); intros H [? _]; discriminate.
  - split; [by left|]. lia.
  - split; [by left|]. lia.
Qed.

(** The second shift only repairs a mantissa that the rounding carried to
    2^53. *)
Lemma shr_fexp_second (m1 m2 e1 : Z) :
  shaped m1 e1 -> m2 = m1 \/ m2 = m1 + 1 ->
  let '(mrs, e3) := shr_fexp 53 1024 m2 e1 loc_Exact in
  shaped (shr_m mrs) e3 /\ e1 <= e3 /\ shr_m mrs * 2 ^ (e3 - e1) = m2.
Proof.
  intros (He & Hm & Hs) Hm2. unfold shr_fexp.
  destruct (Z.eq_dec m2 (2 ^ 53)) as [Hc|Hc].
  - subst m2. change (Zdigits2 (2 ^ 53)) with 54. rewrite fexp_b64_eq.
    replace (Z.max (54 + e1 - 53) (-1074) - e1) with 1 by lia.
    cbn [shr shr_record_of_loc SpecFloat.iter_pos shr_1 shr_m].
    change (2 ^ 53) with 9007199254740992. cbn [shr_1 shr_m].
    unfold shaped. replace (e1 + 1 - e1) with 1 by lia. cbn. lia.
  - assert (Hm2' : 0 <= m2 < 2 ^ 53) by lia.
    assert (Hn : fexp 53 1024 (Zdigits2 m2 + e1) - e1 <= 0).
    { rewrite fexp_b64_eq. destruct (Z.eq_dec m2 0) as [->|H0]; [cbn; lia|].
      pose proof (Zdigits2_bounds m2 ltac:(lia)) as Hd.
      assert (Zdigits2 m2 <= 53); [|lia].
      destruct (Z.le_gt_cases (Zdigits2 m2) 53) as [|Hgt]; [done|].
      pose proof (pow2_le 53 (Zdigits2 m2 - 1) ltac:(lia)). lia. }
    unfold shr. destruct (fexp 53 1024 (Zdigits2 m2 + e1) - e1) as [|p|p] eqn:E; try lia;
      cbn [shr_record_of_loc shr_m]; rewrite Z.sub_diag, Z.pow_0_r;
      (split; [unfold shaped; lia|lia]).
Qed.

(** Rounding is monotone against canonical numbers: the rounding of a
    quotient [N / D * 2 ^ ex] stays on the same side of every canonical
    number [mY * 2 ^ eY] as the quotient itself.  Values are compared as
    integers, in units of [2 ^ - K]. *)
Lemma binary_round_aux_sandwich (N D mx ex : Z) (lx : location) (K : Z) :
  0 < D -> 0 <= mx -> mx * D <= N < (mx + 1) * D ->
  (lx = loc_Exact <-> N = mx * D) ->
  ex <= fexp 53 1024 (Zdigits2 mx + ex) ->
  1074 <= K -> 0 <= ex + K ->
  exists m e, shaped m e
    /\ binary_round_aux 53 1024 false mx ex lx = SF_of m e
    /\ (forall mY eY, shaped mY eY ->
          N * 2 ^ (ex + K) <= D * (mY * 2 ^ (eY + K)) ->
          m * 2 ^ (e + K) <= mY * 2 ^ (eY + K))
    /\ (forall mY eY, shaped mY eY ->
          D * (mY * 2 ^ (eY + K)) <= N * 2 ^ (ex + K) ->
          mY * 2 ^ (eY + K) <= m * 2 ^ (e + K)).
Proof.
  intros HD Hmx Hb Hex Hal HK HexK.
  pose proof (shr_fexp_first N D mx ex lx HD Hmx Hb Hex Hal) as H1.
  cbv zeta in H1. unfold binary_round_aux.
  set (n := fexp 53 1024 (Zdigits2 mx + ex) - ex) in *. clearbody n.
  destruct (shr_fexp 53 1024 mx ex lx) as [mrs e1].
  destruct H1 as (-> & Hn & Hinv & Hsh).
  pose proof (round_nearest_even_spec mrs) as [Hm2 Hup]. cbv zeta in Hm2, Hup.
  set (m2 := round_nearest_even (shr_m mrs) (loc_of_shr_record mrs)) in *.
  clearbody m2.
  pose proof (shr_fexp_second (shr_m mrs) m2 (ex + n) Hsh Hm2) as H2.
  destruct (shr_fexp 53 1024 m2 (ex + n) loc_Exact) as [mrs3 e3].
  destruct H2 as (Hsh3 & He3 & Hv).
  destruct Hinv as [(Hm1 & Hb1 & _) Htight].
  set (m1 := shr_m mrs) in *. clearbody m1.
  set (m3 := shr_m mrs3) in *.
  exists m3, e3. split; [done|]. split.
  { reflexivity. }
  clearbody m3.
  set (e1 := ex + n) in *.
  set (u := 2 ^ (e1 + K)).
  assert (Hu : 0 < u) by (apply pow2_pos; unfold e1; lia).
  assert (Hval : m3 * 2 ^ (e3 + K) = m2 * u).
  { unfold u. replace (e3 + K) with (e3 - e1 + (e1 + K)) by lia.
    rewrite pow2_split by (unfold e1; lia). rewrite <- Hv. ring. }
  assert (Hscale : 2 ^ n * 2 ^ (ex + K) = u).
  { unfold u, e1. rewrite <- pow2_split by lia. f_equal. lia. }
  set (X := N * 2 ^ (ex + K)) in *.
  assert (HX : m1 * D * u <= X < (m1 + 1) * D * u).
  { unfold X. rewrite <- Hscale. pose proof (pow2_pos (ex + K) HexK). nia. }
  assert (HXup : m2 = m1 + 1 -> m1 * D * u < X).
  { intros Hc. specialize (Hup Hc).
    assert (N <> m1 * (2 ^ n * D)) by (intros HN; by apply Hup, Htight).
    unfold X. rewrite <- Hscale. pose proof (pow2_pos (ex + K) HexK). nia. }
  assert (Hfar : forall mY eY, shaped mY eY -> eY < e1 ->
                  mY * 2 ^ (eY + K) < m1 * u).
  { intros mY eY (HeY & HmY & _) Hlt.
    destruct Hsh as (_ & _ & [Hbig|Hsub]); [|lia].
    assert (2 * 2 ^ (eY + K) <= u).
    { unfold u. change 2 with (2 ^ 1) at 1. rewrite <- pow2_split by lia.
      apply pow2_le. lia. }
    pose proof (pow2_pos (eY + K) ltac:(lia)). nia. }
  assert (Hnear : forall mY eY, -1074 <= eY -> e1 <= eY ->
                  mY * 2 ^ (eY + K) = mY * 2 ^ (eY - e1) * u).
  { intros mY eY HeY Hle. unfold u.
    replace (eY + K) with (eY - e1 + (e1 + K)) at 1 by lia.
    rewrite pow2_split by (unfold e1; lia). ring. }
  rewrite Hval. split.
  - intros mY eY HshY Hle.
    destruct (Z.lt_ge_cases eY e1) as [Hlt|Hge].
    + pose proof (Hfar mY eY HshY Hlt). destruct Hm2 as [->| ->].
      * nia.
      * specialize (HXup eq_refl). nia.
    + destruct HshY as (HeY & _). rewrite (Hnear mY eY HeY Hge) in *.
      set (y := mY * 2 ^ (eY - e1)) in *. clearbody y.
      destruct Hm2 as [->| ->].
      * nia.
      * specialize (HXup eq_refl). assert (m1 < y) by nia. nia.
  - intros mY eY HshY Hle.
    destruct (Z.lt_ge_cases eY e1) as [Hlt|Hge].
    + pose proof (Hfar mY eY HshY Hlt). destruct Hm2 as [->| ->]; nia.
    + destruct HshY as (HeY & _). rewrite (Hnear mY eY HeY Hge) in *.
      set (y := mY * 2 ^ (eY - e1)) in *. clearbody y.
      assert (y < m1 + 1) by nia.
      destruct Hm2 as [->| ->]; nia.
Qed.



(** ** Non-negative binary64 values *)

Lemma valid_shaped (s : bool) (m : positive) (e : Z) :
  valid_binary (S754_finite s m e) = true ->
  shaped (Z.pos m) e /\ e <= 971.
Proof.
  cbn [valid_binary]. unfold bounded, canonical_mantissa.
  intros [H1 H2]%andb_true_iff. apply Z.eqb_eq in H1. apply Z.leb_le in H2.
  change (emax - prec) with 971 in H2.
  change (Z.pos (digits2_pos m)) with (Zdigits2 (Z.pos m)) in H1.
  rewrite fexp_b64_eq in H1.
  pose proof (Zdigits2_bounds (Z.pos m) ltac:(lia)) as Hd.
  pose proof (Zdigits2_pos (Z.pos m) ltac:(lia)) as Hdp.
  set (d := Zdigits2 (Z.pos m)) in *. clearbody d.
  split; [|lia]. unfold shaped. split; [lia|].
  assert (d <= 53) by lia.
  pose proof (pow2_le d 53 ltac:(lia)).
  split; [lia|].
  destruct (Z.eq_dec d 53) as [->|]; [left; change (53 - 1) with 52 in Hd; lia|right; lia].
Qed.

Lemma FV_nonneg (x : spec_float) : 0 <= FV x.
Proof.
  destruct x as [| | |[] m e]; cbn [FV]; lia.
Qed.

(** Every canonical non-negative number is the value of a pair in canonical
    position. *)
Lemma fin_shaped (Y : spec_float) (K : Z) :
  fin Y -> 1074 <= K ->
  exists mY eY, shaped mY eY /\ eY <= 971
    /\ mY * 2 ^ (eY + K) = FV Y * 2 ^ (K - 1074).
Proof.
  intros HY HK. destruct Y as [s| | |[] m e]; try done.
  - exists 0, (-1074). unfold shaped. cbn [FV]. lia.
  - destruct HY as [Hs He]. exists (Z.pos m), e. split; [done|]. split; [done|].
    cbn [FV]. destruct Hs as (? & _).
    replace (e + K) with (e + 1074 + (K - 1074)) by lia.
    rewrite pow2_split by lia. ring.
Qed.

Lemma SF_of_fin (m e : Z) :
  shaped m e -> e <= 971 -> fin (SF_of m e) /\ FV (SF_of m e) = m * 2 ^ (e + 1074).
Proof.
  intros Hs He. unfold SF_of. destruct m as [|p|p].
  - done.
  - destruct (Z.leb_spec e 971); [|lia]. done.
  - destruct Hs as (_ & ? & _). lia.
Qed.

Lemma rounds_upper (K X D : Z) (R Y : spec_float) :
  rounds K X D R -> 1074 <= K -> fin Y ->
  X <= D * (FV Y * 2 ^ (K - 1074)) ->
  fin R /\ FV R <= FV Y.
Proof.
  intros (m & e & Hs & -> & Hup & _) HK HY HX.
  destruct (fin_shaped Y K HY HK) as (mY & eY & HsY & HeY & EY).
  specialize (Hup mY eY HsY). rewrite EY in Hup. specialize (Hup HX).
  pose proof (pow2_pos (K - 1074) ltac:(lia)) as Hp.
  assert (He : e <= 971).
  { destruct (Z.le_gt_cases e 971) as [|Hgt]; [done|exfalso].
    destruct Hs as (_ & _ & [Hbig|]); [|lia].
    destruct HsY as (HeY' & HmY & _).
    assert (2 * 2 ^ (eY + K) <= 2 ^ (e + K)).
    { change 2 with (2 ^ 1) at 1. rewrite <- pow2_split by lia. apply pow2_le. lia. }
    pose proof (pow2_pos (eY + K) ltac:(lia)). rewrite <- EY in Hup. nia. }
  destruct (SF_of_fin m e Hs He) as [Hf Hv]. split; [done|]. rewrite Hv.
  destruct Hs as (? & _).
  replace (e + K) with (e + 1074 + (K - 1074)) in Hup by lia.
  rewrite pow2_split in Hup by lia. nia.
Qed.

Lemma rounds_lower (K X D : Z) (R Y : spec_float) :
  rounds K X D R -> 1074 <= K -> fin Y -> fin R ->
  D * (FV Y * 2 ^ (K - 1074)) <= X ->
  FV Y <= FV R.
Proof.
  intros (m & e & Hs & -> & _ & Hlo) HK HY HR HX.
  destruct (fin_shaped Y K HY HK) as (mY & eY & HsY & HeY & EY).
  specialize (Hlo mY eY HsY). rewrite EY in Hlo. specialize (Hlo HX).
  pose proof (pow2_pos (K - 1074) ltac:(lia)) as Hp.
  assert (He : e <= 971 \/ m = 0).
  { unfold SF_of in HR. destruct m; [by right|left|done].
    destruct (Z.leb_spec e 971); [done|]. done. }
  assert (Hv : FV (SF_of m e) = m * 2 ^ (e + 1074)).
  { destruct He as [He| ->]; [by apply SF_of_fin|done]. }
  rewrite Hv. destruct Hs as (? & _).
  replace (e + K) with (e + 1074 + (K - 1074)) in Hlo by lia.
  rewrite pow2_split in Hlo by lia. nia.
Qed.

(** A rounding is never negative and never NaN. *)
Lemma rounds_sign (K X D : Z) (R : spec_float) :
  rounds K X D R -> fin R \/ R = S754_infinity false.
Proof.
  intros (m & e & Hs & -> & _). unfold SF_of. destruct m as [|p|p].
  - by left.
  - destruct (Z.leb_spec e 971); [left|by right]. done.
  - destruct Hs as (_ & ? & _). lia.
Qed.

(** ** The four operations on non-negative numbers *)

Lemma FV_finite (m : positive) (e : Z) :
  -1074 <= e -> 0 < FV (S754_finite false m e).
Proof. intros. cbn [FV]. pose proof (pow2_pos (e + 1074)). nia. Qed.

Lemma Zdigits2_ge (m d : Z) : 0 <= d -> 2 ^ d <= m -> d < Zdigits2 m.
Proof.
  intros Hd Hm. pose proof (pow2_pos d Hd).
  pose proof (Zdigits2_bounds m ltac:(lia)) as [_ Hlt].
  destruct (Z.lt_ge_cases d (Zdigits2 m)) as [|Hge]; [done|].
  pose proof (pow2_le (Zdigits2 m) d (conj (Zdigits2_nonneg m) Hge)). lia.
Qed.

(** The product of two canonical mantissas is aligned for rounding. *)
Lemma mul_aligned (mx my : positive) (ex ey : Z) :
  shaped (Z.pos mx) ex -> shaped (Z.pos my) ey ->
  ex + ey <= fexp 53 1024 (Zdigits2 (Z.pos (mx * my)) + (ex + ey)).
Proof.
  intros (Hex & Hmx & Hsx) (Hey & Hmy & Hsy). rewrite fexp_b64_eq, Pos2Z.inj_mul.
  destruct Hsx as [Hbx|Hbx], Hsy as [Hby|Hby]; try lia.
  - pose proof (Zdigits2_ge (Z.pos mx * Z.pos my) 104 ltac:(lia)
                  ltac:(change (2 ^ 104) with (2 ^ 52 * 2 ^ 52); nia)). lia.
  - pose proof (Zdigits2_ge (Z.pos mx * Z.pos my) 52 ltac:(lia) ltac:(nia)). lia.
  - pose proof (Zdigits2_ge (Z.pos mx * Z.pos my) 52 ltac:(lia) ltac:(nia)). lia.
Qed.

Lemma SFmul_rounds (mx my : positive) (ex ey : Z) :
  shaped (Z.pos mx) ex -> shaped (Z.pos my) ey ->
  rounds 2148
    (FV (S754_finite false mx ex) * FV (S754_finite false my ey)) 1
    (SFmul 53 1024 (S754_finite false mx ex) (S754_finite false my ey)).
Proof.
  intros Hx Hy. cbn [SFmul xorb FV].
  destruct (binary_round_aux_sandwich (Z.pos (mx * my)) 1 (Z.pos (mx * my))
              (ex + ey) loc_Exact 2148) as (m & e & Hs & HR & Hup & Hlo);
    try lia; try (split; (lia || done)).
  { by apply mul_aligned. }
  { destruct Hx as (? & _), Hy as (? & _). lia. }
  exists m, e. split; [done|]. split; [done|].
  assert (E : Z.pos (mx * my) * 2 ^ (ex + ey + 2148)
              = Z.pos mx * 2 ^ (ex + 1074) * (Z.pos my * 2 ^ (ey + 1074))).
  { destruct Hx as (? & _), Hy as (? & _).
    replace (ex + ey + 2148) with (ex + 1074 + (ey + 1074)) by lia.
    rewrite pow2_split by lia. rewrite Pos2Z.inj_mul. ring. }
  rewrite <- E. done.
Qed.

Lemma iter_xO (d m : positive) : Z.pos (Pos.iter xO m d) = Z.pos m * 2 ^ Z.pos d.
Proof.
  revert m. induction d as [d IH|d IH|]; intros m; cbn [Pos.iter].
  - rewrite Pos2Z.inj_xO, !IH, pow2_xI. ring.
  - rewrite !IH, pow2_xO. ring.
  - rewrite Pos2Z.inj_xO. change (2 ^ 1) with 2. ring.
Qed.

Lemma shl_align_spec (m : positive) (e e' : Z) :
  let '(m', e'') := shl_align m e e' in
  e'' = Z.min e e' /\ Z.pos m' = Z.pos m * 2 ^ (e - e'').
Proof.
  unfold shl_align. destruct (e' - e) as [|d|d] eqn:E.
  - replace (Z.min e e') with e by lia. rewrite Z.sub_diag. lia.
  - replace (Z.min e e') with e by lia. rewrite Z.sub_diag. lia.
  - replace (Z.min e e') with e' by lia. split; [done|].
    rewrite iter_xO. f_equal. f_equal. lia.
Qed.

Lemma Zdigits2_shift (m k : Z) :
  0 < m -> 0 <= k -> Zdigits2 (m * 2 ^ k) = Zdigits2 m + k.
Proof.
  intros Hm Hk. pose proof (Zdigits2_bounds m Hm) as Hd.
  pose proof (Zdigits2_pos m Hm) as Hp. pose proof (pow2_pos k Hk).
  apply Zdigits2_unique; [lia|].
  replace (Zdigits2 m + k - 1) with (Zdigits2 m - 1 + k) by lia.
  rewrite !pow2_split by lia. nia.
Qed.

(** Normalisation of a positive integer mantissa. *)
Lemma binary_round_rounds (m : positive) (e : Z) :
  -1074 <= e ->
  rounds 1074 (Z.pos m * 2 ^ (e + 1074)) 1 (binary_round 53 1024 false m e).
Proof.
  intros He. unfold binary_round.
  pose proof (shl_align_spec m e (fexp 53 1024 (Z.pos (digits2_pos m) + e))) as Hsh.
  destruct (shl_align m e (fexp 53 1024 (Z.pos (digits2_pos m) + e))) as [m' e'].
  destruct Hsh as [He' Hm'].
  change (Z.pos (digits2_pos m)) with (Zdigits2 (Z.pos m)) in He'.
  assert (He'' : -1074 <= e' <= e) by (rewrite fexp_b64_eq in He'; lia).
  destruct (binary_round_aux_sandwich (Z.pos m') 1 (Z.pos m') e' loc_Exact 1074)
    as (mr & er & Hs & HR & Hup & Hlo); try lia; try (split; (lia || done)).
  { rewrite Hm', Zdigits2_shift by lia.
    replace (Zdigits2 (Z.pos m) + (e - e') + e') with (Zdigits2 (Z.pos m) + e) by lia.
    lia. }
  exists mr, er. split; [done|]. split; [done|].
  assert (E : Z.pos m' * 2 ^ (e' + 1074) = Z.pos m * 2 ^ (e + 1074)).
  { rewrite Hm'. replace (e + 1074) with (e - e' + (e' + 1074)) by lia.
    rewrite (pow2_split (e - e') (e' + 1074)) by lia. ring. }
  rewrite <- E. done.
Qed.

Lemma shl_align_value (m : positive) (e e' : Z) :
  -1074 <= e' <= e ->
  Z.pos (shl_align m e e').1 * 2 ^ (e' + 1074) = Z.pos m * 2 ^ (e + 1074).
Proof.
  intros He. pose proof (shl_align_spec m e e') as H.
  destruct (shl_align m e e') as [m' e'']. destruct H as [-> Hm]. cbn [fst].
  rewrite Hm. replace (Z.min e e') with e' by lia.
  replace (e + 1074) with (e - e' + (e' + 1074)) by lia.
  rewrite (pow2_split (e - e') (e' + 1074)) by lia. ring.
Qed.

Lemma SFadd_rounds (mx my : positive) (ex ey : Z) :
  -1074 <= ex -> -1074 <= ey ->
  rounds 1074
    (FV (S754_finite false mx ex) + FV (S754_finite false my ey)) 1
    (SFadd 53 1024 (S754_finite false mx ex) (S754_finite false my ey)).
Proof.
  intros Hx Hy. cbn [SFadd cond_Zopp FV]. cbv zeta.
  set (ez := Z.min ex ey).
  rewrite <- (shl_align_value mx ex ez), <- (shl_align_value my ey ez) by lia.
  rewrite <- Z.mul_add_distr_r.
  set (a := (shl_align mx ex ez).1). set (b := (shl_align my ey ez).1).
  change (Z.pos a + Z.pos b) with (Z.pos (a + b)). cbn [binary_normalize].
  apply binary_round_rounds. lia.
Qed.

Lemma SFsub_rounds (mx my : positive) (ex ey : Z) :
  -1074 <= ex -> -1074 <= ey ->
  FV (S754_finite false my ey) < FV (S754_finite false mx ex) ->
  rounds 1074
    (FV (S754_finite false mx ex) - FV (S754_finite false my ey)) 1
    (SFsub 53 1024 (S754_finite false mx ex) (S754_finite false my ey)).
Proof.
  intros Hx Hy. cbn [SFsub cond_Zopp FV]. cbv zeta.
  set (ez := Z.min ex ey).
  rewrite <- (shl_align_value mx ex ez), <- (shl_align_value my ey ez) by lia.
  rewrite <- Z.mul_sub_distr_r.
  set (a := (shl_align mx ex ez).1). set (b := (shl_align my ey ez).1).
  intros Hlt. pose proof (pow2_pos (ez + 1074) ltac:(lia)).
  destruct (Z.pos a - Z.pos b) as [|p|p] eqn:E; try nia.
  cbn [binary_normalize]. apply binary_round_rounds. lia.
Qed.

Lemma SFsub_equal (mx my : positive) (ex ey : Z) :
  -1074 <= ex -> -1074 <= ey ->
  FV (S754_finite false my ey) = FV (S754_finite false mx ex) ->
  SFsub 53 1024 (S754_finite false mx ex) (S754_finite false my ey)
  = S754_zero false.
Proof.
  intros Hx Hy. cbn [SFsub cond_Zopp FV]. cbv zeta.
  set (ez := Z.min ex ey).
  rewrite <- (shl_align_value mx ex ez), <- (shl_align_value my ey ez) by lia.
  set (a := (shl_align mx ex ez).1). set (b := (shl_align my ey ez).1).
  intros Heq. pose proof (pow2_pos (ez + 1074) ltac:(lia)).
  destruct (Z.pos a - Z.pos b) as [|p|p] eqn:E; try nia. done.
Qed.

Lemma new_location_exact (nb k : Z) : new_location nb k = loc_Exact <-> k = 0.
Proof.
  unfold new_location, new_location_even, new_location_odd.
  destruct (Z.even nb), (Z.eqb_spec k 0); split; done.
Qed.

Lemma fexp_b64_mono (a b : Z) : a <= b -> fexp 53 1024 a <= fexp 53 1024 b.
Proof. rewrite !fexp_b64_eq. lia. Qed.

(** The quotient prepared by the division: enough digits, an exact location
    only for an exact quotient, and aligned for rounding. *)
Lemma SFdiv_core_binary_spec (mx my : positive) (ex ey : Z) :
  let '(q, e', l) := SFdiv_core_binary 53 1024 (Z.pos mx) ex (Z.pos my) ey in
  exists s, 0 <= s /\ e' = ex - ey - s /\ Z.min (-1074) (ex - ey) <= e'
    /\ 0 <= q
    /\ q * Z.pos my <= Z.pos mx * 2 ^ s < (q + 1) * Z.pos my
    /\ (l = loc_Exact <-> Z.pos mx * 2 ^ s = q * Z.pos my)
    /\ e' <= fexp 53 1024 (Zdigits2 q + e').
Proof.
  unfold SFdiv_core_binary.
  set (d1 := Zdigits2 (Z.pos mx)). set (d2 := Zdigits2 (Z.pos my)).
  set (e' := Z.min (fexp 53 1024 (d1 + ex - (d2 + ey))) (ex - ey)).
  set (s := ex - ey - e').
  assert (Hs : 0 <= s) by (unfold s, e'; lia).
  set (m' := match s with Z.pos _ => Z.shiftl (Z.pos mx) s | 0 => Z.pos mx | Z.neg _ => 0 end).
  assert (Hm' : m' = Z.pos mx * 2 ^ s).
  { unfold m'. destruct s as [|p|p]; [lia| |lia]. by rewrite Z.shiftl_mul_pow2. }
  clearbody m'.
  pose proof (Z_div_mod m' (Z.pos my) ltac:(lia)) as Hdiv.
  destruct (Z.div_eucl m' (Z.pos my)) as [q r]. destruct Hdiv as [Hq Hr].
  exists s. split; [done|]. split; [unfold s; lia|].
  split; [unfold s, e'; rewrite fexp_b64_eq; lia|].
  pose proof (pow2_pos s Hs) as Hps.
  assert (Hm0 : 0 < m') by nia.
  assert (Hq0 : 0 <= q).
  { destruct (Z.lt_ge_cases q 0); [exfalso; nia|done]. }
  split; [done|]. split; [nia|]. split.
  { rewrite new_location_exact. split; nia. }
  pose proof (Zdigits2_bounds (Z.pos mx) ltac:(lia)) as Hd1. fold d1 in Hd1.
  pose proof (Zdigits2_bounds (Z.pos my) ltac:(lia)) as Hd2. fold d2 in Hd2.
  pose proof (Zdigits2_pos (Z.pos mx) ltac:(lia)) as Hp1. fold d1 in Hp1.
  pose proof (Zdigits2_pos (Z.pos my) ltac:(lia)) as Hp2. fold d2 in Hp2.
  assert (Hdq : d1 + s - d2 <= Zdigits2 q).
  { destruct (Z.le_gt_cases (d1 + s - d2) 0) as [|Hpos];
      [pose proof (Zdigits2_nonneg q); lia|].
    assert (2 ^ (d1 + s - d2 - 1) <= q).
    { assert (E1 : 2 ^ (d1 - 1 + s) = 2 ^ (d1 + s - d2 - 1) * 2 ^ d2).
      { rewrite <- pow2_split by lia. f_equal. lia. }
      assert (E2 : 2 ^ (d1 - 1 + s) = 2 ^ (d1 - 1) * 2 ^ s) by (apply pow2_split; lia).
      pose proof (pow2_pos (d1 + s - d2 - 1) ltac:(lia)).
      nia. }
    pose proof (Zdigits2_ge q (d1 + s - d2 - 1) ltac:(lia) ltac:(done)). lia. }
  transitivity (fexp 53 1024 (d1 + ex - (d2 + ey))); [unfold e'; lia|].
  apply fexp_b64_mono. unfold s in Hdq. lia.
Qed.

Lemma SFdiv_rounds (mx my : positive) (ex ey : Z) (K : Z) :
  -1074 <= ex <= 971 -> -1074 <= ey <= 971 -> 2148 <= K ->
  rounds K (Z.pos mx * 2 ^ (ex - ey + K)) (Z.pos my)
    (SFdiv 53 1024 (S754_finite false mx ex) (S754_finite false my ey)).
Proof.
  intros Hx Hy HK. cbn [SFdiv xorb].
  pose proof (SFdiv_core_binary_spec mx my ex ey) as H.
  destruct (SFdiv_core_binary 53 1024 (Z.pos mx) ex (Z.pos my) ey) as [[q e'] l].
  destruct H as (s & Hs & -> & Hlow & Hq & Hb & Hl & Hal).
  destruct (binary_round_aux_sandwich (Z.pos mx * 2 ^ s) (Z.pos my) q
              (ex - ey - s) l K) as (m & e & Hsh & HR & Hup & Hlo);
    try lia; try done.
  exists m, e. split; [done|]. split; [done|].
  assert (E : Z.pos mx * 2 ^ s * 2 ^ (ex - ey - s + K)
              = Z.pos mx * 2 ^ (ex - ey + K)).
  { replace (ex - ey + K) with (s + (ex - ey - s + K)) by lia.
    rewrite (pow2_split s (ex - ey - s + K)) by lia. ring. }
  rewrite <- E. done.
Qed.

(** *** Bounds carried through the operations *)

(** Each lemma bounds the rounded result by the canonical numbers [lo] and
    [hi] that bound the exact result. *)

Lemma fin_zero (s : bool) : fin (S754_zero s).
Proof. done. Qed.

Lemma fin_finite_inv (s : bool) (m : positive) (e : Z) :
  fin (S754_finite s m e) -> s = false /\ shaped (Z.pos m) e /\ e <= 971.
Proof. destruct s; [done|]. intros []. done. Qed.

Lemma SFmul_between (x y lo hi : spec_float) (xl xh yl yh : Z) :
  fin x -> fin y -> xl <= FV x <= xh -> yl <= FV y <= yh ->
  fin lo -> fin hi -> 0 <= xl -> 0 <= yl ->
  FV lo * 2 ^ 1074 <= xl * yl -> xh * yh <= FV hi * 2 ^ 1074 ->
  fin (SFmul 53 1024 x y) /\ FV lo <= FV (SFmul 53 1024 x y) <= FV hi.
Proof.
  intros Hx Hy Bx By Hlo Hhi Hxl Hyl Cl Ch.
  pose proof (FV_nonneg hi) as Hh0.
  assert (Hz : xl * yl = 0 -> FV lo <= 0) by (intros E; rewrite E in Cl; lia).
  destruct x as [sx| | |sx mx ex], y as [sy| | |sy my ey]; try done.
  - cbn [SFmul FV fin] in *. split; [done|]. split; [|lia]. apply Hz. nia.
  - apply fin_finite_inv in Hy as (-> & _). cbn [SFmul FV fin] in *.
    split; [done|]. split; [|lia]. apply Hz. nia.
  - apply fin_finite_inv in Hx as (-> & _). cbn [SFmul FV fin] in *.
    split; [done|]. split; [|lia]. apply Hz. nia.
  - apply fin_finite_inv in Hx as (-> & Hsx & Hex).
    apply fin_finite_inv in Hy as (-> & Hsy & Hey).
    pose proof (SFmul_rounds mx my ex ey Hsx Hsy) as Hr.
    set (X := FV (S754_finite false mx ex)) in *.
    set (Y := FV (S754_finite false my ey)) in *.
    set (R := SFmul 53 1024 _ _) in *. clearbody X Y R.
    destruct (rounds_upper 2148 (X * Y) 1 R hi Hr ltac:(lia) Hhi) as [Hf Hu].
    { change (2148 - 1074) with 1074. nia. }
    split; [done|]. split; [|done].
    apply (rounds_lower 2148 (X * Y) 1 R lo Hr ltac:(lia) Hlo Hf).
    change (2148 - 1074) with 1074. nia.
Qed.

Lemma SFadd_between (x y lo hi : spec_float) (xl xh yl yh : Z) :
  fin x -> fin y -> xl <= FV x <= xh -> yl <= FV y <= yh ->
  fin lo -> fin hi ->
  FV lo <= xl + yl -> xh + yh <= FV hi ->
  fin (SFadd 53 1024 x y) /\ FV lo <= FV (SFadd 53 1024 x y) <= FV hi.
Proof.
  intros Hx Hy Bx By Hlo Hhi Cl Ch.
  destruct x as [sx| | |sx mx ex], y as [sy| | |sy my ey]; try done.
  - cbn [FV] in *. destruct sx, sy; cbn [SFadd FV fin]; (split; [done|lia]).
  - cbn [SFadd]. cbn [FV] in Bx. split; [done|lia].
  - cbn [SFadd]. cbn [FV] in By. split; [done|lia].
  - apply fin_finite_inv in Hx as (-> & Hsx & Hex).
    apply fin_finite_inv in Hy as (-> & Hsy & Hey).
    pose proof (SFadd_rounds mx my ex ey ltac:(by destruct Hsx)
                  ltac:(by destruct Hsy)) as Hr.
    set (X := FV (S754_finite false mx ex)) in *.
    set (Y := FV (S754_finite false my ey)) in *.
    set (R := SFadd 53 1024 _ _) in *. clearbody X Y R.
    destruct (rounds_upper 1074 (X + Y) 1 R hi Hr ltac:(lia) Hhi) as [Hf Hu].
    { change (1074 - 1074) with 0. lia. }
    split; [done|]. split; [|done].
    apply (rounds_lower 1074 (X + Y) 1 R lo Hr ltac:(lia) Hlo Hf).
    change (1074 - 1074) with 0. lia.
Qed.

Lemma SFsub_between (x y lo hi : spec_float) (xl xh yl yh : Z) :
  fin x -> fin y -> xl <= FV x <= xh -> yl <= FV y <= yh ->
  fin lo -> fin hi -> yh <= xl ->
  FV lo <= xl - yh -> xh - yl <= FV hi ->
  fin (SFsub 53 1024 x y) /\ FV lo <= FV (SFsub 53 1024 x y) <= FV hi.
Proof.
  intros Hx Hy Bx By Hlo Hhi Hord Cl Ch.
  pose proof (FV_nonneg hi) as Hh0.
  destruct x as [sx| | |sx mx ex], y as [sy| | |sy my ey]; try done.
  - cbn [FV] in *. destruct sx, sy; cbn [SFsub FV fin]; (split; [done|lia]).
  - apply fin_finite_inv in Hy as (-> & Hsy & _).
    pose proof (FV_finite my ey ltac:(by destruct Hsy)). cbn [FV] in Bx. lia.
  - cbn [SFsub]. cbn [FV] in By. split; [done|lia].
  - apply fin_finite_inv in Hx as (-> & Hsx & Hex).
    apply fin_finite_inv in Hy as (-> & Hsy & Hey).
    assert (Hex' : -1074 <= ex) by (by destruct Hsx).
    assert (Hey' : -1074 <= ey) by (by destruct Hsy).
    destruct (Z.eq_dec (FV (S754_finite false my ey)) (FV (S754_finite false mx ex)))
      as [Heq|Hne].
    + rewrite (SFsub_equal mx my ex ey Hex' Hey' Heq). cbn [FV fin].
      split; [done|lia].
    + pose proof (SFsub_rounds mx my ex ey Hex' Hey' ltac:(lia)) as Hr.
      set (X := FV (S754_finite false mx ex)) in *.
      set (Y := FV (S754_finite false my ey)) in *.
      set (R := SFsub 53 1024 _ _) in *. clearbody X Y R.
      destruct (rounds_upper 1074 (X - Y) 1 R hi Hr ltac:(lia) Hhi) as [Hf Hu].
      { change (1074 - 1074) with 0. lia. }
      split; [done|]. split; [|done].
      apply (rounds_lower 1074 (X - Y) 1 R lo Hr ltac:(lia) Hlo Hf).
      change (1074 - 1074) with 0. lia.
Qed.

Lemma SFdiv_between (x y lo hi : spec_float) (xl xh yl yh : Z) :
  fin x -> fin y -> xl <= FV x <= xh -> yl <= FV y <= yh ->
  fin lo -> fin hi -> 0 <= xl -> 0 < yl ->
  FV lo * yh <= xl * 2 ^ 1074 -> xh * 2 ^ 1074 <= FV hi * yl ->
  fin (SFdiv 53 1024 x y) /\ FV lo <= FV (SFdiv 53 1024 x y) <= FV hi.
Proof.
  intros Hx Hy Bx By Hlo Hhi Hxl Hyl Cl Ch.
  pose proof (FV_nonneg hi) as Hh0. pose proof (FV_nonneg lo) as Hl0.
  destruct y as [sy| | |sy my ey]; try done; [cbn [FV] in By; lia|].
  apply fin_finite_inv in Hy as (-> & Hsy & Hey).
  destruct x as [sx| | |sx mx ex]; try done.
  - cbn [SFdiv FV fin] in *. split; [done|]. split; [nia|lia].
  - apply fin_finite_inv in Hx as (-> & Hsx & Hex).
    assert (Hex' : -1074 <= ex) by (by destruct Hsx).
    assert (Hey' : -1074 <= ey) by (by destruct Hsy).
    pose proof (SFdiv_rounds mx my ex ey 3222 ltac:(lia) ltac:(lia) ltac:(lia)) as Hr.
    set (R := SFdiv 53 1024 _ _) in *. clearbody R.
    cbn [FV] in Bx, By.
    pose proof (pow2_pos (ey + 1074) ltac:(lia)) as Hpy.
    pose proof (pow2_pos (ex + 1074) ltac:(lia)) as Hpx.
    assert (E : Z.pos mx * 2 ^ (ex - ey + 3222) * 2 ^ (ey + 1074)
                = Z.pos mx * 2 ^ (ex + 1074) * 2 ^ 1074 * 2 ^ 2148).
    { rewrite <- !Z.mul_assoc. f_equal. rewrite <- !pow2_split by lia. f_equal. lia. }
    change (3222 - 1074) with 2148 in *.
    pose proof (pow2_pos 2148 ltac:(lia)) as HpK.
    set (PX := Z.pos mx * 2 ^ (ex + 1074)) in *.
    set (PY := Z.pos my * 2 ^ (ey + 1074)) in *.
    set (T := 2 ^ 1074) in *. set (U := 2 ^ 2148) in *.
    set (W := 2 ^ (ey + 1074)) in *.
    set (XX := Z.pos mx * 2 ^ (ex - ey + 3222)) in *.
    assert (EPY : PY = Z.pos my * W) by done.
    assert (EU : 2 ^ (3222 - 1074) = U) by reflexivity.
    assert (HpT : 0 < T) by (by apply pow2_pos).
    clearbody PX PY T U W XX.
    destruct (rounds_upper 3222 XX (Z.pos my) R hi Hr ltac:(lia) Hhi) as [Hf Hu].
    { rewrite EU.
      apply (Z.mul_le_mono_pos_r _ _ W Hpy).
      rewrite E. replace (Z.pos my * (FV hi * U) * W) with (FV hi * PY * U) by (rewrite EPY; ring).
      apply Z.mul_le_mono_nonneg_r; [lia|]. nia. }
    split; [done|]. split; [|done].
    apply (rounds_lower 3222 XX (Z.pos my) R lo Hr ltac:(lia) Hlo Hf).
    rewrite EU.
    apply (Z.mul_le_mono_pos_r _ _ W Hpy).
    rewrite E. replace (Z.pos my * (FV lo * U) * W) with (FV lo * PY * U) by (rewrite EPY; ring).
    apply Z.mul_le_mono_nonneg_r; [lia|]. nia.
Qed.



(** ** Bounds on JavaScript numbers *)

Lemma nonnegb_fin (x : float) : nonnegb x = true -> fin (Prim2SF x).
Proof.
  unfold nonnegb. pose proof (Prim2SF_valid x) as Hv.
  destruct (Prim2SF x) as [s| | |[] m e]; try done. intros _.
  by apply valid_shaped in Hv.
Qed.

Lemma within_between (lo hi x : float) :
  within lo hi x = true -> between (fv lo) (fv hi) x.
Proof.
  unfold within. intros [[H1 H2]%andb_true_iff H3]%andb_true_iff.
  split; [by apply nonnegb_fin|lia].
Qed.

Lemma between_weaken (lo hi lo' hi' : Z) (x : float) :
  between lo hi x -> lo' <= lo -> hi <= hi' -> between lo' hi' x.
Proof. intros [H1 H2] ? ?. split; [done|lia]. Qed.

Lemma fv_nonneg (x : float) : 0 <= fv x.
Proof. apply FV_nonneg. Qed.

Lemma mul_between (x y flo fhi : float) (xl xh yl yh : Z) :
  between xl xh x -> between yl yh y ->
  nonnegb flo = true -> nonnegb fhi = true -> 0 <= xl -> 0 <= yl ->
  fv flo * 2 ^ 1074 <= xl * yl -> xh * yh <= fv fhi * 2 ^ 1074 ->
  between (fv flo) (fv fhi) (x * y).
Proof.
  intros [Hx Bx] [Hy By] Hlo Hhi ? ? ? ?. unfold between, fv in *. rewrite mul_spec.
  apply (SFmul_between _ _ (Prim2SF flo) (Prim2SF fhi) xl xh yl yh);
    auto using nonnegb_fin.
Qed.

Lemma add_between (x y flo fhi : float) (xl xh yl yh : Z) :
  between xl xh x -> between yl yh y ->
  nonnegb flo = true -> nonnegb fhi = true ->
  fv flo <= xl + yl -> xh + yh <= fv fhi ->
  between (fv flo) (fv fhi) (x + y).
Proof.
  intros [Hx Bx] [Hy By] Hlo Hhi ? ?. unfold between, fv in *. rewrite add_spec.
  apply (SFadd_between _ _ (Prim2SF flo) (Prim2SF fhi) xl xh yl yh);
    auto using nonnegb_fin.
Qed.

Lemma sub_between (x y flo fhi : float) (xl xh yl yh : Z) :
  between xl xh x -> between yl yh y ->
  nonnegb flo = true -> nonnegb fhi = true -> yh <= xl ->
  fv flo <= xl - yh -> xh - yl <= fv fhi ->
  between (fv flo) (fv fhi) (x - y).
Proof.
  intros [Hx Bx] [Hy By] Hlo Hhi ? ? ?. unfold between, fv in *. rewrite sub_spec.
  apply (SFsub_between _ _ (Prim2SF flo) (Prim2SF fhi) xl xh yl yh);
    auto using nonnegb_fin.
Qed.

Lemma div_between (x y flo fhi : float) (xl xh yl yh : Z) :
  between xl xh x -> between yl yh y ->
  nonnegb flo = true -> nonnegb fhi = true -> 0 <= xl -> 0 < yl ->
  fv flo * yh <= xl * 2 ^ 1074 -> xh * 2 ^ 1074 <= fv fhi * yl ->
  between (fv flo) (fv fhi) (x / y).
Proof.
  intros [Hx Bx] [Hy By] Hlo Hhi ? ? ? ?. unfold between, fv in *. rewrite div_spec.
  apply (SFdiv_between _ _ (Prim2SF flo) (Prim2SF fhi) xl xh yl yh);
    auto using nonnegb_fin.
Qed.

(** *** Comparisons *)

Lemma SFcompare_fin (x y : spec_float) :
  fin x -> fin y -> SFcompare x y = Some (FV x ?= FV y).
Proof.
  intros Hx Hy.
  destruct x as [sx| | |sx mx ex], y as [sy| | |sy my ey]; try done.
  - apply fin_finite_inv in Hy as (-> & Hsy & _).
    pose proof (FV_finite my ey ltac:(by destruct Hsy)) as Hp.
    cbn [SFcompare]. f_equal. symmetry. apply Z.compare_lt_iff. cbn [FV] in *. lia.
  - apply fin_finite_inv in Hx as (-> & Hsx & _).
    pose proof (FV_finite mx ex ltac:(by destruct Hsx)) as Hp.
    cbn [SFcompare]. f_equal. symmetry. apply Z.compare_gt_iff. cbn [FV] in *. lia.
  - apply fin_finite_inv in Hx as (-> & (Hex & Hmx & Hbx) & _).
    apply fin_finite_inv in Hy as (-> & (Hey & Hmy & Hby) & _).
    cbn [SFcompare FV]. f_equal.
    pose proof (pow2_pos (ex + 1074) ltac:(lia)) as Hpx.
    pose proof (pow2_pos (ey + 1074) ltac:(lia)) as Hpy.
    destruct (Z.compare_spec ex ey) as [->|Hlt|Hgt].
    + change (Pos.compare_cont Eq mx my) with (Z.pos mx ?= Z.pos my).
      apply Zmult_compare_compat_r. lia.
    + symmetry. apply Z.compare_lt_iff.
      assert (2 * 2 ^ (ex + 1074) <= 2 ^ (ey + 1074)).
      { change 2 with (2 ^ 1) at 1. rewrite <- pow2_split by lia.
        apply pow2_le. lia. }
      nia.
    + symmetry. apply Z.compare_gt_iff.
      assert (2 * 2 ^ (ey + 1074) <= 2 ^ (ex + 1074)).
      { change 2 with (2 ^ 1) at 1. rewrite <- pow2_split by lia.
        apply pow2_le. lia. }
      nia.
Qed.

Lemma ltb_fv (x y : float) :
  fin (Prim2SF x) -> fin (Prim2SF y) -> (x <? y)%float = (fv x <? fv y).
Proof.
  intros Hx Hy. rewrite ltb_spec. unfold SFltb, fv.
  rewrite (SFcompare_fin _ _ Hx Hy). unfold Z.ltb.
  by destruct (FV (Prim2SF x) ?= FV (Prim2SF y)).
Qed.

Lemma leb_fv (x y : float) :
  fin (Prim2SF x) -> fin (Prim2SF y) -> (x <=? y)%float = (fv x <=? fv y).
Proof.
  intros Hx Hy. rewrite leb_spec. unfold SFleb, fv.
  rewrite (SFcompare_fin _ _ Hx Hy). unfold Z.leb.
  by destruct (FV (Prim2SF x) ?= FV (Prim2SF y)).
Qed.

Lemma eqb_fv (x y : float) :
  fin (Prim2SF x) -> fin (Prim2SF y) -> (x =? y)%float = (fv x =? fv y).
Proof.
  intros Hx Hy. rewrite FloatAxioms.eqb_spec. unfold SFeqb, fv.
  rewrite (SFcompare_fin _ _ Hx Hy).
  destruct (Z.compare_spec (FV (Prim2SF x)) (FV (Prim2SF y))),
    (Z.eqb_spec (FV (Prim2SF x)) (FV (Prim2SF y))); try done; lia.
Qed.

(** *** Truncation *)

Lemma trunc_fv (x : float) :
  fin (Prim2SF x) -> JS.trunc x = Some (fv x / 2 ^ 1074).
Proof.
  unfold JS.trunc, fv. destruct (Prim2SF x) as [s| | |s m e]; try done.
  intros (-> & (He & _) & _)%fin_finite_inv. cbn [FV]. f_equal.
  destruct (Z.leb_spec 0 e) as [Hpos|Hneg].
  - rewrite pow2_split by lia. rewrite Z.mul_assoc, Z.div_mul; [done|].
    pose proof (pow2_pos 1074). lia.
  - replace 1074 with (e + 1074 + - e) at 2 by lia.
    rewrite (pow2_split (e + 1074) (- e)) by lia.
    rewrite (Z.mul_comm (2 ^ (e + 1074))).
    rewrite Z.div_mul_cancel_r; [done| |].
    + pose proof (pow2_pos (- e)). lia.
    + pose proof (pow2_pos (e + 1074)). lia.
Qed.



(** ** The range of the luminance *)

Ltac closed :=
  lazymatch goal with
  | |- _ <= _ => apply Z.leb_le; vm_compute; reflexivity
  | |- _ < _ => apply Z.ltb_lt; vm_compute; reflexivity
  | |- _ = true => vm_compute; reflexivity
  end.

Lemma fv_0 : fv 0 = 0.
Proof. reflexivity. Qed.

Lemma between_const (c : float) : nonnegb c = true -> between (fv c) (fv c) c.
Proof. intros H. split; [by apply nonnegb_fin|lia]. Qed.

Lemma weighted_between (c hi hi' : float) (z : Z) :
  forallb (weighted_ok c hi hi') (seqZ 0 256) = true -> 0 <= z <= 255 ->
  between (fv 0) (fv hi) (JS.num z * c)
  /\ (z <= 254 -> between (fv 0) (fv hi') (JS.num z * c)).
Proof.
  intros Hall Hz.
  pose proof (forallb_seqZ _ _ _ Hall z ltac:(lia)) as H.
  unfold weighted_ok in H. apply andb_true_iff in H as [H1 H2].
  split; [by apply within_between|]. intros Hle.
  apply orb_true_iff in H2 as [H2|H2]; [apply Z.ltb_lt in H2; lia|].
  by apply within_between.
Qed.

(** The weighted sum of three channels never exceeds 255. *)
Lemma weighted_sum_between (r g b : Z) :
  0 <= r <= 255 -> 0 <= g <= 255 -> 0 <= b <= 255 ->
  between (fv 0) (fv 255)
    (JS.num r * 0.29891 + JS.num g * 0.58661 + JS.num b * 0.11448).
Proof.
  intros Hr Hg Hb.
  destruct (weighted_between 0.29891 76.25 76 r ltac:(closed) Hr) as [R1 R2].
  destruct (weighted_between 0.58661 149.625 149 g ltac:(closed) Hg) as [G1 G2].
  destruct (weighted_between 0.11448 29.25 29.125 b ltac:(closed) Hb) as [B1 B2].
  destruct (Z.le_gt_cases r 254) as [Hr'|Hr'].
  { specialize (R2 Hr').
    apply (between_weaken (fv 0) (fv 254.875)); [|lia|closed].
    apply (add_between _ _ 0 254.875 (fv 0) (fv 225.625) (fv 0) (fv 29.25));
      [|exact B1|closed..].
    apply (add_between _ _ 0 225.625 (fv 0) (fv 76) (fv 0) (fv 149.625));
      [exact R2|exact G1|closed..]. }
  destruct (Z.le_gt_cases g 254) as [Hg'|Hg'].
  { specialize (G2 Hg').
    apply (between_weaken (fv 0) (fv 254.5)); [|lia|closed].
    apply (add_between _ _ 0 254.5 (fv 0) (fv 225.25) (fv 0) (fv 29.25));
      [|exact B1|closed..].
    apply (add_between _ _ 0 225.25 (fv 0) (fv 76.25) (fv 0) (fv 149));
      [exact R1|exact G2|closed..]. }
  destruct (Z.le_gt_cases b 254) as [Hb'|Hb'].
  { specialize (B2 Hb').
    apply (add_between _ _ 0 255 (fv 0) (fv 225.875) (fv 0) (fv 29.125));
      [|exact B2|closed..].
    apply (add_between _ _ 0 225.875 (fv 0) (fv 76.25) (fv 0) (fv 149.625));
      [exact R1|exact G1|closed..]. }
  replace r with 255 by lia. replace g with 255 by lia. replace b with 255 by lia.
  apply within_between. closed.
Qed.

Lemma alpha_ok_all : forallb alpha_ok (seqZ 0 256) = true.
Proof. vm_compute. reflexivity. Qed.

(** Compositing over white and normalising keeps the luminance in [0, 1]. *)
Lemma composite_between (L : float) (a : Z) :
  between (fv 0) (fv 255) L -> 0 <= a <= 255 ->
  between (fv 0) (fv 1) ((L * JS.num a / 255 + 255 - JS.num a) / 255).
Proof.
  intros HL Ha.
  pose proof (forallb_seqZ _ _ _ alpha_ok_all a ltac:(lia)) as H.
  unfold alpha_ok in H. cbv zeta in H.
  repeat (apply andb_true_iff in H as [H ?]).
  repeat match goal with Hc : (_ <=? _) = true |- _ => apply Z.leb_le in Hc end.
  set (A := JS.num a) in *.
  assert (HA : between (fv A) (fv A) A) by (by apply between_const).
  assert (H255 : between (fv 255) (fv 255) 255) by (apply between_const; closed).
  pose proof (fv_nonneg A) as HA0.
  assert (Hx : between (fv 0) (fv (JS.num (255 * a))) (L * A)).
  { apply (mul_between _ _ 0 (JS.num (255 * a)) (fv 0) (fv 255) (fv A) (fv A));
      try done; rewrite ?fv_0; try lia; closed. }
  assert (Hy : between (fv 0) (fv A) (L * A / 255)).
  { apply (div_between _ _ 0 A (fv 0) (fv (JS.num (255 * a))) (fv 255) (fv 255));
      try done; rewrite ?fv_0; try lia; try closed. }
  assert (Hu : between (fv 255) (fv (JS.num (a + 255))) (L * A / 255 + 255)).
  { apply (add_between _ _ 255 (JS.num (a + 255)) (fv 0) (fv A) (fv 255) (fv 255));
      try done; rewrite ?fv_0; try lia; try closed. }
  assert (Ht : between (fv 0) (fv 255) (L * A / 255 + 255 - A)).
  { apply (sub_between _ _ 0 255 (fv 255) (fv (JS.num (a + 255))) (fv A) (fv A));
      try done; rewrite ?fv_0; try lia; try closed. }
  apply (div_between _ _ 0 1 (fv 0) (fv 255) (fv 255) (fv 255));
    try done; rewrite ?fv_0; try lia; try closed.
Qed.

Lemma channel_rd (d : list Z) (k : Z) :
  channel d k = true -> exists z, rd d k = JS.num z /\ 0 <= z <= 255.
Proof.
  unfold channel, rd. destruct (d !! Z.to_nat k) as [z|]; [|done].
  intros H. exists z. split; [done|lia].
Qed.

(** The luminance of a valid pixel is a number in [0, 1]. *)
Lemma lum_between (d : list Z) (p : Z) :
  valid_pixel d p = true -> between (fv 0) (fv 1) (lum d p).
Proof.
  unfold valid_pixel. intros H. repeat (apply andb_true_iff in H as [H ?]).
  destruct (channel_rd d p) as (r & Er & Hr); [done|].
  destruct (channel_rd d (p + 1)) as (g & Eg & Hg); [done|].
  destruct (channel_rd d (p + 2)) as (b & Eb & Hb); [done|].
  destruct (channel_rd d (p + 3)) as (a & Ea & Ha); [done|].
  unfold lum. rewrite Er, Eg, Eb, Ea.
  apply composite_between; [|done]. by apply weighted_sum_between.
Qed.



(** ** The range of the brightness *)

Lemma positive_cases (g : float) :
  (0 <? g)%float = true ->
  (exists m e, Prim2SF g = S754_finite false m e /\ shaped (Z.pos m) e /\ e <= 971)
  \/ Prim2SF g = S754_infinity false.
Proof.
  rewrite ltb_spec. change (Prim2SF 0) with (S754_zero false).
  pose proof (Prim2SF_valid g) as Hv. unfold SFltb.
  destruct (Prim2SF g) as [s|[]| |[] m e]; cbn [SFcompare]; try done.
  - by right.
  - intros _. left. exists m, e. split; [done|]. by apply valid_shaped in Hv.
Qed.

(** The exponent [1 / g] of a positive gamma. *)
Lemma exponent_nonneg (g : float) :
  (0 <? g)%float = true -> nonneg_or_inf (1 / g).
Proof.
  intros Hg. unfold nonneg_or_inf. rewrite div_spec.
  change (Prim2SF 1) with (S754_finite false 4503599627370496 (-52)).
  destruct (positive_cases g Hg) as [(m & e & -> & Hs & He)| ->].
  - eapply rounds_sign, (SFdiv_rounds _ _ _ _ 2148); [lia| |lia].
    destruct Hs as (? & _). lia.
  - left. done.
Qed.

Lemma fin_not_infinity (x : float) (s : bool) :
  fin (Prim2SF x) -> SFeqb (Prim2SF x) (S754_infinity s) = false.
Proof.
  unfold SFeqb. destruct (Prim2SF x) as [sx| | |[] m e]; try done;
    intros _; cbn [SFcompare]; by destruct s.
Qed.

Lemma fin_eqb_infinity (x : float) :
  fin (Prim2SF x) -> (x =? infinity)%float = false.
Proof. intros H. rewrite FloatAxioms.eqb_spec. by apply fin_not_infinity. Qed.

Lemma fin_eqb_neg_infinity (x : float) :
  fin (Prim2SF x) -> (x =? neg_infinity)%float = false.
Proof. intros H. rewrite FloatAxioms.eqb_spec. by apply fin_not_infinity. Qed.

Lemma fin_nonzero_positive (x : float) :
  fin (Prim2SF x) -> is_zero x = false -> (0 <? x)%float = true.
Proof.
  intros Hx. unfold is_zero.
  rewrite (eqb_fv x zero Hx ltac:(done)), (ltb_fv 0 x ltac:(done) Hx).
  change (fv zero) with 0. rewrite fv_0.
  pose proof (fv_nonneg x). intros Hz%Z.eqb_neq. apply Z.ltb_lt. lia.
Qed.

Lemma nonneg_or_inf_positive (x : float) :
  nonneg_or_inf x -> is_zero x = false -> (0 <? x)%float = true.
Proof.
  intros [Hx|Hx]; [by apply fin_nonzero_positive|].
  intros _. rewrite ltb_spec, Hx. done.
Qed.

Lemma nonneg_or_inf_finite (x : float) :
  nonneg_or_inf x -> (x =? infinity)%float = false ->
  fin (Prim2SF x) /\ (x <? infinity)%float = true.
Proof.
  rewrite FloatAxioms.eqb_spec, ltb_spec. intros [Hx|Hx].
  - intros _. split; [done|]. unfold SFltb.
    by destruct (Prim2SF x) as [sx| | |[] m e].
  - rewrite Hx. done.
Qed.

Lemma nonneg_or_inf_not_neg_infinity (x : float) :
  nonneg_or_inf x -> (x =? neg_infinity)%float = false.
Proof.
  intros [Hx|Hx]; [by apply fin_eqb_neg_infinity|].
  rewrite FloatAxioms.eqb_spec, Hx. done.
Qed.

Lemma abs_fin (x : float) :
  fin (Prim2SF x) -> fin (Prim2SF (abs x)) /\ fv (abs x) = fv x.
Proof.
  unfold fv. rewrite abs_spec.
  by destruct (Prim2SF x) as [sx| | |[] m e].
Qed.

Lemma is_nan_spec (x : float) : is_nan x = true -> Prim2SF x = S754_nan.
Proof.
  unfold is_nan. rewrite FloatAxioms.eqb_spec. unfold SFeqb.
  destruct (Prim2SF x) as [sx|[]| |[] m e]; cbn [SFcompare]; try done;
    rewrite Z.compare_refl; change (Pos.compare_cont Eq m m) with (m ?= m)%positive;
    by rewrite Pos.compare_refl.
Qed.

(** A float that compares within [0, 1] is a number between 0 and 1. *)
Lemma leb_between (x : float) :
  (0 <=? x)%float = true -> (x <=? 1)%float = true ->
  between (fv 0) (fv 1) x.
Proof.
  rewrite !leb_spec. intros H0 H1.
  assert (Hn : nonnegb x = true).
  { unfold nonnegb. change (Prim2SF 0) with (S754_zero false) in H0.
    change (Prim2SF 1) with (S754_finite false 4503599627370496 (-52)) in H1.
    destruct (Prim2SF x) as [sx|[]| |[] m e]; try done. }
  apply nonnegb_fin in Hn. split; [done|].
  rewrite <- leb_spec in H1. rewrite (leb_fv x 1 Hn (nonnegb_fin 1 eq_refl)) in H1.
  apply Z.leb_le in H1. rewrite fv_0. pose proof (fv_nonneg x). lia.
Qed.

(** [Math.pow] of a base in [0, 1] and a non-negative exponent is NaN or a
    number in [0, 1]: none of the exactly specified cases leaves the unit
    interval, and the approximated case is the engine's. *)
Lemma Math_pow_unit (approx : float -> float -> float) (b e : float) :
  approx_in_unit approx ->
  between (fv 0) (fv 1) b -> nonneg_or_inf e ->
  nan_or_between 1 (JS.Math_pow approx b e).
Proof.
  intros Happrox [Hb Bb] He. unfold JS.Math_pow.
  destruct (is_nan e) eqn:E1; [by left|].
  destruct (is_zero e) eqn:E2; [right; apply within_between; closed|].
  destruct (is_nan b) eqn:E3; [by left|].
  rewrite (fin_eqb_infinity b Hb), (fin_eqb_neg_infinity b Hb).
  rewrite (nonneg_or_inf_positive e He E2).
  rewrite (nonneg_or_inf_not_neg_infinity e He).
  destruct (is_zero b) eqn:E4.
  { destruct (get_sign b); [destruct (JS.is_odd_integral e)|];
      right; apply within_between; closed. }
  assert (Hle : (b <=? 1)%float = true).
  { rewrite (leb_fv b 1 Hb (nonnegb_fin 1 eq_refl)). apply Z.leb_le. lia. }
  destruct (e =? infinity)%float eqn:E5.
  { destruct (abs_fin b Hb) as [Ha Ea].
    rewrite (ltb_fv 1 (abs b) (nonnegb_fin 1 eq_refl) Ha), Ea.
    destruct (Z.ltb_spec (fv 1) (fv b)) as [|_]; [lia|].
    destruct (abs b =? 1)%float; [by left|].
    right. apply within_between. closed. }
  destruct ((b <? 0)%float && negb (JS.is_integral e)); [by left|].
  destruct (nonneg_or_inf_finite e He E5) as [Hfe Hlt].
  destruct (Happrox b e (fin_nonzero_positive b Hb E4) Hle
              (nonneg_or_inf_positive e He E2) Hlt) as [Hn|[H0 H1]].
  - left. by apply is_nan_spec.
  - right. by apply leb_between.
Qed.

Section Brightness.

Variable approx : float -> float -> float.
Hypothesis approx_ok : approx_in_unit approx.

(** The brightness of a valid pixel under a positive gamma is NaN or a
    number in [0, 255]. *)
Lemma brightness_range (d : list Z) (p : Z) (g : float) :
  valid_pixel d p = true -> (0 <? g)%float = true ->
  nan_or_between 255 (brightness approx d p g).
Proof.
  intros Hp Hg. unfold brightness.
  destruct (Math_pow_unit approx (lum d p) (1 / g) approx_ok
              (lum_between d p Hp) (exponent_nonneg g Hg)) as [Hn|Hb].
  - left. rewrite mul_spec, Hn. done.
  - right.
    apply (mul_between _ _ 0 255 (fv 0) (fv 1) (fv 255) (fv 255));
      try done; rewrite ?fv_0; try lia; try closed.
    apply between_const. closed.
Qed.

Lemma fv_255 : fv 255 = 255 * 2 ^ 1074.
Proof. vm_compute. reflexivity. Qed.

(** [x | 0] on a brightness: the integer part, between 0 and 255, and 0 on
    NaN. *)
Lemma ToInt32_brightness (x : float) :
  nan_or_between 255 x ->
  0 <= JS.ToInt32 x <= 255
  /\ (fin (Prim2SF x) -> JS.ToInt32 x = fv x / 2 ^ 1074).
Proof.
  unfold JS.ToInt32. intros [Hn|[Hf Hb]].
  - unfold JS.trunc. rewrite Hn. split; [done|]. done.
  - rewrite (trunc_fv x Hf). rewrite fv_0, fv_255 in Hb.
    pose proof (pow2_pos 1074 ltac:(lia)) as Hp.
    assert (0 <= fv x / 2 ^ 1074 <= 255).
    { split; [apply Z.div_pos; lia|].
      apply Z.div_le_upper_bound; lia. }
    rewrite toInt32_small by lia. done.
Qed.

(** The index of the table lookup is in bounds. *)
Lemma thermal_index_range (d : list Z) (p : Z) (g : float) :
  valid_pixel d p = true -> (0 <? g)%float = true ->
  0 <= thermal_index approx d p g <= 255.
Proof.
  intros Hp Hg. unfold thermal_index.
  by apply ToInt32_brightness, brightness_range.
Qed.

(** A strictly smaller brightness gives an index that is not larger. *)
Lemma thermal_index_mono (d : list Z) (p1 p2 : Z) (g : float) :
  valid_pixel d p1 = true -> valid_pixel d p2 = true ->
  (0 <? g)%float = true ->
  (brightness approx d p1 g <? brightness approx d p2 g)%float = true ->
  thermal_index approx d p1 g <= thermal_index approx d p2 g.
Proof.
  intros Hp1 Hp2 Hg Hlt. unfold thermal_index.
  pose proof (brightness_range d p1 g Hp1 Hg) as H1.
  pose proof (brightness_range d p2 g Hp2 Hg) as H2.
  set (b1 := brightness approx d p1 g) in *.
  set (b2 := brightness approx d p2 g) in *. clearbody b1 b2.
  assert (Hf : fin (Prim2SF b1) /\ fin (Prim2SF b2)).
  { destruct H1 as [Hn1|[Hf1 _]], H2 as [Hn2|[Hf2 _]]; try done;
      rewrite ltb_spec in Hlt; unfold SFltb in Hlt;
      rewrite ?Hn1, ?Hn2 in Hlt; try done.
    by destruct (Prim2SF b1). }
  destruct Hf as [Hf1 Hf2].
  rewrite (ltb_fv b1 b2 Hf1 Hf2) in Hlt. apply Z.ltb_lt in Hlt.
  rewrite (proj2 (ToInt32_brightness b1 H1) Hf1).
  rewrite (proj2 (ToInt32_brightness b2 H2) Hf2).
  apply Z.div_le_mono; [|lia]. by apply pow2_pos.
Qed.

End Brightness.

Lemma approx_unit_in_unit : approx_in_unit approx_unit.
Proof.
  intros b e Hb Hle He _. unfold approx_unit.
  destruct (e =? 1)%float; [right|by left]. split; [|done].
  rewrite ltb_spec in Hb. rewrite leb_spec. unfold SFltb, SFleb in *.
  by destruct (SFcompare (Prim2SF 0) (Prim2SF b)) as [[]|].
Qed.



(** ** The thermal table and the quantisation *)

Lemma thermal_at_Some (k : Z) :
  0 <= k <= 255 -> exists v, thermal_at k = Some v /\ 0 <= v <= 255.
Proof.
  intros Hk.
  assert (Hall : forallb (fun k => match thermal_at k with
                                   | Some v => (0 <=? v) && (v <=? 255)
                                   | None => false
                                   end) (seqZ 0 256) = true)
    by (vm_compute; reflexivity).
  pose proof (forallb_seqZ _ _ _ Hall k ltac:(lia)) as H. cbv beta in H.
  destruct (thermal_at k) as [v|]; [|done]. exists v. split; [done|lia].
Qed.

(** The table is monotonic non-decreasing. *)
Lemma thermal_monotone (k1 k2 v1 v2 : Z) :
  0 <= k1 -> k1 <= k2 ->
  thermal_at k1 = Some v1 -> thermal_at k2 = Some v2 -> v1 <= v2.
Proof.
  intros Hk1 Hle H1 H2.
  assert (Hk2 : k2 < 256).
  { unfold thermal_at in H2. destruct (k2 <? 0); [done|].
    apply lookup_lt_Some in H2. rewrite thermal_length in H2. lia. }
  assert (Hstep : forall k, 0 <= k < 255 ->
            match thermal_at k, thermal_at (k + 1) with
            | Some a, Some b => a <= b
            | _, _ => False
            end).
  { intros k Hk.
    assert (Hall : forallb (fun k => match thermal_at k, thermal_at (k + 1) with
                                     | Some a, Some b => a <=? b
                                     | _, _ => false
                                     end) (seqZ 0 255) = true)
      by (vm_compute; reflexivity).
    pose proof (forallb_seqZ _ _ _ Hall k ltac:(lia)) as H. cbv beta in H.
    destruct (thermal_at k), (thermal_at (k + 1)); try done. lia. }
  assert (Hn : forall n : nat, forall v, k1 + Z.of_nat n < 256 ->
            thermal_at (k1 + Z.of_nat n) = Some v -> v1 <= v).
  { induction n as [|n IH]; intros v Hb Hv.
    - rewrite Z.add_0_r, H1 in Hv. injection Hv as <-. lia.
    - pose proof (Hstep (k1 + Z.of_nat n) ltac:(lia)) as Hs.
      replace (k1 + Z.of_nat n + 1) with (k1 + Z.of_nat (S n)) in Hs by lia.
      rewrite Hv in Hs. destruct (thermal_at (k1 + Z.of_nat n)) as [a|]; [|done].
      specialize (IH a ltac:(lia) eq_refl). lia. }
  apply (Hn (Z.to_nat (k2 - k1))); [lia|].
  by replace (k1 + Z.of_nat (Z.to_nat (k2 - k1))) with k2 by lia.
Qed.

(** The quotient by 17 is computed exactly on the entries of the table. *)
Lemma quantize_Some (v m : Z) :
  v ∈ thermal ->
  quantize (Some v) m = v / 17 + (if m <? v mod 17 then 1 else 0).
Proof.
  intros Hv.
  assert (Hall : forallb (fun v =>
            (JS.ToInt32 (JS.num v / 17) =? v / 17) && (Z.rem v 17 =? v mod 17)
            && (0 <=? v)) thermal = true) by (vm_compute; reflexivity).
  pose proof (forallb_elem _ _ _ Hall Hv) as H. cbv beta in H.
  apply andb_true_iff in H as [[H1 H2]%andb_true_iff H3].
  apply Z.eqb_eq in H1, H2. unfold quantize. rewrite H1, H2.
  destruct (m <? v mod 17); lia.
Qed.

(** For a fixed dither-matrix entry the level follows the table index. *)
Lemma quantize_mono (k1 k2 m : Z) :
  0 <= k1 -> k1 <= k2 -> k2 <= 255 ->
  quantize (thermal_at k1) m <= quantize (thermal_at k2) m.
Proof.
  intros H1 H12 H2.
  destruct (thermal_at_Some k1 ltac:(lia)) as (v1 & E1 & Hv1).
  destruct (thermal_at_Some k2 ltac:(lia)) as (v2 & E2 & Hv2).
  pose proof (thermal_monotone k1 k2 v1 v2 H1 H12 E1 E2) as Hle.
  rewrite E1, E2.
  rewrite !quantize_Some by (eapply thermal_at_elem; eassumption).
  destruct (Z.ltb_spec m (v1 mod 17)), (Z.ltb_spec m (v2 mod 17));
    Z.div_mod_to_equations; lia.
Qed.

(** ** The nibbles of the packed output *)

Section Nibbles.

Variable approx : float -> float -> float.

Lemma gray_levels_lookup (imgdata : ImageData) (g : float) (j i : Z) (vs : list Z) :
  0 <= j < height imgdata -> 0 <= i < width imgdata ->
  gray_levels approx imgdata g !! Z.to_nat j = Some vs ->
  vs !! Z.to_nat i
  = Some (gray_level approx (data imgdata) g j i (4 * (j * width imgdata + i))).
Proof.
  intros Hj Hi. unfold gray_levels. rewrite list_lookup_fmap.
  rewrite (lookup_seqZ_lt 0 (height imgdata) (Z.to_nat j)) by lia.
  cbn [fmap option_fmap option_map]. intros [= <-].
  rewrite list_lookup_fmap.
  rewrite (lookup_seqZ_lt 0 (width imgdata) (Z.to_nat i)) by lia.
  rewrite !Z.add_0_l, !Z2Nat.id by lia. done.
Qed.

(** Each pixel's level is found back in its nibble of the output: the high
    nibble for an even column, the low nibble for an odd one. *)
Lemma toGrayImage_nibble (imgdata : ImageData) (g : float) (j i : Z) :
  1 <= width imgdata -> width imgdata + 1 < 2 ^ 31 ->
  0 <= j < height imgdata -> 0 <= i < width imgdata ->
  exists out byte,
    toGrayImage approx imgdata g = JS.Normal out
    /\ out !! Z.to_nat (j * ((width imgdata + 1) / 2) + i / 2) = Some byte
    /\ 0 <= byte < 256
    /\ (if Z.even i then Z.shiftr byte 4 else Z.land byte 15)
       = gray_level approx (data imgdata) g j i (4 * (j * width imgdata + i)).
Proof.
  intros Hw Hw' Hj Hi.
  set (w := width imgdata) in *.
  assert (Hk : 0 <= i / 2 < (w + 1) / 2) by (Z.div_mod_to_equations; lia).
  destruct (toGrayImage_byte approx imgdata g j (i / 2) Hw Hw' Hj Hk)
    as (out & vs & Hout & Hvs & Hlen & Hrange & Hbyte).
  fold w in Hlen, Hbyte.
  pose proof (gray_levels_lookup imgdata g j i vs Hj Hi Hvs) as Hi'.
  fold w in Hi'.
  set (v := gray_level approx (data imgdata) g j i (4 * (j * w + i))) in *.
  assert (Hv : 0 <= v <= 15) by apply gray_level_range.
  exists out, (byte_of_levels (take 2 (drop (Z.to_nat (2 * (i / 2))) vs))).
  split; [done|]. split; [done|].
  set (sl := take 2 (drop (Z.to_nat (2 * (i / 2))) vs)).
  assert (Hsl : Forall (fun v => 0 <= v <= 15) sl) by (by apply Forall_take, Forall_drop).
  assert (Hsl2 : (length sl <= 2)%nat) by (unfold sl; rewrite length_take; lia).
  split; [by apply byte_of_levels_acc|].
  change 15 with (Z.ones 4). rewrite Z.land_ones, Z.shiftr_div_pow2 by lia.
  change (2 ^ 4) with 16.
  assert (Hget : sl !! Z.to_nat (i mod 2) = Some v).
  { unfold sl. rewrite lookup_take_lt by (Z.div_mod_to_equations; lia).
    rewrite lookup_drop. rewrite <- Hi'. f_equal. Z.div_mod_to_equations. lia. }
  destruct (Z.even i) eqn:Ev.
  - assert (E : i mod 2 = 0).
    { rewrite Zeven_mod in Ev. by apply Z.eqb_eq in Ev. }
    rewrite E in Hget. destruct sl as [|hi [|lo [|? ?]]]; try done;
      cbn [length] in Hsl2; try lia; injection Hget as ->; cbn [byte_of_levels].
    + Z.div_mod_to_equations. lia.
    + apply Forall_cons in Hsl as [_ Hsl]. apply Forall_cons in Hsl as [Hlo _].
      Z.div_mod_to_equations. lia.
  - assert (E : i mod 2 = 1).
    { rewrite Zeven_mod in Ev. apply Z.eqb_neq in Ev.
      Z.div_mod_to_equations. lia. }
    rewrite E in Hget. destruct sl as [|hi [|lo [|? ?]]]; try done;
      cbn [length] in Hsl2; try lia; injection Hget as ->; cbn [byte_of_levels].
    apply Forall_cons in Hsl as [Hhi _].
    Z.div_mod_to_equations. lia.
Qed.

End Nibbles.

(** * Properties of the text helpers, the builder and the client *)

(** ** The escaping functions *)

Lemma replace_class_id (cls : N -> bool) (fn : N -> jsstring) (s : jsstring) :
  existsb cls s = false -> replace_class cls fn s = s.
Proof.
  unfold replace_class. induction s as [|c s IH]; [done|].
  cbn [existsb]. intros [Hc Hs]%orb_false_iff.
  cbn [mbind list_bind]. rewrite Hc. cbn [app]. f_equal. by apply IH.
Qed.

(** The test that guards the replacement does not change the result. *)
Lemma escapeMarkup_replace (s : jsstring) :
  escapeMarkup s = replace_class markup markup_entity s.
Proof.
  unfold escapeMarkup. destruct (existsb markup s) eqn:E; [done|].
  by rewrite replace_class_id.
Qed.

Lemma escapeControl_replace (s : jsstring) :
  escapeControl s = replace_class control control_escape s.
Proof.
  unfold escapeControl. destruct (existsb control s) eqn:E; [done|].
  by rewrite replace_class_id.
Qed.

Lemma replace_class_cons (cls : N -> bool) (fn : N -> jsstring) (c : N)
    (s : jsstring) :
  replace_class cls fn (c :: s)
  = (if cls c then fn c else [c]) ++ replace_class cls fn s.
Proof. done. Qed.

Lemma replace_class_app (cls : N -> bool) (fn : N -> jsstring) (s t : jsstring) :
  replace_class cls fn (s ++ t) = replace_class cls fn s ++ replace_class cls fn t.
Proof. unfold replace_class. apply bind_app. Qed.

Lemma markup_cases (c : N) :
  markup c = true ->
  c = 60%N \/ c = 62%N \/ c = 38%N \/ c = 39%N \/ c = 34%N
  \/ c = 9%N \/ c = 10%N \/ c = 13%N.
Proof.
  unfold markup. rewrite !orb_true_iff, !N.eqb_eq. tauto.
Qed.

Lemma Forall_replace_class (P : N -> Prop) (cls : N -> bool)
    (fn : N -> jsstring) (s : jsstring) :
  (forall c, cls c = true -> Forall P (fn c)) ->
  (forall c, cls c = false -> P c) ->
  Forall P (replace_class cls fn s).
Proof.
  intros Hfn Hid. induction s as [|c s IH]; [constructor|].
  rewrite replace_class_cons. apply Forall_app. split; [|done].
  destruct (cls c) eqn:E; [by apply Hfn|]. constructor; [by apply Hid|constructor].
Qed.

(** Two strings with the same image under a replacement are equal when the
    replacement words can be told apart at the head of a string. *)
Lemma replace_class_inj (cls : N -> bool) (fn : N -> jsstring) :
  (forall c, (if cls c then fn c else [c]) <> []) ->
  (forall a b s t,
     (if cls a then fn a else [a]) ++ s = (if cls b then fn b else [b]) ++ t ->
     a = b /\ s = t) ->
  forall s t, replace_class cls fn s = replace_class cls fn t -> s = t.
Proof.
  intros Hne Hhead. induction s as [|a s IH]; intros [|b t].
  - done.
  - rewrite replace_class_cons. cbn. intros H. symmetry in H.
    apply app_eq_nil in H as [H _]. by apply Hne in H.
  - rewrite replace_class_cons. cbn. intros H.
    apply app_eq_nil in H as [H _]. by apply Hne in H.
  - rewrite !replace_class_cons. intros H.
    apply Hhead in H as [-> H]. f_equal. by apply IH.
Qed.

Lemma markup_word_head (a b : N) (s t : jsstring) :
  (if markup a then markup_entity a else [a]) ++ s
  = (if markup b then markup_entity b else [b]) ++ t ->
  a = b /\ s = t.
Proof.
  destruct (markup a) eqn:Ea, (markup b) eqn:Eb.
  - apply markup_cases in Ea, Eb.
    destruct Ea as [->|[->|[->|[->|[->|[->|[->| ->]]]]]]],
             Eb as [->|[->|[->|[->|[->|[->|[->| ->]]]]]]];
      cbn; intros H; by simplify_eq.
  - apply markup_cases in Ea.
    destruct Ea as [->|[->|[->|[->|[->|[->|[->| ->]]]]]]];
      cbn; intros H; simplify_eq; done.
  - apply markup_cases in Eb.
    destruct Eb as [->|[->|[->|[->|[->|[->|[->| ->]]]]]]];
      cbn; intros H; simplify_eq; done.
  - cbn. intros H. by simplify_eq.
Qed.

(** *** Hexadecimal pairs *)

Lemma hex_digits_app (fuel : nat) : forall (n : N) (acc : jsstring),
  exists pre, hex_digits fuel n acc = pre ++ acc.
Proof.
  induction fuel as [|fuel IH]; intros n acc; cbn [hex_digits].
  - by exists [].
  - destruct (n / 16 =? 0)%N.
    + by exists [hex_digit (n mod 16)].
    + destruct (IH (n / 16)%N (hex_digit (n mod 16) :: acc)) as [pre ->].
      exists (pre ++ [hex_digit (n mod 16)]). by rewrite <- app_assoc.
Qed.

Lemma slice_last_app (pre s : jsstring) (k : nat) :
  length s = k -> slice_last k (pre ++ s) = s.
Proof.
  intros <-. unfold slice_last. rewrite length_app.
  replace (length pre + length s - length s)%nat with (length pre) by lia.
  by rewrite drop_app_length.
Qed.

(** The pair keeps the two low hexadecimal digits of the code unit. *)
Lemma hex_pair_digits (c : N) :
  hex_pair c = [hex_digit (c / 16 mod 16); hex_digit (c mod 16)].
Proof.
  unfold hex_pair, toString16.
  destruct (N.ltb_spec c 16) as [Hlt|Hge].
  - assert (E : (c / 16 = 0)%N) by (by apply N.div_small).
    cbn [hex_digits]. rewrite E. cbn [N.eqb N.modulo]. done.
  - assert (Hlog : (4 <= N.log2 c)%N).
    { change 4%N with (N.log2 16). by apply N.log2_le_mono. }
    destruct (N.to_nat (N.log2 c)) as [|fuel] eqn:Hf; [lia|].
    cbn [hex_digits].
    assert (E : (c / 16 =? 0)%N = false).
    { apply N.eqb_neq. intros H. apply N.div_small_iff in H; lia. }
    rewrite E. cbn [hex_digits].
    destruct (c / 16 / 16 =? 0)%N.
    + done.
    + destruct (hex_digits_app fuel (c / 16 / 16)%N
                  [hex_digit (c / 16 mod 16); hex_digit (c mod 16)]) as [pre ->].
      change (lit "0" ++ pre ++ ?l) with ((48%N :: pre) ++ l).
      by apply slice_last_app.
Qed.

Lemma hex_digit_range (d : N) :
  (d < 16)%N ->
  (48 <= hex_digit d <= 57 \/ 97 <= hex_digit d <= 102)%N.
Proof. unfold hex_digit. destruct (N.ltb_spec d 10); lia. Qed.

Lemma hex_digit_inj (a b : N) :
  (a < 16)%N -> (b < 16)%N -> hex_digit a = hex_digit b -> a = b.
Proof.
  unfold hex_digit. destruct (N.ltb_spec a 10), (N.ltb_spec b 10); lia.
Qed.

Lemma hex_pair_inj (a b : N) :
  (a < 256)%N -> (b < 256)%N -> hex_pair a = hex_pair b -> a = b.
Proof.
  intros Ha Hb. rewrite !hex_pair_digits. intros [= H1 H2].
  apply hex_digit_inj in H1, H2; try (apply N.mod_lt; lia).
  rewrite (N.div_mod a 16), (N.div_mod b 16) by lia.
  rewrite N.mod_small in H1 by (apply N.Div0.div_lt_upper_bound; lia).
  rewrite N.mod_small in H1 by (apply N.Div0.div_lt_upper_bound; lia).
  lia.
Qed.

(** *** Control characters *)

Lemma control_cases (c : N) :
  control c = true -> c = 92%N \/ (c <= 31)%N \/ (127 <= c <= 255)%N.
Proof.
  unfold control. rewrite !orb_true_iff, andb_true_iff, N.eqb_eq, !N.leb_le. tauto.
Qed.

Lemma control_false (c : N) :
  control c = false -> c <> 92%N /\ (32 <= c < 127 \/ 255 < c)%N.
Proof.
  unfold control. rewrite !orb_false_iff, andb_false_iff, N.eqb_neq, !N.leb_gt. lia.
Qed.

Lemma control_escape_word (c : N) :
  control c = true ->
  control_escape c = [92%N; 92%N] /\ c = 92%N
  \/ control_escape c
     = [92%N; 120%N; hex_digit (c / 16 mod 16); hex_digit (c mod 16)]
     /\ c <> 92%N /\ (c < 256)%N.
Proof.
  intros Hc. unfold control_escape. destruct (N.eqb_spec c 92) as [->|Hne].
  - by left.
  - right. rewrite hex_pair_digits. split; [done|]. split; [done|].
    apply control_cases in Hc. lia.
Qed.

Lemma control_word_head (a b : N) (s t : jsstring) :
  (if control a then control_escape a else [a]) ++ s
  = (if control b then control_escape b else [b]) ++ t ->
  a = b /\ s = t.
Proof.
  destruct (control a) eqn:Ea, (control b) eqn:Eb.
  - destruct (control_escape_word a Ea) as [[-> ->]|(-> & Ha & Ha')],
             (control_escape_word b Eb) as [[-> ->]|(-> & Hb & Hb')];
      cbn; intros H; simplify_eq; try done.
    split; [|done]. apply hex_pair_inj; try done. by rewrite !hex_pair_digits, H, H0.
  - apply control_false in Eb as [Hb _].
    destruct (control_escape_word a Ea) as [[-> ->]|(-> & Ha & Ha')];
      cbn; intros H; simplify_eq; done.
  - apply control_false in Ea as [Ha _].
    destruct (control_escape_word b Eb) as [[-> ->]|(-> & Hb & Hb')];
      cbn; intros H; simplify_eq; done.
  - cbn. intros H. by simplify_eq.
Qed.

Lemma Forall_replace_class_on (P Q : N -> Prop) (cls : N -> bool)
    (fn : N -> jsstring) (s : jsstring) :
  Forall Q s ->
  (forall c, cls c = true -> Forall P (fn c)) ->
  (forall c, Q c -> cls c = false -> P c) ->
  Forall P (replace_class cls fn s).
Proof.
  intros Hs Hfn Hid. induction Hs as [|c s Hc Hs IH]; [constructor|].
  rewrite replace_class_cons. apply Forall_app. split; [|done].
  destruct (cls c) eqn:E; [by apply Hfn|].
  constructor; [by apply Hid|constructor].
Qed.

Lemma markup_entity_length (c : N) :
  markup c = true -> (4 <= length (markup_entity c))%nat.
Proof.
  intros Hc. apply markup_cases in Hc.
  destruct Hc as [->|[->|[->|[->|[->|[->|[->| ->]]]]]]]; cbn; lia.
Qed.

Lemma replace_markup_length (s : jsstring) :
  (length s <= length (replace_class markup markup_entity s))%nat
  /\ (existsb markup s = true ->
      (length s < length (replace_class markup markup_entity s))%nat).
Proof.
  induction s as [|c s [IH1 IH2]]; [split; [done|discriminate]|].
  rewrite replace_class_cons, length_app. cbn [length existsb].
  destruct (markup c) eqn:E.
  - pose proof (markup_entity_length c E). split; [lia|]. intros _. lia.
  - cbn [length orb]. split; [lia|]. intros H. specialize (IH2 H). lia.
Qed.

Lemma escapeMarkup_chars (s : jsstring) :
  Forall (fun c => markup c = false \/ c = 38%N) (escapeMarkup s).
Proof.
  rewrite escapeMarkup_replace. apply Forall_replace_class.
  - intros c Hc. apply markup_cases in Hc.
    destruct Hc as [->|[->|[->|[->|[->|[->|[->| ->]]]]]]];
      match goal with
      | |- Forall _ ?l => let l' := eval vm_compute in l in change l with l'
      end;
      repeat (apply Forall_cons; split; [first [by left|by right]|]);
      by apply Forall_nil.
  - intros c Hc. by left.
Qed.

Lemma escapeMarkup_inj (s t : jsstring) :
  escapeMarkup s = escapeMarkup t -> s = t.
Proof.
  rewrite !escapeMarkup_replace. apply replace_class_inj.
  - intros c. destruct (markup c) eqn:E; [|done].
    apply markup_entity_length in E. intros H. rewrite H in E. cbn in E. lia.
  - apply markup_word_head.
Qed.

Lemma escapeControl_inj (s t : jsstring) :
  escapeControl s = escapeControl t -> s = t.
Proof.
  rewrite !escapeControl_replace. apply replace_class_inj.
  - intros c. destruct (control c) eqn:E; [|done].
    by destruct (control_escape_word c E) as [[-> _]|(-> & _)].
  - apply control_word_head.
Qed.

(** ** Integers as JavaScript numbers *)

(** The canonical mantissa and exponent of a positive integer below 2^53. *)
Lemma integer_shaped (z : Z) :
  0 < z < 2 ^ 53 ->
  exists m e, shaped (Z.pos m) e /\ e <= 971
    /\ Z.pos m * 2 ^ (e + 1074) = z * 2 ^ 1074.
Proof.
  intros Hz.
  pose proof (Zdigits2_bounds z ltac:(lia)) as Hd.
  pose proof (Zdigits2_pos z ltac:(lia)) as Hp.
  set (d := Zdigits2 z) in *. clearbody d.
  assert (Hd53 : d <= 53).
  { destruct (Z.le_gt_cases d 53) as [|Hgt]; [done|].
    pose proof (pow2_le 53 (d - 1) ltac:(lia)). lia. }
  pose proof (pow2_pos (53 - d) ltac:(lia)) as Hpp.
  exists (Z.to_pos (z * 2 ^ (53 - d))), (d - 53).
  rewrite Z2Pos.id by nia.
  assert (E1 : 2 ^ d * 2 ^ (53 - d) = 2 ^ 53).
  { rewrite <- pow2_split by lia. f_equal. lia. }
  assert (E2 : 2 ^ (d - 1) * 2 ^ (53 - d) = 2 ^ 52).
  { rewrite <- pow2_split by lia. f_equal. lia. }
  split; [|split; [lia|]].
  - unfold shaped. split; [lia|]. split; [nia|]. left. nia.
  - replace 1074 with (53 - d + (d - 53 + 1074)) at 2 by lia.
    rewrite (pow2_split (53 - d) (d - 53 + 1074)) by lia. ring.
Qed.

(** Integers below 2^53 are exact. *)
Lemma num_exact (z : Z) :
  0 <= z < 2 ^ 53 ->
  fin (Prim2SF (JS.num z)) /\ fv (JS.num z) = z * 2 ^ 1074.
Proof.
  intros Hz. unfold JS.num, fv. destruct (Z.ltb_spec z 0) as [|_]; [lia|].
  rewrite of_uint63_spec, Uint63.of_Z_spec.
  rewrite Z.mod_small by (change Uint63.wB with (2 ^ 63);
    pose proof (pow2_lt 53 63 ltac:(lia)); lia).
  destruct z as [|p|p]; [done| |lia].
  cbn [binary_normalize].
  pose proof (binary_round_rounds p 0 ltac:(lia)) as Hr.
  change (0 + 1074) with 1074 in Hr.
  destruct (integer_shaped (Z.pos p) ltac:(lia)) as (m & e & Hs & He & Hv).
  set (Y := S754_finite false m e).
  assert (HY : fin Y) by done.
  assert (EY : FV Y = Z.pos p * 2 ^ 1074) by done.
  destruct (rounds_upper 1074 _ 1 _ Y Hr ltac:(lia) HY) as [Hf Hu].
  { rewrite EY. change (1074 - 1074) with 0. lia. }
  split; [done|].
  assert (Hl : FV Y <= FV (binary_round 53 1024 false p 0)).
  { apply (rounds_lower 1074 _ 1 _ Y Hr ltac:(lia) HY Hf).
    rewrite EY. change (1074 - 1074) with 0. lia. }
  change (binary_round prec emax false p 0) with (binary_round 53 1024 false p 0).
  lia.
Qed.

(** Canonical numbers with the same positive value are the same number. *)
Lemma fin_unique (x y : float) :
  fin (Prim2SF x) -> fin (Prim2SF y) -> fv x = fv y -> 0 < fv x -> x = y.
Proof.
  intros Hx Hy Hv Hp. apply Prim2SF_inj. unfold fv in *.
  pose proof (SFcompare_fin _ _ Hx Hy) as Hc. rewrite Hv, Z.compare_refl in Hc.
  destruct (Prim2SF x) as [sx| | |sx mx ex], (Prim2SF y) as [sy| | |sy my ey];
    try done; cbn [FV] in *; try lia.
  apply fin_finite_inv in Hx as (-> & _). apply fin_finite_inv in Hy as (-> & _).
  cbn [SFcompare] in Hc.
  destruct (Z.compare_spec ex ey) as [->| |]; try done.
  injection Hc as Hc. change (Pos.compare_cont Eq mx my) with (mx ?= my)%positive in Hc.
  apply Pos.compare_eq in Hc as ->. done.
Qed.

Lemma num_lt (a b : Z) :
  0 <= a < 2 ^ 53 -> 0 <= b < 2 ^ 53 ->
  (JS.num a <? JS.num b)%float = (a <? b).
Proof.
  intros Ha Hb. destruct (num_exact a Ha) as [Fa Va], (num_exact b Hb) as [Fb Vb].
  rewrite (ltb_fv _ _ Fa Fb), Va, Vb.
  pose proof (pow2_pos 1074 ltac:(lia)).
  destruct (Z.ltb_spec a b), (Z.ltb_spec (a * 2 ^ 1074) (b * 2 ^ 1074)); try done; nia.
Qed.

Lemma num_le (a b : Z) :
  0 <= a < 2 ^ 53 -> 0 <= b < 2 ^ 53 ->
  (JS.num a <=? JS.num b)%float = (a <=? b).
Proof.
  intros Ha Hb. destruct (num_exact a Ha) as [Fa Va], (num_exact b Hb) as [Fb Vb].
  rewrite (leb_fv _ _ Fa Fb), Va, Vb.
  pose proof (pow2_pos 1074 ltac:(lia)).
  destruct (Z.leb_spec a b), (Z.leb_spec (a * 2 ^ 1074) (b * 2 ^ 1074)); try done; nia.
Qed.

Lemma num_inj (a b : Z) :
  0 <= a < 2 ^ 53 -> 0 <= b < 2 ^ 53 -> JS.num a = JS.num b -> a = b.
Proof.
  intros Ha Hb H. destruct (num_exact a Ha) as [_ Va], (num_exact b Hb) as [_ Vb].
  rewrite H in Va. rewrite Va in Vb. pose proof (pow2_pos 1074 ltac:(lia)). nia.
Qed.

(** The difference of two integers, the larger first, is exact. *)
Lemma num_sub (a b : Z) :
  0 <= b <= a -> a < 2 ^ 53 ->
  (JS.num a - JS.num b)%float = JS.num (a - b).
Proof.
  intros Hb Ha.
  destruct (num_exact a ltac:(lia)) as [Fa Va], (num_exact b ltac:(lia)) as [Fb Vb],
    (num_exact (a - b) ltac:(lia)) as [Fc Vc].
  destruct (Z.eq_dec a b) as [->|Hne].
  - apply Prim2SF_inj. rewrite sub_spec, Z.sub_diag.
    change (Prim2SF (JS.num 0)) with (S754_zero false).
    unfold fv in Vb. destruct (Prim2SF (JS.num b)) as [s| | |s m e] eqn:E; try done.
    + assert (b = 0) as ->.
      { cbn [FV] in Vb. pose proof (pow2_pos 1074 ltac:(lia)). nia. }
      change (Prim2SF (JS.num 0)) with (S754_zero false) in E. by injection E as <-.
    + apply fin_finite_inv in Fb as (-> & Hs & _).
      apply SFsub_equal; try done; by destruct Hs.
  - assert (Hbt : between (fv (JS.num (a - b))) (fv (JS.num (a - b)))
                    (JS.num a - JS.num b)).
    { assert (Hn : nonnegb (JS.num (a - b)) = true).
      { unfold nonnegb. by destruct (Prim2SF (JS.num (a - b))) as [| | |[] ? ?]. }
      apply (sub_between _ _ _ _ (fv (JS.num a)) (fv (JS.num a))
               (fv (JS.num b)) (fv (JS.num b))); try done; try lia;
        rewrite Va, Vb, Vc; lia. }
    destruct Hbt as [Hf Hv].
    apply fin_unique; try done; [lia|].
    pose proof (pow2_pos 1074 ltac:(lia)).
    assert (fv (JS.num a - JS.num b) = fv (JS.num (a - b))) as -> by lia.
    rewrite Vc. nia.
Qed.

(** ** Column text *)

Lemma binary_round_aux_negative (m e : Z) (l : location) :
  not_positive (binary_round_aux 53 1024 true m e l).
Proof.
  unfold binary_round_aux.
  destruct (shr_fexp 53 1024 m e l) as [mrs e'].
  destruct (shr_fexp 53 1024 _ e' loc_Exact) as [mrs' e''].
  destruct (shr_m mrs'); [done| |done].
  by destruct (e'' <=? 1024 - 53).
Qed.

Lemma binary_round_negative (m : positive) (e : Z) :
  not_positive (binary_round 53 1024 true m e).
Proof.
  unfold binary_round. destruct (shl_align m e _) as [m' e'].
  apply binary_round_aux_negative.
Qed.

Lemma not_positive_ltb (x : float) :
  not_positive (Prim2SF x) -> (0 <? x)%float = false.
Proof.
  rewrite ltb_spec. change (Prim2SF 0) with (S754_zero false). unfold SFltb.
  by destruct (Prim2SF x) as [s|[]| |[] m e].
Qed.

(** A smaller number minus a larger one is not positive. *)
Lemma SFsub_smaller (x y : spec_float) :
  fin x -> fin y -> FV x < FV y -> not_positive (SFsub 53 1024 x y).
Proof.
  intros Hx Hy Hlt.
  destruct x as [sx| | |sx mx ex], y as [sy| | |sy my ey]; try done.
  - apply fin_finite_inv in Hy as (-> & _). done.
  - apply fin_finite_inv in Hx as (-> & Hsx & _).
    pose proof (FV_finite mx ex ltac:(by destruct Hsx)). cbn [FV] in *. lia.
  - apply fin_finite_inv in Hx as (-> & Hsx & _).
    apply fin_finite_inv in Hy as (-> & Hsy & _).
    assert (Hex : -1074 <= ex) by (by destruct Hsx).
    assert (Hey : -1074 <= ey) by (by destruct Hsy).
    cbn [SFsub cond_Zopp]. cbv zeta. cbn [FV] in Hlt.
    set (ez := Z.min ex ey).
    rewrite <- (shl_align_value mx ex ez), <- (shl_align_value my ey ez) in Hlt by lia.
    set (a := (shl_align mx ex ez).1) in *. set (b := (shl_align my ey ez).1) in *.
    pose proof (pow2_pos (ez + 1074) ltac:(lia)).
    destruct (Z.pos a - Z.pos b) as [|p|p] eqn:E; try nia.
    cbn [binary_normalize]. apply binary_round_negative.
Qed.

(** A number that is not positive stays so when a non-negative number is
    subtracted. *)
Lemma SFsub_not_positive (x y : spec_float) :
  not_positive x -> fin y -> not_positive (SFsub 53 1024 x y).
Proof.
  intros Hx Hy.
  destruct x as [sx|[]| |[] mx ex], y as [sy| | |sy my ey]; try done.
  - by destruct sx, sy.
  - apply fin_finite_inv in Hy as (-> & _). done.
  - apply fin_finite_inv in Hy as (-> & _).
    cbn [SFsub cond_Zopp]. cbv zeta.
    set (a := (shl_align mx ex _).1). set (b := (shl_align my ey _).1).
    change (- Z.pos a - Z.pos b) with (Z.neg (a + b)).
    cbn [binary_normalize]. apply binary_round_negative.
Qed.

Lemma num_fin (z : Z) :
  0 <= z < 2 ^ 53 ->
  exists x, Prim2SF (JS.num z) = x /\ fin x
            /\ match x with S754_zero _ | S754_finite false _ _ => True | _ => False end.
Proof.
  intros Hz. destruct (num_exact z Hz) as [Hf _].
  exists (Prim2SF (JS.num z)). split; [done|]. split; [done|].
  by destruct (Prim2SF (JS.num z)) as [| | |[] ? ?].
Qed.

Lemma num_trunc (z : Z) : 0 <= z < 2 ^ 53 -> JS.trunc (JS.num z) = Some z.
Proof.
  intros Hz. destruct (num_exact z Hz) as [Hf Hv].
  rewrite (trunc_fv _ Hf), Hv. f_equal. apply Z.div_mul.
  pose proof (pow2_pos 1074). lia.
Qed.

Lemma String_repeat_num (s : jsstring) (k : Z) :
  0 <= k < 2 ^ 53 ->
  String_repeat s (JS.num k) = JS.Normal (concat (replicate (Z.to_nat k) s)).
Proof.
  intros Hk. unfold String_repeat. rewrite (num_trunc k Hk).
  destruct (num_fin k Hk) as (x & -> & _ & Hx).
  destruct (Z.ltb_spec k 0); [lia|]. by destruct x as [| | |[] ? ?].
Qed.

(** The space left on the line, for an integer width. *)
Lemma space_integer (n l r : Z) :
  0 <= n < 2 ^ 53 -> 0 <= l < 2 ^ 53 -> 0 <= r < 2 ^ 53 ->
  (l + r < n -> (JS.num n - JS.num l - JS.num r)%float = JS.num (n - l - r))
  /\ (n <= l + r -> (0 <? JS.num n - JS.num l - JS.num r)%float = false).
Proof.
  intros Hn Hl Hr. split.
  - intros H. rewrite (num_sub n l) by lia. by rewrite (num_sub (n - l) r) by lia.
  - intros H. apply not_positive_ltb.
    destruct (num_exact r Hr) as [Fr Vr].
    destruct (Z.le_gt_cases l n) as [Hle|Hgt].
    + rewrite (num_sub n l) by lia.
      destruct (Z.eq_dec (n - l) r) as [E|Hne].
      * rewrite E, (num_sub r r), Z.sub_diag by lia. done.
      * destruct (num_exact (n - l) ltac:(lia)) as [Fa Va].
        rewrite sub_spec. apply SFsub_smaller; try done.
        unfold fv in Va, Vr. rewrite Va, Vr.
        pose proof (pow2_pos 1074 ltac:(lia)). nia.
    + rewrite (sub_spec (JS.num n - JS.num l)).
      apply SFsub_not_positive; [|done].
      destruct (num_exact n Hn) as [Fn Vn], (num_exact l Hl) as [Fl Vl].
      rewrite sub_spec. apply SFsub_smaller; try done.
      unfold fv in Vn, Vl. rewrite Vn, Vl.
      pose proof (pow2_pos 1074 ltac:(lia)). nia.
Qed.

(** The two branches of [formatColumnText], for an integer width and for a
    width that is NaN or infinite. *)
Lemma formatColumnText_num (left right char : jsstring) (n : Z) :
  0 <= n < 2 ^ 53 ->
  Z.of_nat (length left) < 2 ^ 53 -> Z.of_nat (length right) < 2 ^ 53 ->
  let l := Z.of_nat (length left) in
  let r := Z.of_nat (length right) in
  exists out,
    formatColumnText left right (JS.num n) char = JS.Normal out
    /\ (l + r < n ->
        out = left ++ concat (replicate (Z.to_nat (n - l - r)) char) ++ right
        /\ (length char = 1%nat -> Z.of_nat (length out) = n))
    /\ (n <= l + r ->
        out = left ++ lit " " ++ right /\ n < Z.of_nat (length out)).
Proof.
  intros Hn Hl Hr l r. unfold formatColumnText, str_length. fold l r. cbv zeta.
  destruct (space_integer n l r Hn ltac:(lia) ltac:(lia)) as [Hfit Hover].
  destruct (Z.lt_ge_cases (l + r) n) as [H|H].
  - rewrite (Hfit H). change 0%float with (JS.num 0).
    rewrite (num_lt 0 (n - l - r)) by lia.
    destruct (Z.ltb_spec 0 (n - l - r)); [|lia].
    rewrite String_repeat_num by lia. cbn [mbind completion_bind JS.bind].
    eexists. split; [done|]. split; [|lia].
    intros _. split; [done|]. intros Hc.
    rewrite !length_app, length_concat, fmap_replicate, Hc.
    rewrite sum_list_replicate. lia.
  - rewrite (Hover H). eexists. split; [done|]. split; [lia|].
    intros _. split; [done|]. rewrite !length_app.
    change (length (lit " ")) with 1%nat. lia.
Qed.

Lemma formatColumnText_special (left right char : jsstring) :
  Z.of_nat (length left) < 2 ^ 53 -> Z.of_nat (length right) < 2 ^ 53 ->
  formatColumnText left right nan char = JS.Normal (left ++ lit " " ++ right)
  /\ formatColumnText left right infinity char = JS.Throw JS.RangeError.
Proof.
  intros Hl Hr. unfold formatColumnText, str_length. cbv zeta.
  destruct (num_fin (Z.of_nat (length left)) ltac:(lia)) as (x & Ex & _ & Hx).
  destruct (num_fin (Z.of_nat (length right)) ltac:(lia)) as (y & Ey & _ & Hy).
  split.
  - rewrite (not_positive_ltb (nan - _ - _)); [done|].
    rewrite !sub_spec. change (Prim2SF nan) with S754_nan. done.
  - assert (E : Prim2SF (infinity - JS.num (Z.of_nat (length left))
                         - JS.num (Z.of_nat (length right)))
                = S754_infinity false).
    { rewrite !sub_spec, Ex, Ey. change (Prim2SF infinity) with (S754_infinity false).
      destruct x as [| | |[] ? ?], y as [| | |[] ? ?]; done. }
    rewrite ltb_spec, E. change (Prim2SF 0) with (S754_zero false).
    cbn [SFltb SFcompare]. unfold String_repeat. rewrite E. done.
Qed.

(** ** The markup builder *)

(** Evaluation of the string literals of a goal. *)
Ltac eval_lit :=
  repeat match goal with
  | |- context [lit ?s] =>
      let v := eval vm_compute in (lit s) in change (lit s) with v
  end.

Ltac eval_lit_in H :=
  repeat match type of H with
  | context [lit ?s] =>
      let v := eval vm_compute in (lit s) in change (lit s) with v in H
  end.


Lemma escapeMarkup_app (s t : jsstring) :
  escapeMarkup (s ++ t) = escapeMarkup s ++ escapeMarkup t.
Proof. rewrite !escapeMarkup_replace. apply replace_class_app. Qed.



Section BuilderFacts.

Variable Number_toString : float -> jsstring.
Variable StringToNumber : jsstring -> float.

Lemma addText_message (p : EpsonPrint.t) (data : jsstring) :
  EpsonPrint.addText Number_toString StringToNumber p data
  = (EpsonPrint.with_message p
       (EpsonPrint.message p ++ lit "<text>" ++ escapeMarkup data ++ lit "</text>"),
     []).
Proof.
  unfold EpsonPrint.addText, EpsonPrint.addRow. f_equal. f_equal.
  eval_lit. cbn [app]. rewrite <- !app_assoc. done.
Qed.

End BuilderFacts.

(** *** Base64 *)




Section ImageFacts.

Variable Number_toString : float -> jsstring.
Variable StringToNumber : jsstring -> float.


End ImageFacts.

(** ** The printer client *)

Lemma land_pow2 (x k : Z) :
  0 <= k -> (Z.land x (2 ^ k) =? 0) = negb (Z.testbit x k).
Proof.
  intros Hk.
  assert (E : Z.land x (2 ^ k) = if Z.testbit x k then 2 ^ k else 0).
  { apply Z.bits_inj'. intros n Hn. rewrite Z.land_spec, Z.pow2_bits_eqb by lia.
    destruct (Z.eqb_spec k n) as [->|Hne].
    - rewrite andb_true_r. destruct (Z.testbit x n) eqn:E; [|by rewrite Z.bits_0].
      by rewrite Z.pow2_bits_true.
    - rewrite andb_false_r. destruct (Z.testbit x k); [|by rewrite Z.bits_0].
      by rewrite Z.pow2_bits_false. }
  rewrite E. destruct (Z.testbit x k); [|done].
  apply Z.eqb_neq. pose proof (pow2_pos k Hk). lia.
Qed.

Lemma masked_testbit (st : float) (k : Z) :
  0 <= k < 31 ->
  EpsonPrinter.masked st (2 ^ k) = Z.testbit (JS.ToInt32 st) k.
Proof.
  intros Hk. unfold EpsonPrinter.masked.
  rewrite toInt32_small by (pose proof (pow2_pos k); pose proof (pow2_lt k 31); lia).
  rewrite land_pow2 by lia. apply negb_involutive.
Qed.

Section SendFacts.

Variable approx : float -> float -> float.

Lemma send_failing (n : Z) (tl : list EpsonPrinter.reply) :
  0 <= n < 2 ^ 53 ->
  forall (fails : list EpsonPrinter.reply) (k : Z),
    0 <= k -> k + Z.of_nat (length fails) <= n -> Forall failing fails ->
    EpsonPrinter.send approx (JS.num n) (fails ++ tl) k
    = match EpsonPrinter.send approx (JS.num n) tl (k + Z.of_nat (length fails)) with
      | Some (res, delays) => Some (res, retry_delays approx k (length fails) ++ delays)
      | None => None
      end.
Proof.
  intros Hn. induction fails as [|r fails IH]; intros k Hk Hlen Hf.
  - cbn [app length]. rewrite Z.add_0_r.
    destruct (EpsonPrinter.send approx (JS.num n) tl k) as [[res ds]|]; done.
  - apply Forall_cons in Hf as [[e He] Hf]. cbn [length] in Hlen.
    cbn [app EpsonPrinter.send]. rewrite He.
    rewrite (num_lt k n) by lia. destruct (Z.ltb_spec k n); [|lia].
    rewrite (IH (k + 1)) by (done || lia).
    replace (k + 1 + Z.of_nat (length fails)) with (k + Z.of_nat (length (r :: fails)))
      by (cbn [length]; lia).
    destruct (EpsonPrinter.send approx (JS.num n) tl _) as [[res ds]|]; [|done].
    f_equal. f_equal. unfold retry_delays. cbn [length].
    rewrite (seqZ_cons k (Z.of_nat (S (length fails)))) by lia.
    replace (Z.succ k) with (k + 1) by lia.
    replace (Z.pred (Z.of_nat (S (length fails)))) with (Z.of_nat (length fails))
      by lia.
    done.
Qed.

End SendFacts.

(** ** Modes without error diffusion *)

Section Stateless.

Variable approx : float -> float -> float.

(** When the decision of a pixel neither reads nor writes a pending error,
    the decisions of a row are those of its pixels. *)
Lemma row_decisions_stateless (d : list Z) (w s : Z) (g : float)
    (dec : Z -> Z -> Z -> bool) (cur nxt nxt2 : nat) (j : Z) :
  (forall i p, 0 <= i < w ->
     mono_decide approx d s g cur nxt nxt2 j i p (fresh_store w)
     = (dec j i p, fresh_store w)) ->
  forall (len : nat) (i p : Z),
    0 <= i -> i + Z.of_nat len <= w ->
    row_decisions approx d s g cur nxt nxt2 j (seqZ i (Z.of_nat len)) p
      (fresh_store w)
    = ((fun i' => dec j i' (p + 4 * (i' - i))) <$> seqZ i (Z.of_nat len),
       p + 4 * Z.of_nat len, fresh_store w).
Proof.
  intros Hdec. induction len as [|len IH]; intros i p Hi Hlen.
  - cbn. by rewrite Z.add_0_r.
  - rewrite seqZ_cons by lia.
    replace (Z.pred (Z.of_nat (S len))) with (Z.of_nat len) by lia.
    cbn [row_decisions fmap list_fmap].
    rewrite Hdec by lia. rewrite IH by lia.
    replace (p + 4 * (i - i)) with p by lia.
    replace (p + 4 + 4 * Z.of_nat len) with (p + 4 * Z.of_nat (S len)) by lia.
    rewrite (list_fmap_ext
               (fun i' => dec j i' (p + 4 + 4 * (i' - Z.succ i)))
               (fun i' => dec j i' (p + 4 * (i' - i)))
               (seqZ (Z.succ i) (Z.of_nat len))); [reflexivity|].
    intros k i' _. cbv beta.
    replace (p + 4 + 4 * (i' - Z.succ i)) with (p + 4 * (i' - i)) by lia.
    reflexivity.
Qed.

Lemma rows_decisions_stateless (d : list Z) (w s : Z) (g : float)
    (dec : Z -> Z -> Z -> bool) :
  0 <= w ->
  (forall cur nxt nxt2 j i p, (cur < 3)%nat -> 0 <= i < w ->
     mono_decide approx d s g cur nxt nxt2 j i p (fresh_store w)
     = (dec j i p, fresh_store w)) ->
  forall (k : nat) (j p : Z) (eb : list nat),
    length eb = 3%nat -> Forall (fun b => (b < 3)%nat) eb ->
    rows_decisions approx d w s g (seqZ j (Z.of_nat k)) p (fresh_store w) eb
    = (fun j' => (fun i => dec j' i (p + 4 * ((j' - j) * w + i))) <$> seqZ 0 w)
        <$> seqZ j (Z.of_nat k).
Proof.
  intros Hw Hdec. induction k as [|k IH]; intros j p eb Hlen Heb; [done|].
  rewrite seqZ_cons by lia.
  replace (Z.pred (Z.of_nat (S k))) with (Z.of_nat k) by lia.
  cbn [rows_decisions fmap list_fmap].
  rewrite buf_fill0_zero by apply fresh_store_zero.
  pose proof (row_decisions_stateless d w s g dec (nth 0 eb 0%nat)
                (nth 1 eb 0%nat) (nth 2 eb 0%nat) j
                ltac:(intros i q Hi; apply Hdec; [by apply nth_refs|done])
                (Z.to_nat w) 0 p ltac:(lia) ltac:(lia)) as Hrow.
  rewrite Z2Nat.id in Hrow by lia. rewrite Hrow. clear Hrow.
  destruct (rotate_refs eb (nth 2 eb 0%nat)) as [Hlen' Heb']; try done.
  { by apply nth_refs. }
  rewrite IH by done.
  rewrite (list_fmap_ext
             (fun i' => dec j i' (p + 4 * (i' - 0)))
             (fun i => dec j i (p + 4 * ((j - j) * w + i)))
             (seqZ 0 w)).
  2:{ intros _ i _. cbv beta. f_equal. lia. }
  rewrite (list_fmap_ext
             (fun j' => (fun i => dec j' i (p + 4 * w + 4 * ((j' - Z.succ j) * w + i)))
                          <$> seqZ 0 w)
             (fun j' => (fun i => dec j' i (p + 4 * ((j' - j) * w + i))) <$> seqZ 0 w)
             (seqZ (Z.succ j) (Z.of_nat k))); [reflexivity|].
  intros _ j' _. cbv beta.
  apply list_fmap_ext. intros _ i _. cbv beta. f_equal. lia.
Qed.

Lemma mono_decisions_stateless (imgdata : ImageData) (s : Z) (g : float)
    (dec : Z -> Z -> Z -> bool) :
  0 <= width imgdata -> 0 <= height imgdata ->
  (forall cur nxt nxt2 j i p, (cur < 3)%nat -> 0 <= i < width imgdata ->
     mono_decide approx (data imgdata) s g cur nxt nxt2 j i p
       (fresh_store (width imgdata))
     = (dec j i p, fresh_store (width imgdata))) ->
  mono_decisions approx imgdata s g
  = (fun j => (fun i => dec j i (4 * (j * width imgdata + i)))
                <$> seqZ 0 (width imgdata)) <$> seqZ 0 (height imgdata).
Proof.
  intros Hw Hh Hdec. unfold mono_decisions.
  change [replicate (Z.to_nat (width imgdata + 4)) 0%float;
          replicate (Z.to_nat (width imgdata + 4)) 0%float;
          replicate (Z.to_nat (width imgdata + 4)) 0%float]
    with (fresh_store (width imgdata)).
  replace (height imgdata) with (Z.of_nat (Z.to_nat (height imgdata))) by lia.
  rewrite (rows_decisions_stateless (data imgdata) (width imgdata) s g dec Hw Hdec)
    by (done || (repeat constructor; lia)).
  rewrite Z2Nat.id by lia.
  apply list_fmap_ext. intros _ j _. cbv beta.
  apply list_fmap_ext. intros _ i _. cbv beta. f_equal. lia.
Qed.

(** The bit of a pixel in the byte accumulated for its group of eight. *)
Lemma toMonoImage_raw_bit (imgdata : ImageData) (s : Z) (g : float)
    (dec : Z -> Z -> bool) (j i : Z) :
  1 <= width imgdata -> width imgdata + 7 < 2 ^ 31 ->
  0 <= j < height imgdata -> 0 <= i < width imgdata ->
  mono_decisions approx imgdata s g
  = (fun j => dec j <$> seqZ 0 (width imgdata)) <$> seqZ 0 (height imgdata) ->
  exists out raw,
    toMonoImage approx imgdata s g = JS.Normal out
    /\ out !! Z.to_nat (j * ((width imgdata + 7) / 8) + i / 8)
       = Some (emit_byte raw)
    /\ 0 <= raw < 256
    /\ Z.testbit raw (7 - i mod 8) = dec j i.
Proof.
  intros Hw Hw' Hj Hi Hdec.
  assert (Hk : 0 <= i / 8 < (width imgdata + 7) / 8)
    by (Z.div_mod_to_equations; lia).
  destruct (toMonoImage_byte approx imgdata s g j (i / 8) Hw Hw' Hj Hk)
    as (out & bs & Hout & Hbs & Hlen & Hbyte).
  rewrite Hdec, list_lookup_fmap in Hbs.
  rewrite (lookup_seqZ_lt 0 (height imgdata) (Z.to_nat j)) in Hbs by lia.
  cbn [fmap option_fmap option_map] in Hbs. injection Hbs as Hbs.
  rewrite Z.add_0_l, Z2Nat.id in Hbs by lia.
  set (sl := take 8 (drop (Z.to_nat (8 * (i / 8))) bs)) in *.
  assert (Hsl : (length sl <= 8)%nat) by (unfold sl; rewrite length_take; lia).
  exists out, (byte_of_bits sl). split; [done|]. split; [done|].
  split; [by apply byte_of_bits_range|].
  rewrite byte_of_bits_testbit by (done || (Z.div_mod_to_equations; lia)).
  unfold sl. rewrite lookup_take_lt by (Z.div_mod_to_equations; lia).
  rewrite lookup_drop.
  replace (Z.to_nat (8 * (i / 8)) + Z.to_nat (i mod 8))%nat with (Z.to_nat i)
    by (Z.div_mod_to_equations; lia).
  rewrite <- Hbs, list_lookup_fmap.
  rewrite (lookup_seqZ_lt 0 (width imgdata) (Z.to_nat i)) by lia.
  cbn. by rewrite Z2Nat.id by lia.
Qed.


(** The bit of a pixel in the output, when no decision touches the error
    buffers. *)
Lemma mono_bit_stateless (imgdata : ImageData) (s : Z) (g : float)
    (dec : Z -> Z -> Z -> bool) (j i : Z) :
  1 <= width imgdata -> width imgdata + 7 < 2 ^ 31 ->
  0 <= j < height imgdata -> 0 <= i < width imgdata ->
  (forall cur nxt nxt2 j i p, (cur < 3)%nat -> 0 <= i < width imgdata ->
     mono_decide approx (data imgdata) s g cur nxt nxt2 j i p
       (fresh_store (width imgdata))
     = (dec j i p, fresh_store (width imgdata))) ->
  exists out raw,
    toMonoImage approx imgdata s g = JS.Normal out
    /\ out !! Z.to_nat (j * ((width imgdata + 7) / 8) + i / 8)
       = Some (emit_byte raw)
    /\ 0 <= raw < 256
    /\ Z.testbit raw (7 - i mod 8) = dec j i (4 * (j * width imgdata + i)).
Proof.
  intros Hw Hw' Hj Hi Hdec.
  apply (toMonoImage_raw_bit imgdata s g
           (fun j i => dec j i (4 * (j * width imgdata + i))) j i Hw Hw' Hj Hi).
  apply mono_decisions_stateless; [lia|lia|done].
Qed.

(** Mode 0 compares the brightness with the entry of the Bayer matrix and
    leaves the buffers alone. *)
Lemma mono_decide_bayer (d : list Z) (g : float) (cur nxt nxt2 : nat)
    (j i p : Z) (hp : store) :
  mono_decide approx d 0 g cur nxt nxt2 j i p hp
  = ((brightness approx d p g <? JS.num (tbl2 bayer (Z.land j 7) (Z.land i 7)))%float,
     hp).
Proof. reflexivity. Qed.


End Stateless.

(** ** Pixels without a value *)

Lemma sub_nan_r (x : float) : (x - nan)%float = nan.
Proof.
  apply Prim2SF_inj. rewrite sub_spec. change (Prim2SF nan) with S754_nan.
  by destruct (Prim2SF x) as [[]|[]| |[] m e].
Qed.

Lemma ltb_nan_l (x : float) : (nan <? x)%float = false.
Proof.
  rewrite ltb_spec. change (Prim2SF nan) with S754_nan. reflexivity.
Qed.

(** A pixel whose alpha is read past the end of the data has no
    luminance. *)
Lemma lum_missing (d : list Z) (p : Z) :
  d !! Z.to_nat (p + 3) = None -> lum d p = nan.
Proof.
  intros H. unfold lum. unfold rd at 5. rewrite H. by rewrite sub_nan_r.
Qed.

Lemma Math_pow_nan (approx : float -> float -> float) (e : float) :
  is_zero e = false -> JS.Math_pow approx nan e = nan.
Proof.
  intros H. unfold JS.Math_pow. rewrite H. by destruct (is_nan e).
Qed.

Lemma brightness_missing (approx : float -> float -> float) (d : list Z)
    (p : Z) (g : float) :
  d !! Z.to_nat (p + 3) = None -> is_zero (1 / g) = false ->
  brightness approx d p g = nan.
Proof.
  intros Hd Hg. unfold brightness. by rewrite lum_missing, Math_pow_nan.
Qed.

Lemma quantize_zero (m : Z) : 0 <= m -> quantize (Some 0) m = 0.
Proof.
  intros Hm. unfold quantize.
  change (JS.ToInt32 (JS.num 0 / 17)) with 0. change (Z.rem 0 17) with 0.
  by destruct (Z.ltb_spec m 0); [lia|].
Qed.

(** ** Transparent pixels *)

Lemma mul_zero_fin (x : float) :
  fin (Prim2SF x) -> (x * 0)%float = 0%float \/ (x * 0)%float = neg_zero.
Proof.
  intros Hx.
  destruct (Prim2SF x) as [[]|[]| |[] m e] eqn:E; try done.
  - right. apply Prim2SF_inj. rewrite mul_spec, E. reflexivity.
  - left. apply Prim2SF_inj. rewrite mul_spec, E. reflexivity.
  - left. apply Prim2SF_inj. rewrite mul_spec, E. reflexivity.
Qed.

(** With alpha 0 the compositing over white leaves the white alone. *)
Lemma lum_transparent (d : list Z) (p : Z) :
  valid_pixel d p = true -> d !! Z.to_nat (p + 3) = Some 0 ->
  lum d p = 1%float.
Proof.
  unfold valid_pixel. intros H Ha. repeat (apply andb_true_iff in H as [H ?]).
  destruct (channel_rd d p) as (r & Er & Hr); [done|].
  destruct (channel_rd d (p + 1)) as (g & Eg & Hg); [done|].
  destruct (channel_rd d (p + 2)) as (b & Eb & Hb); [done|].
  assert (Ea : rd d (p + 3) = 0%float) by (unfold rd; by rewrite Ha).
  unfold lum. rewrite Er, Eg, Eb, Ea.
  destruct (weighted_sum_between r g b Hr Hg Hb) as [Hfin _].
  by destruct (mul_zero_fin _ Hfin) as [-> | ->].
Qed.

Section AttributeFacts.

Variable Number_toString : float -> jsstring.
Variable StringToNumber : jsstring -> float.

(** The loop of [addRow] only appends to its two accumulators. *)
Lemma attributes_acc (field : jsstring) (fs : list (jsstring * jsvalue)) :
  forall (a : jsstring) (c : list (jsstring * exception)),
    EpsonPrint.attributes Number_toString StringToNumber field fs a c
    = (a ++ (EpsonPrint.attributes Number_toString StringToNumber field fs [] []).1,
       c ++ (EpsonPrint.attributes Number_toString StringToNumber field fs [] []).2).
Proof.
  induction fs as [|[k v] fs IH]; intros a c; cbn [EpsonPrint.attributes].
  - by rewrite !app_nil_r.
  - destruct v; try apply IH;
      (destruct (EpsonPrint.attribute _ _ _ _ _) as [u|e];
       [rewrite (IH (a ++ u)), (IH ([] ++ u))
       |rewrite (IH a (c ++ [(k, e)])), (IH [] ([] ++ [(k, e)]))];
       cbn [fst snd app]; by rewrite <- ?app_assoc).
Qed.

Lemma attributes_app (field : jsstring) (fs gs : list (jsstring * jsvalue)) :
  EpsonPrint.attributes Number_toString StringToNumber field (fs ++ gs) [] []
  = ((EpsonPrint.attributes Number_toString StringToNumber field fs [] []).1
     ++ (EpsonPrint.attributes Number_toString StringToNumber field gs [] []).1,
     (EpsonPrint.attributes Number_toString StringToNumber field fs [] []).2
     ++ (EpsonPrint.attributes Number_toString StringToNumber field gs [] []).2).
Proof.
  induction fs as [|[k v] fs IH]; cbn [app EpsonPrint.attributes].
  - by destruct (EpsonPrint.attributes _ _ _ gs [] []).
  - destruct v; try apply IH;
      (destruct (EpsonPrint.attribute _ _ _ _ _) as [u|e];
       [rewrite (attributes_acc field (fs ++ gs) u),
                (attributes_acc field fs u)
       |rewrite (attributes_acc field (fs ++ gs) [] [(k, e)]),
                (attributes_acc field fs [] [(k, e)])];
       rewrite IH; cbn [fst snd app]; by rewrite <- ?app_assoc).
Qed.

End AttributeFacts.


(** * The claims of the specification *)


(** ** Sizes and validation *)

(** C2 (amended).  For every input with width >= 1, height >= 1 and a pixel
    buffer of length width*height*4: when width + 7 fits a signed 32-bit
    integer, [toMonoImage] returns a buffer of length exactly
    ceil(width/8) * height, and when width + 1 does, [toGrayImage] returns a
    buffer of length exactly ceil(width/2) * height, for every dither mode
    and every gamma. *)
Theorem output_length (approx : float -> float -> float) (imgdata : ImageData)
    (s : Z) (g : float) :
  1 <= width imgdata -> 1 <= height imgdata ->
  Z.of_nat (length (data imgdata)) = width imgdata * height imgdata * 4 ->
  (width imgdata + 7 < 2 ^ 31 ->
   exists out, toMonoImage approx imgdata s g = JS.Normal out
               /\ Z.of_nat (length out) = ceil_div (width imgdata) 8 * height imgdata)
  /\ (width imgdata + 1 < 2 ^ 31 ->
      exists out, toGrayImage approx imgdata g = JS.Normal out
                  /\ Z.of_nat (length out) = ceil_div (width imgdata) 2 * height imgdata).
Proof.
  intros Hw Hh _. split; intros Hw'.
  - destruct (toMonoImage_total approx imgdata s g) as [_ H].
    rewrite mono_size_ok in H by lia.
    assert (0 <= (width imgdata + 7) / 8) by (apply Z.div_pos; lia).
    destruct H as (out & Hout & Hlen & _); [nia|lia|].
    exists out. by rewrite ceil_div_8.
  - destruct (toGrayImage_total approx imgdata g) as [_ H].
    rewrite gray_size_ok in H by lia.
    assert (0 <= (width imgdata + 1) / 2) by (apply Z.div_pos; lia).
    destruct H as (out & Hout & Hlen & _); [nia|].
    exists out. by rewrite ceil_div_2.
Qed.

Lemma output_length_witness :
  (exists out, toMonoImage approx_unit (uniform white 3 2) 1 1 = JS.Normal out
               /\ Z.of_nat (length out) = ceil_div 3 8 * 2)
  /\ (exists out, toGrayImage approx_unit (uniform white 3 2) 1 = JS.Normal out
                  /\ Z.of_nat (length out) = ceil_div 3 2 * 2).
Proof.
  destruct (output_length approx_unit (uniform white 3 2) 1 1) as [H1 H2];
    [cbn; lia|cbn; lia|reflexivity|].
  split; [apply H1|apply H2]; cbn; lia.
Defined.

(** C2, as stated, fails on a valid input: a one-row image of width
    2^31 - 7 with its full pixel buffer makes [(w + 7) >> 3] negative, and
    the allocation of the output raises a [RangeError]; no buffer is
    returned. *)
Lemma output_length_wide_fails :
  1 <= width wide_image /\ 1 <= height wide_image
  /\ Z.of_nat (length (data wide_image))
     = width wide_image * height wide_image * 4
  /\ toMonoImage approx_unit wide_image 0 1 = JS.Throw JS.RangeError.
Proof.
  split; [cbn; lia|]. split; [cbn; lia|]. split.
  - unfold wide_image. cbn [data width height]. rewrite length_replicate. lia.
  - apply toMonoImage_total. left. reflexivity.
Qed.

(** C3 (amended).  Neither converter validates the dimensions or the buffer
    length, and neither has an [InvalidDimensions] error.  On an input with
    width <= 0, height <= 0 or a buffer length other than width*height*4,
    whose width and height are between - 2^14 and 2^14 (so that no buffer
    requested is beyond what the engine allocates), a call fails exactly
    when the computed size or width + 4 is negative: the allocation raises a
    [RangeError] before any pixel is read; otherwise it returns a buffer of
    the computed size, which is all zero when width <= 0 or height <= 0. *)
Theorem dimensions_not_checked (approx : float -> float -> float)
    (imgdata : ImageData) (s : Z) (g : float) :
  let w := width imgdata in
  let h := height imgdata in
  w <= 0 \/ h <= 0 \/ Z.of_nat (length (data imgdata)) <> w * h * 4 ->
  - max_dimension <= w <= max_dimension ->
  - max_dimension <= h <= max_dimension ->
  ((mono_size w h < 0 \/ w + 4 < 0) /\
     toMonoImage approx imgdata s g = JS.Throw JS.RangeError
   \/ (0 <= mono_size w h /\ 0 <= w + 4) /\
      exists out, toMonoImage approx imgdata s g = JS.Normal out
                  /\ Z.of_nat (length out) = mono_size w h
                  /\ (w <= 0 \/ h <= 0 -> out = replicate (Z.to_nat (mono_size w h)) 0))
  /\ (gray_size w h < 0 /\ toGrayImage approx imgdata g = JS.Throw JS.RangeError
      \/ 0 <= gray_size w h /\
         exists out, toGrayImage approx imgdata g = JS.Normal out
                     /\ Z.of_nat (length out) = gray_size w h
                     /\ (w <= 0 \/ h <= 0 -> out = replicate (Z.to_nat (gray_size w h)) 0)).
Proof.
  intros w h _ _ _. split.
  - destruct (toMonoImage_total approx imgdata s g) as [H1 H2]. fold w h in H1, H2.
    destruct (Z_lt_le_dec (mono_size w h) 0) as [Hs|Hs]; [left; split; [|apply H1]; lia|].
    destruct (Z_lt_le_dec (w + 4) 0) as [Hb|Hb]; [left; split; [|apply H1]; lia|].
    right. split; [lia|]. by apply H2.
  - destruct (toGrayImage_total approx imgdata g) as [H1 H2]. fold w h in H1, H2.
    destruct (Z_lt_le_dec (gray_size w h) 0) as [Hs|Hs]; [left; split; [|apply H1]; lia|].
    right. split; [lia|]. by apply H2.
Qed.

Lemma dimensions_not_checked_witness :
  ((mono_size 0 3 < 0 \/ 0 + 4 < 0) /\
     toMonoImage approx_unit (Build_ImageData [] 0 3) 1 1 = JS.Throw JS.RangeError
   \/ (0 <= mono_size 0 3 /\ 0 <= 0 + 4) /\
      exists out, toMonoImage approx_unit (Build_ImageData [] 0 3) 1 1 = JS.Normal out
                  /\ Z.of_nat (length out) = mono_size 0 3
                  /\ (0 <= 0 \/ 3 <= 0 -> out = replicate (Z.to_nat (mono_size 0 3)) 0))
  /\ (gray_size 0 3 < 0 /\
        toGrayImage approx_unit (Build_ImageData [] 0 3) 1 = JS.Throw JS.RangeError
      \/ 0 <= gray_size 0 3 /\
         exists out, toGrayImage approx_unit (Build_ImageData [] 0 3) 1 = JS.Normal out
                     /\ Z.of_nat (length out) = gray_size 0 3
                     /\ (0 <= 0 \/ 3 <= 0 -> out = replicate (Z.to_nat (gray_size 0 3)) 0)).
Proof.
  apply (dimensions_not_checked approx_unit (Build_ImageData [] 0 3) 1 1).
  - left. cbn. lia.
  - cbn. unfold max_dimension. lia.
  - cbn. unfold max_dimension. lia.
Defined.

(** C3, as stated, fails: with width 0 and height 0, and with a buffer
    shorter than width*height*4, both converters return normally. *)
Lemma dimensions_not_rejected :
  toMonoImage approx_unit (Build_ImageData [] 0 0) 1 1 = JS.Normal []
  /\ toGrayImage approx_unit (Build_ImageData [] 0 0) 1 = JS.Normal []
  /\ toMonoImage approx_unit (Build_ImageData [0; 0; 0] 1 1) 1 1 = JS.Normal [0]
  /\ toGrayImage approx_unit (Build_ImageData [0; 0; 0] 1 1) 1 = JS.Normal [0].
Proof. repeat split; vm_compute; reflexivity. Qed.

(** C8 (amended).  Neither converter validates gamma, and neither has an
    [InvalidGamma] error: for every gamma g <= 0 and every input with
    width >= 1, width + 7 below 2^31, height >= 1 and a pixel buffer of
    length width*height*4, both return normally a buffer of the usual
    length. *)
Theorem gamma_not_checked (approx : float -> float -> float)
    (imgdata : ImageData) (s : Z) (g : float) :
  (g <=? 0)%float = true ->
  1 <= width imgdata -> width imgdata + 7 < 2 ^ 31 -> 1 <= height imgdata ->
  Z.of_nat (length (data imgdata)) = width imgdata * height imgdata * 4 ->
  (exists out, toMonoImage approx imgdata s g = JS.Normal out
               /\ Z.of_nat (length out) = ceil_div (width imgdata) 8 * height imgdata)
  /\ (exists out, toGrayImage approx imgdata g = JS.Normal out
                  /\ Z.of_nat (length out) = ceil_div (width imgdata) 2 * height imgdata).
Proof.
  intros _ Hw Hw' Hh _. split.
  - destruct (toMonoImage_total approx imgdata s g) as [_ H].
    rewrite mono_size_ok in H by lia.
    assert (0 <= (width imgdata + 7) / 8) by (apply Z.div_pos; lia).
    destruct H as (out & Hout & Hlen & _); [nia|lia|].
    exists out. by rewrite ceil_div_8.
  - destruct (toGrayImage_total approx imgdata g) as [_ H].
    rewrite gray_size_ok in H by lia.
    assert (0 <= (width imgdata + 1) / 2) by (apply Z.div_pos; lia).
    destruct H as (out & Hout & Hlen & _); [nia|].
    exists out. by rewrite ceil_div_2.
Qed.

Lemma gamma_not_checked_witness :
  (exists out, toMonoImage approx_unit (uniform white 3 2) 1 (-2) = JS.Normal out
               /\ Z.of_nat (length out) = ceil_div 3 8 * 2)
  /\ (exists out, toGrayImage approx_unit (uniform white 3 2) (-2) = JS.Normal out
                  /\ Z.of_nat (length out) = ceil_div 3 2 * 2).
Proof.
  apply (gamma_not_checked approx_unit (uniform white 3 2) 1 (-2));
    [reflexivity|cbn; lia|cbn; lia|cbn; lia|reflexivity].
Defined.

(** C8, as stated, fails: with gamma 0 the exponent 1/g is +Infinity; a white
    pixel gets a NaN brightness ([Math.pow(1, Infinity)]), which
    [toMonoImage] turns into a light pixel and [toGrayImage] into table index
    0, the darkest level; with gamma -1 a black pixel gets the brightness
    +Infinity and is rendered light.  No error is raised. *)
Lemma gamma_not_rejected :
  toMonoImage approx_unit (uniform white 1 1) 0 0 = JS.Normal [0]
  /\ toGrayImage approx_unit (uniform white 1 1) 0 = JS.Normal [0]
  /\ toMonoImage approx_unit (uniform black 1 1) 0 (-1) = JS.Normal [0].
Proof. repeat split; vm_compute; reflexivity. Qed.

(** ** Packing *)

(** C4.  At every flush point of [toMonoImage] (each 8th column and each
    row's final column), whatever the input, the dither mode and the gamma,
    an accumulated byte equal to 16 is emitted as 32 and every other
    accumulated byte is emitted unchanged: the output is the list of the
    accumulated bytes with that substitution applied to each. *)
Theorem flush_substitution (approx : float -> float -> float)
    (imgdata : ImageData) (s : Z) (g : float) :
  1 <= width imgdata -> width imgdata + 7 < 2 ^ 31 -> 0 <= height imgdata ->
  toMonoImage approx imgdata s g
  = JS.Normal ((fun n => if n =? 16 then 32 else n)
                 <$> mono_raw_bytes (mono_decisions approx imgdata s g)).
Proof.
  intros Hw Hw' Hh. rewrite toMonoImage_packs by done.
  f_equal. apply mono_raw_bytes_emit.
Qed.

Lemma flush_substitution_witness :
  mono_raw_bytes (mono_decisions approx_unit row16 0 1) = [16]
  /\ toMonoImage approx_unit row16 0 1 = JS.Normal [32].
Proof.
  split; [vm_compute; reflexivity|].
  rewrite (flush_substitution approx_unit row16 0 1); [|cbn; lia..].
  vm_compute. reflexivity.
Defined.



(** C7.  In every row of the output, byte [k] packs the columns of slice [k]
    of the row, and only the last slice is short: when the width is not a
    multiple of 8 ([toMonoImage]) or of 2 ([toGrayImage]), every byte but the
    last of a row holds 8 decisions (2 levels), the last holds width mod 8
    decisions (one level), and its padding bits (its low nibble) are 0, for
    every dither mode -- also when the byte went through the 16-to-32
    substitution. *)
Theorem row_padding_zero (approx : float -> float -> float)
    (imgdata : ImageData) (s : Z) (g : float) (j k : Z) :
  let w := width imgdata in
  1 <= w -> w + 7 < 2 ^ 31 -> 0 <= j < height imgdata ->
  (w mod 8 <> 0 -> 0 <= k < ceil_div w 8 ->
   exists out bs,
     toMonoImage approx imgdata s g = JS.Normal out
     /\ mono_decisions approx imgdata s g !! Z.to_nat j = Some bs
     /\ let slice := take 8 (drop (Z.to_nat (8 * k)) bs) in
        out !! Z.to_nat (j * ceil_div w 8 + k) = Some (emit_byte (byte_of_bits slice))
        /\ (k < ceil_div w 8 - 1 -> length slice = 8%nat)
        /\ (k = ceil_div w 8 - 1 ->
            Z.of_nat (length slice) = w mod 8
            /\ forall m, 0 <= m < 8 - w mod 8 ->
                 Z.testbit (emit_byte (byte_of_bits slice)) m = false))
  /\ (w mod 2 <> 0 -> 0 <= k < ceil_div w 2 ->
      exists out vs,
        toGrayImage approx imgdata g = JS.Normal out
        /\ gray_levels approx imgdata g !! Z.to_nat j = Some vs
        /\ let slice := take 2 (drop (Z.to_nat (2 * k)) vs) in
           out !! Z.to_nat (j * ceil_div w 2 + k) = Some (byte_of_levels slice)
           /\ (k < ceil_div w 2 - 1 -> length slice = 2%nat)
           /\ (k = ceil_div w 2 - 1 ->
               length slice = 1%nat /\ Z.land (byte_of_levels slice) 15 = 0)).
Proof.
  intros w Hw Hw' Hj. split; intros Hmod Hk.
  - rewrite ceil_div_8 in *.
    destruct (toMonoImage_byte approx imgdata s g j k) as (out & bs & Hout & Hbs & Hlen & Hbyte);
      try done.
    fold w in Hlen, Hbyte.
    exists out, bs. split; [done|]. split; [done|]. cbv zeta.
    split; [done|].
    pose proof (slice_length bs 8 k) as Hs. change (Z.to_nat 8) with 8%nat in Hs.
    rewrite Hlen, Z2Nat.id in Hs by lia.
    split.
    + intros Hk'. enough (Z.of_nat (length (take 8 (drop (Z.to_nat (8 * k)) bs))) = 8) by lia.
      rewrite Hs; Z.div_mod_to_equations; lia.
    + intros Hk'.
      assert (Hsl : Z.of_nat (length (take 8 (drop (Z.to_nat (8 * k)) bs))) = w mod 8).
      { rewrite Hs; Z.div_mod_to_equations; lia. }
      split; [done|]. intros m Hm. apply emit_byte_padding; lia.
  - rewrite ceil_div_2 in *.
    destruct (toGrayImage_byte approx imgdata g j k)
      as (out & vs & Hout & Hvs & Hlen & Hrange & Hbyte); try done; [lia|].
    fold w in Hlen, Hbyte.
    exists out, vs. split; [done|]. split; [done|]. cbv zeta.
    split; [done|].
    pose proof (slice_length vs 2 k) as Hs. change (Z.to_nat 2) with 2%nat in Hs.
    rewrite Hlen, Z2Nat.id in Hs by lia.
    split.
    + intros Hk'. enough (Z.of_nat (length (take 2 (drop (Z.to_nat (2 * k)) vs))) = 2) by lia.
      rewrite Hs; Z.div_mod_to_equations; lia.
    + intros Hk'.
      assert (Hsl : Z.of_nat (length (take 2 (drop (Z.to_nat (2 * k)) vs))) = 1).
      { rewrite Hs; Z.div_mod_to_equations; lia. }
      split; [lia|].
      destruct (take 2 (drop (Z.to_nat (2 * k)) vs)) as [|v [|? ?]];
        cbn [length] in Hsl; try lia.
      apply byte_of_levels_single.
Qed.


Lemma row_padding_zero_witness :
  exists out bs,
    toMonoImage approx_unit (uniform black 11 2) 1 1 = JS.Normal out
    /\ mono_decisions approx_unit (uniform black 11 2) 1 1 !! 1%nat = Some bs
    /\ out !! 3%nat = Some (emit_byte (byte_of_bits (take 8 (drop 8 bs))))
    /\ forall m, 0 <= m < 5 ->
         Z.testbit (emit_byte (byte_of_bits (take 8 (drop 8 bs)))) m = false.
Proof.
  destruct (row_padding_zero approx_unit (uniform black 11 2) 1 1 1 1) as [H _].
  - cbn [uniform width]. lia.
  - cbn [uniform width]. lia.
  - cbn [uniform height]. lia.
  - destruct H as (out & bs & Hout & Hbs & Hbyte & _ & Hpad).
    + cbn [uniform width]. vm_compute. discriminate.
    + cbn [uniform width]. rewrite ceil_div_8. change ((11 + 7) / 8) with 2. lia.
    + cbn [uniform width] in *. rewrite ceil_div_8 in *. change ((11 + 7) / 8) with 2 in *.
      destruct Hpad as [_ Hpad]; [lia|].
      exists out, bs. split; [exact Hout|]. split; [exact Hbs|]. split; [exact Hbyte|].
      exact Hpad.
Defined.


(** ** Uniform images *)

(** C6 (amended).  For every width >= 1 with width + 7 below 2^31, every
    height >= 1 and gamma 1, on an engine whose [Math.pow] gives 1 for 1 to
    the power 1:
    an image whose every pixel is (255,255,255,255) gives an all-light
    output -- every byte of [toMonoImage] is 0 under every dither mode, and
    every nibble of [toGrayImage] that holds a pixel is 15 -- and an image
    whose every pixel is (0,0,0,255) gives an all-dark output -- every bit
    of [toMonoImage] that holds a pixel is 1, and every byte of
    [toGrayImage] is 0. *)
Theorem white_and_black (approx : float -> float -> float) (w h s : Z) :
  1 <= w -> w + 7 < 2 ^ 31 -> 1 <= h -> approx 1%float 1%float = 1%float ->
  (exists out, toMonoImage approx (uniform white w h) s 1 = JS.Normal out
               /\ Forall (fun x => x = 0) out)
  /\ (exists out, toGrayImage approx (uniform white w h) 1 = JS.Normal out
        /\ forall j i, 0 <= j < h -> 0 <= i < w ->
             exists x, out !! Z.to_nat (j * ceil_div w 2 + i / 2) = Some x
                       /\ (if i mod 2 =? 0 then x / 16 else x mod 16) = 15)
  /\ (exists out, toMonoImage approx (uniform black w h) s 1 = JS.Normal out
        /\ forall j i, 0 <= j < h -> 0 <= i < w ->
             exists x, out !! Z.to_nat (j * ceil_div w 8 + i / 8) = Some x
                       /\ Z.testbit x (7 - i mod 8) = true)
  /\ (exists out, toGrayImage approx (uniform black w h) 1 = JS.Normal out
                  /\ Forall (fun x => x = 0) out).
Proof.
  intros Hw Hw' Hh Hpow.
  assert (Hgray : forall px v, length px = 4%nat -> 0 <= v <= 15 ->
            (forall m, 0 <= m <= 16 ->
               quantize (thermal_at (JS.ToInt32 (brightness approx px 0 1))) m = v) ->
            exists out, toGrayImage approx (uniform px w h) 1 = JS.Normal out
              /\ forall j i, 0 <= j < h -> 0 <= i < w ->
                   exists x, out !! Z.to_nat (j * ceil_div w 2 + i / 2) = Some x
                             /\ (if i mod 2 =? 0 then x / 16 else x mod 16) = v).
  { intros px v Hpx Hv Hq.
    eexists. split; [apply toGrayImage_packs; cbn; lia|].
    intros j i Hj Hi.
    destruct (toGrayImage_byte approx (uniform px w h) 1 j (i / 2))
      as (out & vs & Hout & Hvs & Hlen & _ & Hbyte); cbn [uniform width height];
      try lia; [Z.div_mod_to_equations; lia|].
    rewrite toGrayImage_packs in Hout by (cbn; lia). injection Hout as <-.
    rewrite gray_levels_flat with (v := v) in Hvs by (done || lia).
    apply replicate_row in Hvs. cbn [uniform width] in Hbyte.
    rewrite ceil_div_2. eexists. split; [exact Hbyte|].
    set (slice := take 2 (drop (Z.to_nat (2 * (i / 2))) vs)).
    assert (Hsl : Z.of_nat (length slice) = Z.min 2 (w - 2 * (i / 2))).
    { pose proof (slice_length vs 2 (i / 2)) as Hs.
      change (Z.to_nat 2) with 2%nat in Hs. unfold slice.
      rewrite Hs; rewrite ?Hlen; cbn [uniform width];
        try (Z.div_mod_to_equations; lia). }
    replace (i mod 2 =? 0) with (i mod 2 =? 0) by done.
    pose proof (byte_of_levels_nibble slice v (i mod 2) Hv) as Hn.
    apply Hn.
    - apply slice_uniform. rewrite Hvs. by apply Forall_replicate.
    - lia.
    - Z.div_mod_to_equations. lia. }
  split; [|split; [|split]].
  - eexists. split; [apply toMonoImage_packs; cbn; lia|].
    rewrite mono_decisions_flat with (dark := false)
      by (done || lia || by apply white_flat).
    rewrite fmap_replicate. apply Forall_concat_replicate, mono_pack_row_light.
  - apply Hgray; [done|lia|].
    intros m Hm. rewrite brightness_white by done. unfold quantize.
    change (thermal_at (JS.ToInt32 255)) with (Some 255). cbv iota beta.
    change (JS.ToInt32 (JS.num 255 / 17)) with 15. change (Z.rem 255 17) with 0.
    destruct (Z.ltb_spec m 0); [lia|done].
  - eexists. split; [apply toMonoImage_packs; cbn; lia|].
    intros j i Hj Hi.
    destruct (toMonoImage_byte approx (uniform black w h) s 1 j (i / 8))
      as (out & bs & Hout & Hbs & Hlen & Hbyte); cbn [uniform width height];
      try lia; [Z.div_mod_to_equations; lia|].
    rewrite toMonoImage_packs in Hout by (cbn; lia). injection Hout as <-.
    rewrite mono_decisions_flat with (dark := true) in Hbs
      by (done || lia || apply black_flat).
    apply replicate_row in Hbs. cbn [uniform width] in Hbyte, Hlen.
    rewrite ceil_div_8. eexists. split; [exact Hbyte|].
    set (slice := take 8 (drop (Z.to_nat (8 * (i / 8))) bs)).
    assert (Hsl : Z.of_nat (length slice) = Z.min 8 (w - 8 * (i / 8))).
    { pose proof (slice_length bs 8 (i / 8)) as Hs.
      change (Z.to_nat 8) with 8%nat in Hs. unfold slice.
      rewrite Hs; rewrite ?Hlen; try (Z.div_mod_to_equations; lia). }
    apply byte_of_bits_dark.
    + lia.
    + apply slice_uniform. rewrite Hbs. by apply Forall_replicate.
    + Z.div_mod_to_equations. lia.
  - eexists. split; [apply toGrayImage_packs; cbn; lia|].
    rewrite gray_levels_flat with (v := 0); try done; try lia.
    + rewrite fmap_replicate. apply Forall_concat_replicate, gray_pack_row_black.
    + intros m Hm. rewrite brightness_black. unfold quantize.
      change (thermal_at (JS.ToInt32 0)) with (Some 0). cbv iota beta.
      change (JS.ToInt32 (JS.num 0 / 17)) with 0. change (Z.rem 0 17) with 0.
      destruct (Z.ltb_spec m 0); [lia|done].
Qed.

Lemma white_and_black_witness :
  (exists out, toMonoImage approx_unit (uniform white 11 2) 1 1 = JS.Normal out
               /\ Forall (fun x => x = 0) out)
  /\ (exists out, toGrayImage approx_unit (uniform white 11 2) 1 = JS.Normal out
        /\ forall j i, 0 <= j < 2 -> 0 <= i < 11 ->
             exists x, out !! Z.to_nat (j * ceil_div 11 2 + i / 2) = Some x
                       /\ (if i mod 2 =? 0 then x / 16 else x mod 16) = 15)
  /\ (exists out, toMonoImage approx_unit (uniform black 11 2) 1 1 = JS.Normal out
        /\ forall j i, 0 <= j < 2 -> 0 <= i < 11 ->
             exists x, out !! Z.to_nat (j * ceil_div 11 8 + i / 8) = Some x
                       /\ Z.testbit x (7 - i mod 8) = true)
  /\ (exists out, toGrayImage approx_unit (uniform black 11 2) 1 = JS.Normal out
                  /\ Forall (fun x => x = 0) out).
Proof.
  apply (white_and_black approx_unit 11 2 1); [lia|lia|lia|reflexivity].
Defined.

(** C6, as stated, fails: the image of width 2^31 - 7 and height 1 whose
    every pixel is (255,255,255,255) gives no all-light output, on an engine
    whose [Math.pow] gives 1 for 1 to the power 1 and at gamma 1:
    [(w + 7) >> 3] is negative and [toMonoImage] raises the [RangeError] of
    the allocation, under every dither mode. *)
Lemma white_wide_no_output :
  1 <= 2 ^ 31 - 7 /\ 1 <= 1 /\ approx_unit 1%float 1%float = 1%float
  /\ toMonoImage approx_unit (uniform white (2 ^ 31 - 7) 1) 0 1
     = JS.Throw JS.RangeError
  /\ toMonoImage approx_unit (uniform white (2 ^ 31 - 7) 1) 1 1
     = JS.Throw JS.RangeError
  /\ toMonoImage approx_unit (uniform white (2 ^ 31 - 7) 1) 2 1
     = JS.Throw JS.RangeError
  /\ toMonoImage approx_unit (uniform white (2 ^ 31 - 7) 1) 3 1
     = JS.Throw JS.RangeError.
Proof.
  split; [lia|]. split; [lia|]. split; [reflexivity|].
  repeat split; apply toMonoImage_total; left; reflexivity.
Qed.


(** ** Error diffusion *)

(** C1 (the code breaks the claim).  On a 1 x 5 image of mid-gray pixels
    (100,100,100,255) under Floyd-Steinberg with gamma 1: after the first two
    rows the three slots of [errorBuffer] all hold the reference of the third
    buffer; the error pending for the third row, -38.671875 at its pixel, is
    zeroed by the [fill(0)] that opens that row; and the converter returns
    dark pixels in the last three rows, where a conserved error would make
    the last row light. *)
Theorem pending_error_erased :
  let d := data (uniform [100; 100; 100; 255] 1 5) in
  let start := (MonoState 0 0 0 (replicate 5 0) (fresh_store 1), [0; 1; 2]%nat) in
  let '(st, errorBuffer) := foldl (mono_row approx_unit d 1 1 1) start [0; 1] in
  errorBuffer = [2; 2; 2]%nat
  /\ buf_get (st_bufs st) (nth 0 errorBuffer 0%nat) 2 = (-38.671875)%float
  /\ buf_get (buf_fill0 (st_bufs st) (nth 2 errorBuffer 0%nat))
             (nth 0 errorBuffer 0%nat) 2 = 0%float
  /\ toMonoImage approx_unit (uniform [100; 100; 100; 255] 1 5) 1 1
     = JS.Normal [128; 0; 128; 128; 128].
Proof. vm_compute. repeat split; reflexivity. Qed.

(** C5 (the code breaks the claim).  On a 2 x 3 image of gray pixels
    (88,88,88,255) under Floyd-Steinberg with gamma 1, in the third row the
    three row buffers are one and the same: the pixel at column 0 is dark
    with quantization error 88, and the error pending for its right
    neighbour is then 44 = 8/16 of the error (the 7/16 share plus the 1/16
    share meant for the next row), not 38.5 = 7/16 of it; the 3/16 and 5/16
    shares meant for the next row land in the current row's buffer too. *)
Theorem kernel_shares_collide :
  let d := data (uniform [88; 88; 88; 255] 2 3) in
  let start := (MonoState 0 0 0 (replicate 3 0) (fresh_store 2), [0; 1; 2]%nat) in
  let '(st, errorBuffer) := foldl (mono_row approx_unit d 2 1 1) start [0; 1] in
  let cur := nth 0 errorBuffer 0%nat in
  let nxt := nth 1 errorBuffer 0%nat in
  let nxt2 := nth 2 errorBuffer 0%nat in
  let hp := buf_fill0 (st_bufs st) nxt2 in
  let '(isDark, hp') := mono_decide approx_unit d 1 1 cur nxt nxt2 2 0 (st_p st) hp in
  cur = nxt /\ nxt = nxt2
  /\ mono_value approx_unit d 1 1 cur 0 (st_p st) hp = 88%float /\ isDark = true
  /\ (88 * 7 / 16)%float = 38.5%float
  /\ buf_get hp' cur 3 = 44%float
  /\ buf_get hp' cur 1 = 16.5%float /\ buf_get hp' cur 2 = 27.5%float.
Proof. vm_compute. repeat split; reflexivity. Qed.

(** ** Grayscale quantisation *)

(** C10.  For every pixel of the image whose four channels are in [0, 255]
    and every gamma g > 0, on an engine whose [Math.pow] maps a base in
    (0, 1] and a finite positive exponent into [0, 1]: the index of the
    thermal-table lookup is in [0, 255], so the lookup yields an entry [v] of
    the table; the level is [v / 17], plus one when the dither-matrix entry
    is below [v mod 17], and a quotient of 15 comes with a remainder of 0;
    the level is in [0, 15]; and the nibble of the returned buffer that holds
    the pixel (high for an even column, low for an odd one) is exactly this
    level, the byte staying below 256. *)
Theorem gray_level_in_range (approx : float -> float -> float)
    (imgdata : ImageData) (g : float) (j i : Z) :
  approx_in_unit approx ->
  1 <= width imgdata -> width imgdata + 1 < 2 ^ 31 ->
  0 <= j < height imgdata -> 0 <= i < width imgdata ->
  valid_pixel (data imgdata) (4 * (j * width imgdata + i)) = true ->
  (0 <? g)%float = true ->
  let p := 4 * (j * width imgdata + i) in
  let k := thermal_index approx (data imgdata) p g in
  let v1 := gray_level approx (data imgdata) g j i p in
  0 <= k <= 255
  /\ (exists v, thermal_at k = Some v /\ 0 <= v <= 255
        /\ v1 = v / 17
                + (if tbl2 m4 (Z.land j 3) (Z.land i 3) <? v mod 17 then 1 else 0)
        /\ (v / 17 = 15 -> v mod 17 = 0))
  /\ 0 <= v1 <= 15
  /\ exists out byte,
       toGrayImage approx imgdata g = JS.Normal out
       /\ out !! Z.to_nat (j * ((width imgdata + 1) / 2) + i / 2) = Some byte
       /\ 0 <= byte < 256
       /\ (if Z.even i then Z.shiftr byte 4 else Z.land byte 15) = v1.
Proof.
  intros Happrox Hw Hw' Hj Hi Hp Hg p k v1.
  pose proof (thermal_index_range approx Happrox (data imgdata) p g Hp Hg) as Hk.
  fold k in Hk. split; [done|]. split.
  - destruct (thermal_at_Some k Hk) as (v & Ev & Hv).
    exists v. split; [done|]. split; [done|]. split.
    + unfold v1, gray_level. fold k. rewrite Ev.
      apply quantize_Some. by eapply thermal_at_elem.
    + Z.div_mod_to_equations. lia.
  - split; [apply gray_level_range|].
    apply (toGrayImage_nibble approx imgdata g j i Hw Hw' Hj Hi).
Qed.

Lemma gray_level_in_range_witness :
  let p := 4 * (4 * width gradient + 0) in
  let k := thermal_index approx_unit (data gradient) p 1 in
  let v1 := gray_level approx_unit (data gradient) 1 4 0 p in
  0 <= k <= 255
  /\ (exists v, thermal_at k = Some v /\ 0 <= v <= 255
        /\ v1 = v / 17
                + (if tbl2 m4 (Z.land 4 3) (Z.land 0 3) <? v mod 17 then 1 else 0)
        /\ (v / 17 = 15 -> v mod 17 = 0))
  /\ 0 <= v1 <= 15
  /\ exists out byte,
       toGrayImage approx_unit gradient 1 = JS.Normal out
       /\ out !! Z.to_nat (4 * ((width gradient + 1) / 2) + 0 / 2) = Some byte
       /\ 0 <= byte < 256
       /\ (if Z.even 0 then Z.shiftr byte 4 else Z.land byte 15) = v1.
Proof.
  apply (gray_level_in_range approx_unit gradient 1 4 0).
  - exact approx_unit_in_unit.
  - cbn [gradient width]. lia.
  - cbn [gradient width]. lia.
  - cbn [gradient height]. lia.
  - cbn [gradient width]. lia.
  - vm_compute. reflexivity.
  - vm_compute. reflexivity.
Defined.

(** C9.  The thermal table is monotonic non-decreasing; and in [toGrayImage]
    with a gamma g > 0 (on an engine whose [Math.pow] maps a base in (0, 1]
    and a finite positive exponent into [0, 1]), for two pixels of the image
    with channels in [0, 255] whose dither-matrix entries
    [m4[row & 3][col & 3]] are equal: when the sampled brightness of the
    first is strictly below that of the second, the nibble of the returned
    buffer that holds the first is not above the nibble that holds the
    second. *)
Theorem gray_quantization_monotone (approx : float -> float -> float)
    (imgdata : ImageData) (g : float) (j1 i1 j2 i2 : Z) :
  approx_in_unit approx ->
  1 <= width imgdata -> width imgdata + 1 < 2 ^ 31 ->
  0 <= j1 < height imgdata -> 0 <= i1 < width imgdata ->
  0 <= j2 < height imgdata -> 0 <= i2 < width imgdata ->
  valid_pixel (data imgdata) (4 * (j1 * width imgdata + i1)) = true ->
  valid_pixel (data imgdata) (4 * (j2 * width imgdata + i2)) = true ->
  (0 <? g)%float = true ->
  tbl2 m4 (Z.land j1 3) (Z.land i1 3) = tbl2 m4 (Z.land j2 3) (Z.land i2 3) ->
  (brightness approx (data imgdata) (4 * (j1 * width imgdata + i1)) g
   <? brightness approx (data imgdata) (4 * (j2 * width imgdata + i2)) g)%float
  = true ->
  (forall k1 k2 v1 v2, 0 <= k1 -> k1 <= k2 ->
     thermal_at k1 = Some v1 -> thermal_at k2 = Some v2 -> v1 <= v2)
  /\ exists out b1 b2,
       toGrayImage approx imgdata g = JS.Normal out
       /\ out !! Z.to_nat (j1 * ((width imgdata + 1) / 2) + i1 / 2) = Some b1
       /\ out !! Z.to_nat (j2 * ((width imgdata + 1) / 2) + i2 / 2) = Some b2
       /\ (if Z.even i1 then Z.shiftr b1 4 else Z.land b1 15)
          <= (if Z.even i2 then Z.shiftr b2 4 else Z.land b2 15).
Proof.
  intros Happrox Hw Hw' Hj1 Hi1 Hj2 Hi2 Hp1 Hp2 Hg Hm Hlt.
  split; [exact thermal_monotone|].
  destruct (toGrayImage_nibble approx imgdata g j1 i1 Hw Hw' Hj1 Hi1)
    as (out & b1 & Hout & Hb1 & _ & Hn1).
  destruct (toGrayImage_nibble approx imgdata g j2 i2 Hw Hw' Hj2 Hi2)
    as (out' & b2 & Hout' & Hb2 & _ & Hn2).
  rewrite Hout in Hout'. injection Hout' as <-.
  exists out, b1, b2. split; [done|]. split; [done|]. split; [done|].
  rewrite Hn1, Hn2. unfold gray_level. rewrite Hm.
  pose proof (thermal_index_range approx Happrox _ _ g Hp1 Hg) as Hk1.
  pose proof (thermal_index_range approx Happrox _ _ g Hp2 Hg) as Hk2.
  pose proof (thermal_index_mono approx Happrox _ _ _ g Hp1 Hp2 Hg Hlt) as Hk.
  apply quantize_mono; lia.
Qed.

Lemma gray_quantization_monotone_witness :
  (forall k1 k2 v1 v2, 0 <= k1 -> k1 <= k2 ->
     thermal_at k1 = Some v1 -> thermal_at k2 = Some v2 -> v1 <= v2)
  /\ exists out b1 b2,
       toGrayImage approx_unit gradient 1 = JS.Normal out
       /\ out !! Z.to_nat (0 * ((width gradient + 1) / 2) + 0 / 2) = Some b1
       /\ out !! Z.to_nat (4 * ((width gradient + 1) / 2) + 0 / 2) = Some b2
       /\ (if Z.even 0 then Z.shiftr b1 4 else Z.land b1 15)
          <= (if Z.even 0 then Z.shiftr b2 4 else Z.land b2 15).
Proof.
  apply (gray_quantization_monotone approx_unit gradient 1 0 0 4 0).
  - exact approx_unit_in_unit.
  - cbn [gradient width]. lia.
  - cbn [gradient width]. lia.
  - cbn [gradient height]. lia.
  - cbn [gradient width]. lia.
  - cbn [gradient height]. lia.
  - cbn [gradient width]. lia.
  - vm_compute. reflexivity.
  - vm_compute. reflexivity.
  - vm_compute. reflexivity.
  - vm_compute. reflexivity.
  - vm_compute. reflexivity.
Defined.

(** * Further properties of the code *)

(** ** Escaping *)

(** X1.  Of the characters [escapeMarkup] replaces (less-than, greater-than,
    ampersand, apostrophe, double quote, tab, line feed, carriage return),
    only the ampersand occurs in its result, for every string. *)
Theorem escapeMarkup_no_markup (s : jsstring) :
  Forall (fun c => markup c = false \/ c = 38%N) (escapeMarkup s).
Proof. apply escapeMarkup_chars. Qed.

(** X2.  [escapeMarkup] is injective: two strings with the same escaped form
    are the same string. *)
Theorem escapeMarkup_injective (s t : jsstring) :
  escapeMarkup s = escapeMarkup t -> s = t.
Proof. apply escapeMarkup_inj. Qed.

Lemma escapeMarkup_injective_witness : lit "a<" ++ lit "b" = lit "a<b".
Proof.
  apply (escapeMarkup_injective (lit "a<" ++ lit "b") (lit "a<b")).
  reflexivity.
Defined.

(** X3.  [escapeMarkup] never shortens a string, and leaves it unchanged
    exactly when it holds none of the replaced characters; so escaping an
    already escaped string that held one changes it again. *)
Theorem escapeMarkup_fixed (s : jsstring) :
  (length s <= length (escapeMarkup s))%nat
  /\ (escapeMarkup s = s <-> existsb markup s = false)
  /\ (existsb markup s = true ->
      escapeMarkup (escapeMarkup s) <> escapeMarkup s).
Proof.
  pose proof (replace_markup_length s) as [Hle Hlt].
  assert (Hfix : forall u, escapeMarkup u = u <-> existsb markup u = false).
  { intros u. pose proof (replace_markup_length u) as [_ Hu]. split.
    - intros H. destruct (existsb markup u) eqn:E; [|done].
      specialize (Hu eq_refl). rewrite escapeMarkup_replace in H.
      rewrite H in Hu. lia.
    - intros H. unfold escapeMarkup. by rewrite H. }
  split; [by rewrite escapeMarkup_replace|]. split; [apply Hfix|].
  intros Hs Heq. apply Hfix in Heq.
  assert (Hamp : existsb markup (escapeMarkup s) = true); [|congruence].
  rewrite escapeMarkup_replace. clear -Hs.
  induction s as [|c s IH]; [done|].
  rewrite replace_class_cons, existsb_app. cbn [existsb] in Hs.
  destruct (markup c) eqn:E.
  - apply markup_cases in E.
    destruct E as [->|[->|[->|[->|[->|[->|[->| ->]]]]]]]; done.
  - cbn [orb] in Hs. rewrite (IH Hs). apply orb_true_r.
Qed.

(** X4.  The result of [escapeControl] holds no code unit in 0x00-0x1f or
    0x7f-0xff, for every string: every code unit is in 0x20-0x7e or above
    0xff. *)
Theorem escapeControl_printable (s : jsstring) :
  Forall (fun c => (32 <= c < 127 \/ 255 < c)%N) (escapeControl s).
Proof.
  rewrite escapeControl_replace. apply Forall_replace_class.
  - intros c Hc.
    destruct (control_escape_word c Hc) as [[-> _]|(-> & _ & Hlt)].
    + repeat (apply Forall_cons; split; [lia|]). by apply Forall_nil.
    + pose proof (hex_digit_range (c / 16 mod 16) ltac:(apply N.mod_lt; lia)).
      pose proof (hex_digit_range (c mod 16) ltac:(apply N.mod_lt; lia)).
      repeat (apply Forall_cons; split; [lia|]). by apply Forall_nil.
  - intros c Hc. by apply control_false in Hc as [_ ?].
Qed.

(** X5.  [escapeControl] is injective. *)
Theorem escapeControl_injective (s t : jsstring) :
  escapeControl s = escapeControl t -> s = t.
Proof. apply escapeControl_inj. Qed.

Lemma escapeControl_injective_witness :
  [97%N; 92%N] ++ [7%N] = [97%N; 92%N; 7%N].
Proof.
  apply (escapeControl_injective ([97%N; 92%N] ++ [7%N]) [97%N; 92%N; 7%N]).
  reflexivity.
Defined.

(** X6.  The data of a symbol or a barcode, [escapeControl(escapeMarkup(s))]:
    every code unit of it is in 0x20-0x7e or above 0xff and is none of
    less-than, greater-than, apostrophe and double quote; and the
    composition is injective. *)
Theorem escaped_data_safe (s : jsstring) :
  Forall (fun c => (32 <= c < 127 \/ 255 < c)%N
                   /\ c <> 60%N /\ c <> 62%N /\ c <> 39%N /\ c <> 34%N)
         (escapeControl (escapeMarkup s))
  /\ forall t, escapeControl (escapeMarkup s) = escapeControl (escapeMarkup t)
               -> s = t.
Proof.
  split.
  - rewrite escapeControl_replace.
    apply (Forall_replace_class_on _ _ _ _ _ (escapeMarkup_chars s)).
    + intros c Hc.
      destruct (control_escape_word c Hc) as [[-> _]|(-> & _ & Hlt)].
      * repeat (apply Forall_cons; split; [lia|]). by apply Forall_nil.
      * pose proof (hex_digit_range (c / 16 mod 16) ltac:(apply N.mod_lt; lia)).
        pose proof (hex_digit_range (c mod 16) ltac:(apply N.mod_lt; lia)).
        repeat (apply Forall_cons; split; [lia|]). by apply Forall_nil.
    + intros c Hm Hc. apply control_false in Hc as [_ Hc]. split; [done|].
      destruct Hm as [Hm| ->]; [|lia].
      unfold markup in Hm. rewrite !orb_false_iff, !N.eqb_neq in Hm. tauto.
  - intros t H. by apply escapeMarkup_inj, escapeControl_inj.
Qed.

(** X7.  [toHexBinary] gives two lower-case hexadecimal digits per code unit,
    and they are the digits of the code unit modulo 256: a code unit above
    0xff loses its high byte. *)
Theorem toHexBinary_pairs (s : jsstring) :
  length (toHexBinary s) = (2 * length s)%nat
  /\ forall (i : nat) (c : N), s !! i = Some c ->
       toHexBinary s !! (2 * i)%nat = Some (hex_digit (c mod 256 / 16))
       /\ toHexBinary s !! (2 * i + 1)%nat = Some (hex_digit (c mod 256 mod 16)).
Proof.
  unfold toHexBinary. split.
  - induction s as [|c s IH]; [done|].
    cbn [fmap list_fmap concat]. rewrite length_app, IH, hex_pair_digits.
    cbn [length]. lia.
  - induction s as [|a s IH]; intros i c Hi; [done|].
    cbn [fmap list_fmap concat]. rewrite hex_pair_digits.
    destruct i as [|i].
    + injection Hi as ->. cbn [lookup list_lookup app Nat.mul Nat.add].
      replace (c mod 256 / 16)%N with (c / 16 mod 16)%N.
      2:{ change 256%N with (16 * 16)%N. rewrite N.Div0.mod_mul_r.
          rewrite N.mul_comm, N.div_add by lia.
          rewrite (N.div_small (c mod 16) 16) by (apply N.mod_lt; lia). lia. }
      replace (c mod 256 mod 16)%N with (c mod 16)%N.
      2:{ change 256%N with (16 * 16)%N. rewrite N.Div0.mod_mul_r.
          rewrite N.mul_comm, N.Div0.mod_add. by rewrite N.Div0.mod_mod. }
      done.
    + cbn [lookup list_lookup] in Hi. specialize (IH i c Hi).
      replace (2 * S i)%nat with (S (S (2 * i))) by lia.
      replace (S (S (2 * i)) + 1)%nat with (S (S (2 * i + 1))) by lia.
      exact IH.
Qed.

(** ** Column text *)

(** X8.  [formatColumnText] with an integer width [n], when the texts and
    the line fit a string (the width [n], [n] copies of [char], and the two
    texts with a separator are at most 2^28 - 16 code units long): when the
    two texts leave room, [left.length + right.length < n], the result is
    [left], then [n - left.length - right.length] copies of [char], then
    [right], which is [n] code units long for a [char] of one code unit;
    otherwise the result is [left], one space and [right], which is longer
    than [n]: the texts are never cut, and texts that fill the width exactly
    overflow it by the space. *)
Theorem formatColumnText_integer (left right char : jsstring) (n : Z) :
  0 <= n <= max_string_length ->
  n * Z.of_nat (length char) <= max_string_length ->
  Z.of_nat (length left) + Z.of_nat (length right) < max_string_length ->
  let l := Z.of_nat (length left) in
  let r := Z.of_nat (length right) in
  exists out,
    formatColumnText left right (JS.num n) char = JS.Normal out
    /\ (l + r < n ->
        out = left ++ concat (replicate (Z.to_nat (n - l - r)) char) ++ right
        /\ (length char = 1%nat -> Z.of_nat (length out) = n))
    /\ (n <= l + r ->
        out = left ++ lit " " ++ right /\ n < Z.of_nat (length out)).
Proof.
  intros Hn _ Hlr. unfold max_string_length in Hn, Hlr.
  apply formatColumnText_num; lia.
Qed.

Lemma formatColumnText_integer_witness :
  let l := Z.of_nat (length (lit "Total")) in
  let r := Z.of_nat (length (lit "9.50")) in
  exists out,
    formatColumnText (lit "Total") (lit "9.50") (JS.num 12) (lit ".")
    = JS.Normal out
    /\ (l + r < 12 ->
        out = lit "Total" ++ concat (replicate (Z.to_nat (12 - l - r)) (lit "."))
              ++ lit "9.50"
        /\ (length (lit ".") = 1%nat -> Z.of_nat (length out) = 12))
    /\ (12 <= l + r ->
        out = lit "Total" ++ lit " " ++ lit "9.50" /\ 12 < Z.of_nat (length out)).
Proof.
  apply (formatColumnText_integer (lit "Total") (lit "9.50") (lit ".") 12).
  - unfold max_string_length. lia.
  - vm_compute. discriminate.
  - vm_compute. reflexivity.
Defined.

(** X9.  [formatColumnText] with a width that is not a number (as for a
    missing argument) joins the texts with one space; with the width
    [Infinity] it raises the [RangeError] of [String.prototype.repeat]. *)
Theorem formatColumnText_no_width (left right char : jsstring) :
  Z.of_nat (length left) < 2 ^ 53 -> Z.of_nat (length right) < 2 ^ 53 ->
  formatColumnText left right nan char = JS.Normal (left ++ lit " " ++ right)
  /\ formatColumnText left right infinity char = JS.Throw JS.RangeError.
Proof. apply formatColumnText_special. Qed.

Lemma formatColumnText_no_width_witness :
  formatColumnText (lit "Total") (lit "9.50") nan (lit ".")
  = JS.Normal (lit "Total" ++ lit " " ++ lit "9.50")
  /\ formatColumnText (lit "Total") (lit "9.50") infinity (lit ".")
     = JS.Throw JS.RangeError.
Proof.
  apply (formatColumnText_no_width (lit "Total") (lit "9.50") (lit ".")).
  - vm_compute. reflexivity.
  - vm_compute. reflexivity.
Defined.

(** ** The markup builder *)

(** X10.  [addColumnText] on an object whose [charsPerLine] was never set
    (the field is undefined, so the width is not a number) appends a text
    element with the two escaped texts joined by one space and followed by
    the character reference of the line feed; after [setCharsPerLine(n)],
    for a width [n] of at most 2^28 - 16, texts that leave room and a
    resulting message of at most 2^28 - 16 code units, it appends the escaped
    left text, the escaped padding of [n - left.length - right.length]
    copies of [char] and the escaped right text, again followed by that
    reference.  Nothing is written to the console. *)
Theorem addColumnText_message (Number_toString : float -> jsstring)
    (StringToNumber : jsstring -> float)
    (p : EpsonPrint.t) (left right char : jsstring) :
  Z.of_nat (length left) < 2 ^ 53 -> Z.of_nat (length right) < 2 ^ 53 ->
  (EpsonPrint.charsPerLine p = None ->
   EpsonPrint.addColumnText Number_toString StringToNumber p left right (Some char)
   = Return
       (EpsonPrint.with_message p
          (EpsonPrint.message p ++ lit "<text>" ++ escapeMarkup left ++ lit " "
           ++ escapeMarkup right ++ lit "&#10;" ++ lit "</text>"), []))
  /\ (forall n, 0 <= n <= max_string_length ->
      Z.of_nat (length left) + Z.of_nat (length right) < n ->
      let pad :=
        concat (replicate
                  (Z.to_nat (n - Z.of_nat (length left) - Z.of_nat (length right)))
                  char) in
      let q := EpsonPrint.setCharsPerLine p (JS.num n) in
      let m :=
        EpsonPrint.message p ++ lit "<text>" ++ escapeMarkup left
        ++ escapeMarkup pad ++ escapeMarkup right ++ lit "&#10;"
        ++ lit "</text>" in
      Z.of_nat (length m) <= max_string_length ->
      EpsonPrint.addColumnText Number_toString StringToNumber q left right (Some char)
      = Return (EpsonPrint.with_message q m, [])).
Proof.
  intros Hl Hr. split.
  - intros Hc. unfold EpsonPrint.addColumnText. rewrite Hc.
    change (default (lit " ") (Some char)) with char.
    destruct (formatColumnText_special left right char Hl Hr) as [-> _].
    rewrite addText_message. do 3 f_equal.
    rewrite !escapeMarkup_app.
    change (escapeMarkup (lit " ")) with (lit " ").
    change (escapeMarkup [10%N]) with (lit "&#10;").
    by rewrite <- !app_assoc.
  - intros n Hn Hfit pad q m _. unfold m. unfold EpsonPrint.addColumnText.
    cbn [EpsonPrint.setCharsPerLine EpsonPrint.charsPerLine q].
    change (default (lit " ") (Some char)) with char.
    assert (Hn' : 0 <= n < 2 ^ 53) by (unfold max_string_length in Hn; lia).
    destruct (formatColumnText_num left right char n Hn' Hl Hr)
      as (out & -> & Hout & _).
    destruct (Hout Hfit) as [-> _].
    rewrite addText_message. do 3 f_equal.
    rewrite !escapeMarkup_app.
    change (escapeMarkup [10%N]) with (lit "&#10;").
    by rewrite <- !app_assoc.
Qed.

Lemma addColumnText_message_witness :
  (EpsonPrint.charsPerLine EpsonPrint.new = None ->
   EpsonPrint.addColumnText (fun _ => []) (fun _ => nan) EpsonPrint.new
     (lit "A&B") (lit "1") (Some (lit "."))
   = Return
       (EpsonPrint.with_message EpsonPrint.new
          (EpsonPrint.message EpsonPrint.new ++ lit "<text>"
           ++ escapeMarkup (lit "A&B") ++ lit " "
           ++ escapeMarkup (lit "1") ++ lit "&#10;" ++ lit "</text>"), []))
  /\ (forall n, 0 <= n <= max_string_length ->
      Z.of_nat (length (lit "A&B")) + Z.of_nat (length (lit "1")) < n ->
      let pad :=
        concat (replicate
                  (Z.to_nat (n - Z.of_nat (length (lit "A&B"))
                             - Z.of_nat (length (lit "1"))))
                  (lit ".")) in
      let q := EpsonPrint.setCharsPerLine EpsonPrint.new (JS.num n) in
      let m :=
        EpsonPrint.message EpsonPrint.new ++ lit "<text>"
        ++ escapeMarkup (lit "A&B") ++ escapeMarkup pad
        ++ escapeMarkup (lit "1") ++ lit "&#10;" ++ lit "</text>" in
      Z.of_nat (length m) <= max_string_length ->
      EpsonPrint.addColumnText (fun _ => []) (fun _ => nan) q
        (lit "A&B") (lit "1") (Some (lit "."))
      = Return (EpsonPrint.with_message q m, [])).
Proof.
  apply (addColumnText_message (fun _ => []) (fun _ => nan) EpsonPrint.new
           (lit "A&B") (lit "1") (lit ".")).
  - vm_compute. reflexivity.
  - vm_compute. reflexivity.
Defined.



(** ** The printer client *)

(** X13.  [isReady], for a reply that was received, depends on four bits of
    the status only (the status being converted to a 32-bit integer): it
    answers ready exactly when bits 0, 3, 5 and 19 are clear, and otherwise
    gives the reason of the first set bit in the order 0 (CONNECTION_FAILED),
    19 (PAPER_EMPTY), 5 (COVER_OPEN), 3 (OFFLINE).  The bits of the drawer
    (2) and of paper near its end (17) never make the printer not ready. *)
Theorem isReady_bits (parseInt10 : jsstring -> float)
    (xml : list EpsonPrinter.element) :
  let statusValue :=
    match xml with
    | response :: _ => EpsonPrinter.status response
    | [] => None
    end in
  let st := JS.ToInt32 (parseInt10 (EpsonPrinter.or_else statusValue (lit "0"))) in
  EpsonPrinter.isReady parseInt10 (Return xml)
  = (if Z.testbit st 0 then (false, Some (lit "CONNECTION_FAILED"))
     else if Z.testbit st 19 then (false, Some (lit "PAPER_EMPTY"))
     else if Z.testbit st 5 then (false, Some (lit "COVER_OPEN"))
     else if Z.testbit st 3 then (false, Some (lit "OFFLINE"))
     else (true, None))
  /\ ((EpsonPrinter.isReady parseInt10 (Return xml)).1 = true
      <-> Z.testbit st 0 = false /\ Z.testbit st 3 = false
          /\ Z.testbit st 5 = false /\ Z.testbit st 19 = false).
Proof.
  intros statusValue st.
  assert (E : EpsonPrinter.isReady parseInt10 (Return xml)
              = (if Z.testbit st 0 then (false, Some (lit "CONNECTION_FAILED"))
                 else if Z.testbit st 19 then (false, Some (lit "PAPER_EMPTY"))
                 else if Z.testbit st 5 then (false, Some (lit "COVER_OPEN"))
                 else if Z.testbit st 3 then (false, Some (lit "OFFLINE"))
                 else (true, None))).
  { unfold EpsonPrinter.isReady, EpsonPrinter.getStatus. fold statusValue.
    cbn [EpsonPrinter.isResponsive EpsonPrinter.paperEmpty
         EpsonPrinter.coverIsOpen EpsonPrinter.isOffline].
    change 1 with (2 ^ 0) at 1. change 524288 with (2 ^ 19).
    change 32 with (2 ^ 5). change 8 with (2 ^ 3).
    rewrite !masked_testbit by lia. fold st.
    by destruct (Z.testbit st 0), (Z.testbit st 19), (Z.testbit st 5),
      (Z.testbit st 3). }
  split; [exact E|]. rewrite E.
  destruct (Z.testbit st 0), (Z.testbit st 19), (Z.testbit st 5),
    (Z.testbit st 3); cbn; split; intros H; try done; by destruct H as (?&?&?&?).
Qed.

(** X14.  A failed request makes [isReady] answer CONNECTION_FAILED; but a
    reply that holds no response element, or whose response has no status
    attribute or an empty one, is read as status 0: [getStatus] reports a
    responsive printer with the drawer open, and [isReady] answers
    ready. *)
Theorem isReady_without_status (parseInt10 : jsstring -> float)
    (e : exception) (xml : list EpsonPrinter.element) :
  parseInt10 (lit "0") = 0%float ->
  match xml with
  | response :: _ =>
      EpsonPrinter.status response = None \/ EpsonPrinter.status response = Some []
  | [] => True
  end ->
  EpsonPrinter.isReady parseInt10 (Raise e)
  = (false, Some (lit "CONNECTION_FAILED"))
  /\ EpsonPrinter.isReady parseInt10 (Return xml) = (true, None)
  /\ EpsonPrinter.isResponsive (EpsonPrinter.getStatus parseInt10 (Return xml)) = true
  /\ EpsonPrinter.drawerIsOpen (EpsonPrinter.getStatus parseInt10 (Return xml)) = true.
Proof.
  intros Hp Hxml. split; [done|].
  assert (E : EpsonPrinter.or_else
                match xml with
                | response :: _ => EpsonPrinter.status response
                | [] => None
                end (lit "0") = lit "0").
  { destruct xml as [|response xml]; [done|]. by destruct Hxml as [-> | ->]. }
  unfold EpsonPrinter.isReady, EpsonPrinter.getStatus. rewrite E, Hp. done.
Qed.

Lemma isReady_without_status_witness :
  EpsonPrinter.isReady (fun _ => 0%float) (Raise ExnRangeError)
  = (false, Some (lit "CONNECTION_FAILED"))
  /\ EpsonPrinter.isReady (fun _ => 0%float) (Return []) = (true, None)
  /\ EpsonPrinter.isResponsive (EpsonPrinter.getStatus (fun _ => 0%float) (Return [])) = true
  /\ EpsonPrinter.drawerIsOpen (EpsonPrinter.getStatus (fun _ => 0%float) (Return [])) = true.
Proof.
  apply (isReady_without_status (fun _ => 0%float) ExnRangeError []).
  - reflexivity.
  - exact I.
Defined.

(** X15.  [send] with [maxRetries] set to the integer [n], called with the
    default retry count 0, when the first [n + 1] requests all fail (by an
    exception of the request, by a reply without response element, or by a
    response whose success attribute is not the string true): it makes no
    further request, waits [n] times, the k-th delay being
    [Math.pow(2, k) * 1000], and throws the exception of the LAST attempt. *)
Theorem send_gives_up (approx : float -> float -> float) (n : Z)
    (fails : list EpsonPrinter.reply) (final : EpsonPrinter.reply)
    (rest : list EpsonPrinter.reply) :
  0 <= n < 2 ^ 53 -> Z.of_nat (length fails) = n ->
  Forall failing fails -> failing final ->
  exists e,
    EpsonPrinter.attempt final = Raise e
    /\ EpsonPrinter.send approx (JS.num n) (fails ++ final :: rest) 0
       = Some (Raise e, retry_delays approx 0 (length fails)).
Proof.
  intros Hn Hlen Hf [e He]. exists e. split; [done|].
  rewrite (send_failing approx n (final :: rest) Hn fails 0) by (done || lia).
  cbn [EpsonPrinter.send]. rewrite He, Z.add_0_l, Hlen.
  rewrite (num_lt n n) by lia. rewrite Z.ltb_irrefl. by rewrite app_nil_r.
Qed.

Lemma send_gives_up_witness :
  exists e,
    EpsonPrinter.attempt (Return []) = Raise e
    /\ EpsonPrinter.send approx_unit (JS.num 2)
         ([Raise (ExnError (lit "timeout"));
           Return [EpsonPrinter.Element (Some (lit "false"))
                     (Some (lit "DeviceNotFound")) None]]
          ++ Return [] :: []) 0
       = Some (Raise e,
               retry_delays approx_unit 0
                 (length [Raise (ExnError (lit "timeout"));
                          Return [EpsonPrinter.Element (Some (lit "false"))
                                    (Some (lit "DeviceNotFound")) None]])).
Proof.
  apply (send_gives_up approx_unit 2).
  - lia.
  - reflexivity.
  - repeat (apply Forall_cons; split; [by eexists|]). by apply Forall_nil.
  - by eexists.
Defined.

(** X16.  [send] with [maxRetries] set to the integer [n]: when at most [n]
    requests fail and the next one gets a response whose success attribute
    is the string true, it returns that response, after one delay
    [Math.pow(2, k) * 1000] per failed attempt [k]; a failure reported by
    the device in a response is retried like a failure of the request. *)
Theorem send_first_success (approx : float -> float -> float) (n : Z)
    (fails : list EpsonPrinter.reply) (good : EpsonPrinter.reply)
    (response : EpsonPrinter.element) (rest : list EpsonPrinter.reply) :
  0 <= n < 2 ^ 53 -> Z.of_nat (length fails) <= n ->
  Forall failing fails -> EpsonPrinter.attempt good = Return response ->
  EpsonPrinter.send approx (JS.num n) (fails ++ good :: rest) 0
  = Some (Return response, retry_delays approx 0 (length fails)).
Proof.
  intros Hn Hlen Hf Hg.
  rewrite (send_failing approx n (good :: rest) Hn fails 0) by (done || lia).
  cbn [EpsonPrinter.send]. rewrite Hg. by rewrite app_nil_r.
Qed.

Lemma send_first_success_witness :
  EpsonPrinter.send approx_unit (JS.num 3)
    ([Return [EpsonPrinter.Element (Some (lit "false"))
                (Some (lit "DeviceNotFound")) None]]
     ++ Return [EpsonPrinter.Element (Some (lit "true")) None (Some (lit "0"))]
        :: []) 0
  = Some (Return (EpsonPrinter.Element (Some (lit "true")) None (Some (lit "0"))),
          retry_delays approx_unit 0
            (length [Return [EpsonPrinter.Element (Some (lit "false"))
                               (Some (lit "DeviceNotFound")) None]])).
Proof.
  apply (send_first_success approx_unit 3).
  - lia.
  - cbn. lia.
  - repeat (apply Forall_cons; split; [by eexists|]). by apply Forall_nil.
  - reflexivity.
Defined.

(** X17.  In mode 0 of [toMonoImage] (ordered dithering) every pixel is
    decided on its own: for every image with width >= 1 (width + 7 below
    2^31) and a pixel buffer of length width*height*4, and every pixel
    (j, i) of it, the call returns, and bit
    [7 - i mod 8] of the byte accumulated for the pixel's group of eight
    columns (byte [j * ceil(width / 8) + i / 8] of the output, before the
    16-to-32 substitution) is set exactly when the brightness of that pixel
    is below entry [j & 7][i & 7] of the Bayer matrix. *)
Theorem bayer_decision_local (approx : float -> float -> float)
    (imgdata : ImageData) (g : float) (j i : Z) :
  1 <= width imgdata -> width imgdata + 7 < 2 ^ 31 ->
  Z.of_nat (length (data imgdata)) = width imgdata * height imgdata * 4 ->
  0 <= j < height imgdata -> 0 <= i < width imgdata ->
  exists out raw,
    toMonoImage approx imgdata 0 g = JS.Normal out
    /\ out !! Z.to_nat (j * ((width imgdata + 7) / 8) + i / 8)
       = Some (emit_byte raw)
    /\ 0 <= raw < 256
    /\ Z.testbit raw (7 - i mod 8)
       = (brightness approx (data imgdata) (4 * (j * width imgdata + i)) g
          <? JS.num (tbl2 bayer (Z.land j 7) (Z.land i 7)))%float.
Proof.
  intros Hw Hw' _ Hj Hi.
  apply (mono_bit_stateless approx imgdata 0 g
           (fun j i p => (brightness approx (data imgdata) p g
                          <? JS.num (tbl2 bayer (Z.land j 7) (Z.land i 7)))%float)
           j i Hw Hw' Hj Hi).
  intros. apply mono_decide_bayer.
Qed.

Lemma bayer_decision_local_witness :
  exists out raw,
    toMonoImage approx_unit row16 0 1 = JS.Normal out
    /\ out !! Z.to_nat (0 * ((width row16 + 7) / 8) + 3 / 8)
       = Some (emit_byte raw)
    /\ 0 <= raw < 256
    /\ Z.testbit raw (7 - 3 mod 8)
       = (brightness approx_unit (data row16) (4 * (0 * width row16 + 3)) 1
          <? JS.num (tbl2 bayer (Z.land 0 7) (Z.land 3 7)))%float.
Proof.
  apply (bayer_decision_local approx_unit row16 1 0 3);
    [cbn; lia|cbn; lia|reflexivity|cbn; lia|cbn; lia].
Defined.



(** X19.  A fully transparent pixel is white, whatever its colour: when the
    three colour channels are in [0, 255] and alpha is 0, the luminance
    computed by both converters is exactly 1, so the pixel gets the
    brightness, and in [toGrayImage] the level, of an opaque white pixel,
    for every gamma and every engine. *)
Theorem transparent_is_white (approx : float -> float -> float)
    (d : list Z) (p : Z) (g : float) :
  valid_pixel d p = true -> d !! Z.to_nat (p + 3) = Some 0 ->
  lum d p = 1%float
  /\ brightness approx d p g = brightness approx white 0 g
  /\ forall j i, gray_level approx d g j i p = gray_level approx white g j i 0.
Proof.
  intros Hv Ha. pose proof (lum_transparent d p Hv Ha) as Hl.
  assert (Hb : brightness approx d p g = brightness approx white 0 g).
  { unfold brightness. rewrite Hl. reflexivity. }
  split; [done|]. split; [done|]. intros j i.
  unfold gray_level, thermal_index. by rewrite Hb.
Qed.

Lemma transparent_is_white_witness :
  lum [12; 200; 99; 0] 0 = 1%float
  /\ brightness approx_unit [12; 200; 99; 0] 0 1 = brightness approx_unit white 0 1
  /\ forall j i, gray_level approx_unit [12; 200; 99; 0] 1 j i 0
                 = gray_level approx_unit white 1 j i 0.
Proof.
  apply (transparent_is_white approx_unit [12; 200; 99; 0] 0 1); reflexivity.
Defined.

(** X20.  A pixel that the data does not hold (its alpha index is at or
    past the end of the buffer) is not an error, in an image of width and
    height at most 2^14.  Unless gamma is infinite (1 / g is zero), its
    brightness is NaN: [toGrayImage] gives it level 0, and mode 0 of
    [toMonoImage] leaves its bit clear. *)
Theorem missing_pixel (approx : float -> float -> float)
    (imgdata : ImageData) (g : float) (j i : Z) :
  let p := 4 * (j * width imgdata + i) in
  width imgdata <= max_dimension -> height imgdata <= max_dimension ->
  0 <= j < height imgdata -> 0 <= i < width imgdata ->
  Z.of_nat (length (data imgdata)) <= p + 3 ->
  is_zero (1 / g) = false ->
  brightness approx (data imgdata) p g = nan
  /\ gray_level approx (data imgdata) g j i p = 0
  /\ (exists out byte,
        toGrayImage approx imgdata g = JS.Normal out
        /\ out !! Z.to_nat (j * ((width imgdata + 1) / 2) + i / 2) = Some byte
        /\ (if Z.even i then Z.shiftr byte 4 else Z.land byte 15) = 0)
  /\ (exists out raw,
        toMonoImage approx imgdata 0 g = JS.Normal out
        /\ out !! Z.to_nat (j * ((width imgdata + 7) / 8) + i / 8)
           = Some (emit_byte raw)
        /\ Z.testbit raw (7 - i mod 8) = false).
Proof.
  intros p Hwd Hhd Hj Hi Hlen Hg.
  assert (Hw : 1 <= width imgdata) by lia.
  assert (Hw' : width imgdata + 7 < 2 ^ 31)
    by (unfold max_dimension in Hwd; lia).
  assert (Hd : data imgdata !! Z.to_nat (p + 3) = None)
    by (apply lookup_ge_None; lia).
  pose proof (brightness_missing approx _ p g Hd Hg) as Hb.
  assert (Hl : gray_level approx (data imgdata) g j i p = 0).
  { unfold gray_level, thermal_index. rewrite Hb.
    change (thermal_at (JS.ToInt32 nan)) with (Some 0).
    apply quantize_zero, tbl2_m4_range. }
  split; [done|]. split; [done|]. split.
  - destruct (toGrayImage_nibble approx imgdata g j i) as (out & byte & Ho & Hk & _ & Hn);
      try lia.
    exists out, byte. split; [done|]. split; [done|]. fold p in Hn. by rewrite Hn.
  - destruct (mono_bit_stateless approx imgdata 0 g
                (fun j i p => (brightness approx (data imgdata) p g
                               <? JS.num (tbl2 bayer (Z.land j 7) (Z.land i 7)))%float)
                j i Hw Hw' Hj Hi) as (out & raw & Ho & Hk & _ & Hbit).
    { intros. apply mono_decide_bayer. }
    exists out, raw. split; [done|]. split; [done|].
    fold p in Hbit. by rewrite Hbit, Hb, ltb_nan_l.
Qed.

Lemma missing_pixel_witness :
  let p := 4 * (0 * 2 + 1) in
  brightness approx_unit [255; 255; 255; 255; 0; 0] p 1 = nan
  /\ gray_level approx_unit [255; 255; 255; 255; 0; 0] 1 0 1 p = 0
  /\ (exists out byte,
        toGrayImage approx_unit (Build_ImageData [255; 255; 255; 255; 0; 0] 2 1) 1
        = JS.Normal out
        /\ out !! Z.to_nat (0 * ((2 + 1) / 2) + 1 / 2) = Some byte
        /\ (if Z.even 1 then Z.shiftr byte 4 else Z.land byte 15) = 0)
  /\ (exists out raw,
        toMonoImage approx_unit (Build_ImageData [255; 255; 255; 255; 0; 0] 2 1) 0 1
        = JS.Normal out
        /\ out !! Z.to_nat (0 * ((2 + 7) / 8) + 1 / 8) = Some (emit_byte raw)
        /\ Z.testbit raw (7 - 1 mod 8) = false).
Proof.
  apply (missing_pixel approx_unit (Build_ImageData [255; 255; 255; 255; 0; 0] 2 1)
           1 0 1);
    [cbn; unfold max_dimension; lia|cbn; unfold max_dimension; lia
    |cbn; lia|cbn; lia|cbn; lia|reflexivity].
Defined.

(** X21.  [addRow] never lets a validation error out: an attribute whose
    validation throws (an integer attribute that is not a number or is out
    of its range) is left out of the element, and the message is exactly the
    one obtained without that entry; the exception goes to the console,
    after those of the entries before it and before those of the entries
    after it. *)
Theorem addRow_drops_invalid (Number_toString : float -> jsstring)
    (StringToNumber : jsstring -> float)
    (p : EpsonPrint.t) (field : jsstring) (value : option jsstring)
    (pre post : list (jsstring * jsvalue)) (key : jsstring) (val : jsvalue)
    (e : exception) :
  val <> VUndefined -> val <> VNull ->
  EpsonPrint.attribute Number_toString StringToNumber field key val = Raise e ->
  let addRow := EpsonPrint.addRow Number_toString StringToNumber p field value in
  let console fs :=
    (EpsonPrint.attributes Number_toString StringToNumber field fs [] []).2 in
  (addRow (Some (pre ++ (key, val) :: post))).1 = (addRow (Some (pre ++ post))).1
  /\ (addRow (Some (pre ++ (key, val) :: post))).2
     = console pre ++ (key, e) :: console post.
Proof.
  intros Hu Hn He addRow console. unfold addRow, console, EpsonPrint.addRow.
  rewrite !attributes_app.
  assert (H1 : EpsonPrint.attributes Number_toString StringToNumber field
                 ((key, val) :: post) [] []
               = ((EpsonPrint.attributes Number_toString StringToNumber field
                     post [] []).1,
                  (key, e) :: (EpsonPrint.attributes Number_toString StringToNumber
                                 field post [] []).2)).
  { cbn [EpsonPrint.attributes]. rewrite He.
    destruct val; try done; by rewrite attributes_acc. }
  rewrite H1. cbn [fst snd]. done.
Qed.

Lemma addRow_drops_invalid_witness :
  let addRow :=
    EpsonPrint.addRow (fun _ => lit "1") (fun _ => nan) EpsonPrint.new
      (lit "text") None in
  let console fs :=
    (EpsonPrint.attributes (fun _ => lit "1") (fun _ => nan) (lit "text")
       fs [] []).2 in
  (addRow (Some ([(lit "em", VBool true)] ++ (lit "width", VNum 9)
                 :: [(lit "height", VNum 1)]))).1
  = (addRow (Some ([(lit "em", VBool true)] ++ [(lit "height", VNum 1)]))).1
  /\ (addRow (Some ([(lit "em", VBool true)] ++ (lit "width", VNum 9)
                    :: [(lit "height", VNum 1)]))).2
     = console [(lit "em", VBool true)]
       ++ (lit "width", invalid_parameter (lit "width"))
          :: console [(lit "height", VNum 1)].
Proof.
  apply (addRow_drops_invalid (fun _ => lit "1") (fun _ => nan) EpsonPrint.new
           (lit "text") None [(lit "em", VBool true)] [(lit "height", VNum 1)]
           (lit "width") (VNum 9) (invalid_parameter (lit "width")));
    [discriminate|discriminate|vm_compute; reflexivity].
Defined.
